(** * Cluster rescheduling MILP (datafev): optimisation-model formulation

    Shallow embedding of [reschedule] from
    [src/datafev/algorithms/cluster/rescheduling_milp.py].

    The Python function builds a pyomo [ConcreteModel] (index sets,
    decision variables, constraints, objective), hands it to an external
    solver, and reads the solved values back into two nested dictionaries.

    - Python dictionaries are [gmap]s, step indices are [Z], every other
      number is a rational [Q] (the exact-arithmetic reading of a float).
    - pyomo expressions are a small syntax tree [expr]; a constraint is a
      relation between two of them.
    - Everything that can raise in Python (a missing dictionary key, an
      index outside a pyomo index set, division of an expression by a zero
      number, [max] of an empty list) lives in the [result] monad.
    - The solver is a parameter: any function from the built model to either
      an exception or a results object carrying the values it loaded. *)

From Stdlib Require Import ZArith QArith Qabs Lqa Lia.
From stdpp Require Import base decidable option list gmap strings fin_maps.

#[local] Unset Default Proof Using.
#[local] Open Scope Z_scope.

(** ** Exceptions and the [result] monad *)

Inductive exception : Type :=
  | KeyError
  | ZeroDivisionError
  | ValueError
  | BackendError (cls : string).

(** The two built-in exceptions a failed lookup or division produces. *)
Definition builtin_lookup_error (e : exception) : Prop :=
  e = KeyError ∨ e = ZeroDivisionError.

Inductive result (A : Type) : Type :=
  | Ok (a : A)
  | Raise (e : exception).
Arguments Ok {A} a.
Arguments Raise {A} e.

#[global] Instance result_ret : MRet result := λ A a, Ok a.
#[global] Instance result_bind : MBind result := λ A B f r,
  match r with
  | Ok a => f a
  | Raise e => Raise e
  end.
#[global] Instance result_fmap : FMap result := λ A B f r,
  match r with
  | Ok a => Ok (f a)
  | Raise e => Raise e
  end.

(** Monadic left fold: a Python [for] loop whose body may raise. *)
Fixpoint foldM {A B : Type} (f : B → A → result B) (b : B) (l : list A)
  : result B :=
  match l with
  | [] => Ok b
  | x :: l' => b' ← f b x; foldM f b' l'
  end.

(** ** Python built-ins used by the source *)

(** [d[k]] *)
Definition getitem `{Countable K} (d : gmap K Q) (k : K) : result Q :=
  match d !! k with
  | Some q => Ok q
  | None => Raise KeyError
  end.

(** [max(l)] *)
Definition py_max (l : list Z) : result Z :=
  match l with
  | [] => Raise ValueError
  | x :: l' => Ok (foldr Z.max x l')
  end.

(** [t >= d] for an integer step [t] and a numeric departure [d] *)
Definition py_ge (t : Z) (d : Q) : bool := Qle_bool d (inject_Z t).

(** ** pyomo variables, expressions, constraints *)

Inductive var : Type :=
  | p_ev (v : string) (t : Z)      (* net charging power *)
  | p_ev_pos (v : string) (t : Z)  (* charging power *)
  | p_ev_neg (v : string) (t : Z)  (* discharging power *)
  | x_ev (v : string) (t : Z)      (* whether the EV is charging *)
  | s (v : string) (t : Z)         (* SOC *)
  | p_cc (t : Z)                   (* power flow into the cluster *)
  | eps                            (* violation of the aggregate limits *)
  | y (v : string).                (* deviation from the target SOC *)

#[global] Instance var_eq_dec : EqDecision var.
Proof. solve_decision. Defined.

Inductive domain : Type := Reals | NonNegativeReals | Binary.

(** The [within=] argument of each [Var] declaration. *)
Definition within (x : var) : domain :=
  match x with
  | p_ev _ _ => Reals
  | p_ev_pos _ _ => NonNegativeReals
  | p_ev_neg _ _ => NonNegativeReals
  | x_ev _ _ => Binary
  | s _ _ => NonNegativeReals
  | p_cc _ => Reals
  | eps => NonNegativeReals
  | y _ => NonNegativeReals
  end.

Inductive expr : Type :=
  | ENum (q : Q)
  | EVar (x : var)
  | EAdd (a b : expr)
  | ESub (a b : expr)
  | EMul (a b : expr)
  | EDiv (a b : expr)
  | ENeg (a : expr).

Inductive relation_kind : Type := REq | RLe | RGe.

Record constraint : Type := Con {
  lhs : expr;
  rel : relation_kind;
  rhs : expr
}.

(** [e / c] for a pyomo expression [e] and a Python number [c]: pyomo raises
    [ZeroDivisionError] when the number is zero. *)
Definition py_div (e : expr) (c : Q) : result expr :=
  if Qeq_bool c 0 then Raise ZeroDivisionError
  else Ok (EDiv e (ENum c)).

(** [sum(generator)]: Python starts from the integer 0 and adds left to
    right. *)
Definition py_sum (es : list expr) : expr :=
  fold_left EAdd es (ENum 0).

(** ** The model object *)

Inductive objective_sense : Type := minimize | maximize.

Record ConcreteModel : Type := {
  V : list string;
  T : list Z;
  Tp : list Z;
  inisoc_con : list constraint;     (* model.inisoc *)
  minsoc_con : list constraint;
  maxsoc_con : list constraint;
  socconst : list constraint;
  chrpowconst : list constraint;
  combconst1 : list constraint;
  combconst2 : list constraint;
  ccpowtotal : list constraint;
  viol_clust : list constraint;
  ccpowcap_pos : list constraint;
  ccpowcap_neg : list constraint;
  indev_pos : list constraint;
  indev_neg : list constraint;
  obj : expr;
  sense : objective_sense
}.

Definition constraints (m : ConcreteModel) : list constraint :=
  inisoc_con m ++ minsoc_con m ++ maxsoc_con m ++ socconst m
  ++ chrpowconst m ++ combconst1 m ++ combconst2 m ++ ccpowtotal m
  ++ viol_clust m ++ ccpowcap_pos m ++ ccpowcap_neg m
  ++ indev_pos m ++ indev_neg m.

(** Every variable object the model declares. *)
Definition declared_vars (m : ConcreteModel) : list var :=
  let VT := list_prod (V m) (T m) in
  map (λ '(v, t), p_ev v t) VT
  ++ map (λ '(v, t), p_ev_pos v t) VT
  ++ map (λ '(v, t), p_ev_neg v t) VT
  ++ map (λ '(v, t), x_ev v t) VT
  ++ map (λ '(v, t), s v t) (list_prod (V m) (Tp m))
  ++ map p_cc (T m)
  ++ [eps]
  ++ map y (V m).

(** ** Values and feasibility

    After [solver.solve(model)] every variable object carries either a
    number or [None]; [x()] reads it. *)

Definition valuation : Type := var → option Q.

Fixpoint eval (a : valuation) (e : expr) : option Q :=
  match e with
  | ENum q => Some q
  | EVar x => a x
  | EAdd e1 e2 => q1 ← eval a e1; q2 ← eval a e2; Some (q1 + q2)%Q
  | ESub e1 e2 => q1 ← eval a e1; q2 ← eval a e2; Some (q1 - q2)%Q
  | EMul e1 e2 => q1 ← eval a e1; q2 ← eval a e2; Some (q1 * q2)%Q
  | EDiv e1 e2 =>
      q1 ← eval a e1; q2 ← eval a e2;
      if Qeq_bool q2 0 then None else Some (q1 / q2)%Q
  | ENeg e1 => q1 ← eval a e1; Some (- q1)%Q
  end.

Definition holds (a : valuation) (c : constraint) : bool :=
  match eval a (lhs c), eval a (rhs c) with
  | Some l, Some r =>
      match rel c with
      | REq => Qeq_bool l r
      | RLe => Qle_bool l r
      | RGe => Qle_bool r l
      end
  | _, _ => false
  end.

Definition in_domain (d : domain) (q : Q) : bool :=
  match d with
  | Reals => true
  | NonNegativeReals => Qle_bool 0 q
  | Binary => Qeq_bool q 0 || Qeq_bool q 1
  end.

(** A valuation is feasible when every constraint evaluates and holds and
    every declared variable that carries a value has it in its domain. *)
Definition feasible (m : ConcreteModel) (a : valuation) : bool :=
  forallb (holds a) (constraints m)
  && forallb (λ x, from_option (in_domain (within x)) true (a x))
       (declared_vars m).

(** Syntactic linearity: a product has a number on one side, a quotient has
    a number as divisor. *)
Definition is_num (e : expr) : bool :=
  match e with
  | ENum _ => true
  | _ => false
  end.

Fixpoint linear (e : expr) : bool :=
  match e with
  | ENum _ | EVar _ => true
  | EAdd a b | ESub a b => linear a && linear b
  | EMul a b => (is_num a && linear b) || (linear a && is_num b)
  | EDiv a b => linear a && is_num b
  | ENeg a => linear a
  end.

Definition linear_constraint (c : constraint) : bool :=
  linear (lhs c) && linear (rhs c).

(** Occurrence of a variable in an expression or a constraint. *)
Fixpoint occurs (x : var) (e : expr) : bool :=
  match e with
  | ENum _ => false
  | EVar z => bool_decide (z = x)
  | EAdd a b | ESub a b | EMul a b | EDiv a b => occurs x a || occurs x b
  | ENeg a => occurs x a
  end.

Definition mentions (c : constraint) (x : var) : bool :=
  occurs x (lhs c) || occurs x (rhs c).

(** The valuation [a] with the value of [x] replaced by [q]. *)
Definition assign (a : valuation) (x : var) (q : Q) : valuation :=
  λ z, if decide (z = x) then Some q else a z.

(** ** The solver *)

Inductive TerminationCondition : Type :=
  | optimal | infeasible | unbounded | solverFailure | otherCondition.

Record SolverResults : Type := {
  termination_condition : TerminationCondition;
  values : valuation              (* what the model's variables now hold *)
}.

Definition Solver : Type := ConcreteModel → result SolverResults.

Abbreviation schedule := (gmap string (gmap Z (option Q))).

(** [sch[v][t]]: [None] when a key is absent, [Some None] when the entry is
    Python's [None]. *)
Definition entry (sch : schedule) (v : string) (t : Z) : option (option Q) :=
  row ← sch !! v; row !! t.

(** ** Scenario data used by the runnable examples below

    One vehicle of 55 kWh (198000 kWs) behind an 11 kW charger, five-minute
    steps, as in the script at the end of the source file. *)

Definition ev1 : string := "EV1".

(** A per-vehicle attribute dictionary with the single key [ev1]. *)
Definition fleet_of (q : Q) : gmap string Q := {[ ev1 := q ]}.

(** A limit dictionary with the same bound at each of the given steps. *)
Definition limits_at (ts : list Z) (q : Q) : gmap Z Q :=
  list_to_map ((λ t, (t, q)) <$> ts).

(** Charge at 11 kW at every step, starting from SOC 1/2 at step 0. *)
Definition charging_point : valuation := λ x,
  match x with
  | p_ev _ _ | p_ev_pos _ _ => Some 11%Q
  | p_ev_neg _ _ => Some 0%Q
  | x_ev _ _ => Some 1%Q
  | s _ t => Some ((1 # 2) + inject_Z t * (1 # 60))%Q
  | p_cc _ => Some 11%Q
  | eps => Some 0%Q
  | y _ => Some 0%Q
  end.

(** Do nothing: SOC stays at 1/2. *)
Definition idle_point : valuation := λ x,
  match x with
  | s _ _ => Some (1 # 2)%Q
  | _ => Some 0%Q
  end.

(** Charge at 11 kW at the steps below 0 only; SOC is 1/2 from step 0 on. *)
Definition early_point : valuation := λ x,
  match x with
  | p_ev _ t | p_ev_pos _ t | p_cc t => Some (if t <? 0 then 11 else 0)%Q
  | x_ev _ t => Some (if t <? 0 then 1 else 0)%Q
  | s _ t => Some (if t <? 0 then (1 # 2) + inject_Z t * (1 # 60) else 1 # 2)%Q
  | p_ev_neg _ _ | eps | y _ => Some 0%Q
  end.

(** No variable carries a value. *)
Definition no_values : valuation := λ _, None.

(** A solver that returns with the given termination condition and leaves
    the given values in the model. *)
Definition reporting (tc : TerminationCondition) (a : valuation) : Solver :=
  λ _, Ok {| termination_condition := tc; values := a |}.

(** A solver whose call raises. *)
Definition unavailable_solver : Solver :=
  λ _, Raise (BackendError "ApplicationError").

(** ** Derived quantities used to state further properties *)

(** [f 0 + f 1 + ... + f (n-1)] *)
Fixpoint step_sum (f : Z → Q) (n : nat) : Q :=
  match n with
  | O => 0
  | S k => step_sum f k + f (Z.of_nat k)
  end.

(** The number stored at [sch[v][t]], 0 when there is none. *)
Definition entry_value (sch : schedule) (v : string) (t : Z) : Q :=
  default 0%Q (mjoin (entry sch v t)).


(** A valuation is optimal for a model whose objective is minimised when it
    is feasible and no feasible valuation has a smaller objective value. *)
Definition minimiser (m : ConcreteModel) (a : valuation) : Prop :=
  feasible m a = true
  ∧ ∀ a' O O', feasible m a' = true →
      eval a (obj m) = Some O → eval a' (obj m) = Some O' → (O <= O')%Q.


(** ** Python built-ins used where the inputs are put together *)

(** [list(range(n))] *)
Definition py_range (n : Z) : list Z := seqZ 0 n.

(** [dict(enumerate(xs))] *)
Definition dict_enumerate (xs : list Q) : gmap Z Q := map_seqZ 0 xs.


(** ** Scenario generation: [generate_datetime_list] ([utils.py])

    A [datetime] is counted in microseconds from an arbitrary origin and a
    [timedelta] is a number of microseconds, as [datetime] stores them.
    The one float in the function, [int(diff_delta / timedelta)], is a
    parameter: Python divides the two microsecond counts as a correctly
    rounded float and truncates it. *)

Section DatetimeList.

Variable int_of_quotient : Z → Z → Z.

(** [dt.timedelta(minutes=m)] *)
Definition timedelta_minutes (m : Z) : Z := m * 60000000.

Definition datetime_step (timedelta_in_min : Z) (st : list Z * Z) (n : Z)
  : list Z * Z :=
  (st.1 ++ [st.2], st.2 + timedelta_minutes timedelta_in_min).

Definition generate_datetime_list (sdate edate timedelta_in_min : Z)
  : result (list Z) :=
  let diff_delta := edate - sdate in
  if decide (timedelta_minutes timedelta_in_min = 0) then
    Raise ZeroDivisionError
  else
    let number_of_ts :=
      int_of_quotient diff_delta (timedelta_minutes timedelta_in_min) in
    Ok (foldl (datetime_step timedelta_in_min) ([], sdate)
          (seqZ 0 number_of_ts)).1.

End DatetimeList.

(** The truncated float quotient of two integers is their truncated exact
    quotient as long as the two together stay below 2^53: the integers
    around the quotient are floats, and the quotient is too far from the
    next integer to be rounded onto it. *)
Definition exact_below_2_53 (int_of_quotient : Z → Z → Z) : Prop :=
  ∀ a b, b ≠ 0 → Z.abs a + Z.abs b < 2 ^ 53 →
    int_of_quotient a b = Z.quot a b.


(** ** Fleet bookkeeping: [EVFleet] ([fleet.py])

    Time stamps are integers. A row of the behaviour table has a value in
    every column the constructor reads; a missing real departure time (NaN
    or NaT) is [None]. *)

Record behavior_row : Type := {
  row_ev_id : string;                        (* "ev_id" *)
  row_battery_capacity : Q;                  (* "Battery Capacity (kWh)" *)
  row_p_max_ch : Q;
  row_p_max_ds : Q;
  row_reservation_time : Z;
  row_estimated_arrival_time : Z;
  row_estimated_departure_time : Z;
  row_estimated_arrival_soc : Q;
  row_target_soc : Q;          (* "Target SOC @ Estimated Departure Time" *)
  row_v2g_allowance : Q;                     (* "V2G Allowance (kWh)" *)
  row_real_arrival_time : Z;
  row_real_arrival_soc : Q;
  row_real_departure_time : option Z;
  row_target_cluster : string
}.

(** A vehicle object: the arguments its constructor was called with, the
    attributes the fleet assigns afterwards, and its SOC table. *)
Record ElectricVehicle : Type := {
  vehicle_id : string;
  constructed_bcap : Q;
  constructed_p_max_ch : Q;
  constructed_p_max_ds : Q;
  t_res : Z;
  t_arr_est : Z;
  t_dep_est : Z;
  soc_arr_est : Q;
  soc_tar_at_t_dep_est : Q;
  v2g_allow : Q;
  t_arr_real : Z;
  soc_arr_real : Q;
  t_dep_real : option Z;
  cluster_target : string;
  soc : gmap Z Q
}.

Record EVFleet : Type := {
  fleet_id : string;
  objects : gmap string ElectricVehicle;
  reserving_at : gmap Z (list ElectricVehicle);
  incoming_at : gmap Z (list ElectricVehicle);
  outgoing_at : gmap (option Z) (list ElectricVehicle);
  presence_distribution : gmap Z nat
}.

(** [d[k].append(ev)] *)
Definition append_at `{Countable K} (d : gmap K (list ElectricVehicle)) (k : K)
    (ev : ElectricVehicle) : result (gmap K (list ElectricVehicle)) :=
  match d !! k with
  | Some l => Ok (<[k := l ++ [ev]]> d)
  | None => Raise KeyError
  end.

(** [d[k]] for the accessors *)
Definition vehicles_at `{Countable K} (d : gmap K (list ElectricVehicle))
    (k : K) : result (list ElectricVehicle) :=
  match d !! k with
  | Some l => Ok l
  | None => Raise KeyError
  end.

(** The rows counted present at [t]: arrived at or before [t] and leaving
    after [t]; a comparison with a missing departure time is false. *)
Definition present_at (t : Z) (i : behavior_row) : Prop :=
  row_real_arrival_time i ≤ t
  ∧ ∃ d, row_real_departure_time i = Some d ∧ t < d.

#[global] Instance present_at_dec t i : Decision (present_at t i).
Proof.
  unfold present_at. destruct (row_real_departure_time i) as [d|].
  - destruct (decide (row_real_arrival_time i ≤ t ∧ t < d)) as [[Ha Hd]|Hn].
    + left. split; [exact Ha | exists d; split; [reflexivity | exact Hd]].
    + right. intros (? & d' & [= <-] & ?). tauto.
  - right. intros (_ & d & [=] & _).
Defined.

Section Fleet.

(** The SOC table of a vehicle as its constructor leaves it; the
    constructor is not part of the source at hand. *)
Variable fresh_soc : string → Q → Q → Q → gmap Z Q.

(** The vehicle object made from one row. *)
Definition make_vehicle (i : behavior_row) : ElectricVehicle := {|
  vehicle_id := row_ev_id i;
  constructed_bcap := row_battery_capacity i;
  constructed_p_max_ch := row_p_max_ch i;
  constructed_p_max_ds := row_p_max_ds i;
  t_res := row_reservation_time i;
  t_arr_est := row_estimated_arrival_time i;
  t_dep_est := row_estimated_departure_time i;
  soc_arr_est := row_estimated_arrival_soc i;
  soc_tar_at_t_dep_est := row_target_soc i;
  v2g_allow := (row_v2g_allowance i * 3600)%Q;
  t_arr_real := row_real_arrival_time i;
  soc_arr_real := row_real_arrival_soc i;
  t_dep_real := row_real_departure_time i;
  cluster_target := row_target_cluster i;
  soc := <[row_real_arrival_time i := row_real_arrival_soc i]>
           (fresh_soc (row_ev_id i) (row_battery_capacity i)
              (row_p_max_ch i) (row_p_max_ds i))
|}.

(** Body of the loop over the rows. *)
Definition add_vehicle (fl : EVFleet) (i : behavior_row) : result EVFleet :=
  let ev := make_vehicle i in
  let objs := <[row_ev_id i := ev]> (objects fl) in
  res ← append_at (reserving_at fl) (t_res ev) ev;
  inc ← append_at (incoming_at fl) (t_arr_real ev) ev;
  out ← match t_dep_real ev with
        | None => append_at (outgoing_at fl) None ev
        | Some t => append_at (outgoing_at fl) (Some t) ev
        end;
  mret {| fleet_id := fleet_id fl; objects := objs;
          reserving_at := res; incoming_at := inc; outgoing_at := out;
          presence_distribution := presence_distribution fl |}.

(** [dict([(t, []) for t in sim_horizon])] *)
Definition empty_slots (sim_horizon : list Z) : gmap Z (list ElectricVehicle) :=
  foldl (λ d t, <[t := []]> d) ∅ sim_horizon.

Definition empty_outgoing (sim_horizon : list Z)
  : gmap (option Z) (list ElectricVehicle) :=
  <[None := []]> (foldl (λ d t, <[Some t := []]> d) ∅ sim_horizon).

Definition count_presence (behavior : list behavior_row) (sim_horizon : list Z)
  : gmap Z nat :=
  foldl (λ d t, <[t := length (filter (present_at t) behavior)]> d)
        ∅ sim_horizon.

(** [EVFleet.__init__] *)
Definition EVFleet_init (id : string) (behavior : list behavior_row)
    (sim_horizon : list Z) : result EVFleet :=
  fl ← foldM add_vehicle
         {| fleet_id := id; objects := ∅;
            reserving_at := empty_slots sim_horizon;
            incoming_at := empty_slots sim_horizon;
            outgoing_at := empty_outgoing sim_horizon;
            presence_distribution := ∅ |}
         behavior;
  mret {| fleet_id := fleet_id fl; objects := objects fl;
          reserving_at := reserving_at fl; incoming_at := incoming_at fl;
          outgoing_at := outgoing_at fl;
          presence_distribution := count_presence behavior sim_horizon |}.

Definition reserving_vehicles_at (fl : EVFleet) (ts : Z) :=
  vehicles_at (reserving_at fl) ts.

Definition incoming_vehicles_at (fl : EVFleet) (ts : Z) :=
  vehicles_at (incoming_at fl) ts.

Definition outgoing_vehicles_at (fl : EVFleet) (ts : option Z) :=
  vehicles_at (outgoing_at fl) ts.

(** Every time a row is filed under lies in the simulated horizon. *)
Definition row_in_horizon (sim_horizon : list Z) (i : behavior_row) : Prop :=
  row_reservation_time i ∈ sim_horizon
  ∧ row_real_arrival_time i ∈ sim_horizon
  ∧ ∀ d, row_real_departure_time i = Some d → d ∈ sim_horizon.

End Fleet.


(** The three tables of a fleet have the keys under which a row is filed. *)
Definition filed (fl : EVFleet) (i : behavior_row) : Prop :=
  is_Some (reserving_at fl !! row_reservation_time i)
  ∧ is_Some (incoming_at fl !! row_real_arrival_time i)
  ∧ is_Some (outgoing_at fl !! row_real_departure_time i).

(** Rows that have left by [t], and rows that have arrived by [t] and
    never leave. *)
Definition departed_by (t : Z) (i : behavior_row) : Prop :=
  ∃ d, row_real_departure_time i = Some d ∧ d ≤ t.

#[global] Instance departed_by_dec t i : Decision (departed_by t i).
Proof.
  unfold departed_by. destruct (row_real_departure_time i) as [d|].
  - destruct (decide (d ≤ t)) as [Hd|Hn].
    + left. exists d. split; [reflexivity | exact Hd].
    + right. intros (d' & [= <-] & ?). contradiction.
  - right. intros (d & [=] & _).
Defined.

Definition staying_since (t : Z) (i : behavior_row) : Prop :=
  row_real_arrival_time i ≤ t ∧ row_real_departure_time i = None.

#[global] Instance staying_since_dec t i : Decision (staying_since t i).
Proof. unfold staying_since. apply _. Defined.

(** The table of example rows used for the runs of the fleet. *)
Definition example_row (id : string) (res arr : Z) (dep : option Z)
  : behavior_row := {|
  row_ev_id := id;
  row_battery_capacity := 55;
  row_p_max_ch := 11;
  row_p_max_ds := 11;
  row_reservation_time := res;
  row_estimated_arrival_time := arr;
  row_estimated_departure_time := arr + 2;
  row_estimated_arrival_soc := 1 # 2;
  row_target_soc := 1;
  row_v2g_allowance := 10;
  row_real_arrival_time := arr;
  row_real_arrival_soc := 1 # 2;
  row_real_departure_time := dep;
  row_target_cluster := "cluster1"
|}.

Definition example_rows : list behavior_row :=
  [ example_row "ev1" 0 1 (Some 3);
    example_row "ev2" 0 1 None;
    example_row "ev3" 1 2 (Some 3);
    example_row "ev1" 2 3 (Some 4) ].

Definition no_soc : string → Q → Q → Q → gmap Z Q := λ _ _ _ _, ∅.


(** ** [reschedule] *)

Section Reschedule.

Variable solver : Solver.
Variable opt_step : Q.
Variable opt_horizon : list Z.
Variables upperlimit lowerlimit : gmap Z Q.
Variable tolerance : Q.
Variables bcap inisoc tarsoc minsoc maxsoc : gmap string Q.
Variables ch_eff ds_eff pmax_pos pmax_neg deptime : gmap string Q.
Variables rho_y rho_eps : Q.

(** Index sets. A pyomo [Set] keeps one copy of a repeated element. *)
Definition model_V : list string := (map_to_list bcap).*1.
Definition model_T : list Z := remove_dups (removelast opt_horizon).
Definition model_Tp : list Z := remove_dups opt_horizon.

(** Indexing a pyomo component outside its index set raises [KeyError]. *)
Definition index_VT (mk : string → Z → var) (v : string) (t : Z)
  : result var :=
  if decide (v ∈ model_V ∧ t ∈ model_T) then Ok (mk v t) else Raise KeyError.

Definition index_VTp (mk : string → Z → var) (v : string) (t : Z)
  : result var :=
  if decide (v ∈ model_V ∧ t ∈ model_Tp) then Ok (mk v t) else Raise KeyError.

Definition index_T (mk : Z → var) (t : Z) : result var :=
  if decide (t ∈ model_T) then Ok (mk t) else Raise KeyError.

Definition index_V (mk : string → var) (v : string) : result var :=
  if decide (v ∈ model_V) then Ok (mk v) else Raise KeyError.

(** *** Constraint rules, operand by operand in Python's evaluation order *)

Definition initialsoc (v : string) : result constraint :=
  s0 ← index_VTp s v 0;
  ini ← getitem inisoc v;
  mret (Con (EVar s0) REq (ENum ini)).

Definition minimumsoc (v : string) (t : Z) : result constraint :=
  lo ← getitem minsoc v;
  st ← index_VTp s v t;
  mret (Con (ENum lo) RLe (EVar st)).

Definition maximumsoc (v : string) (t : Z) : result constraint :=
  hi ← getitem maxsoc v;
  st ← index_VTp s v t;
  mret (Con (ENum hi) RGe (EVar st)).

Definition storageConservation (v : string) (t : Z) : result constraint :=
  s1 ← index_VTp s v (t + 1);
  s0 ← index_VTp s v t;
  pc ← index_VT p_ev_pos v t;
  pd ← index_VT p_ev_neg v t;
  E ← getitem bcap v;
  q ← py_div (ESub (EVar pc) (EVar pd)) E;
  mret (Con (EVar s1) REq (EAdd (EVar s0) (EMul q (ENum opt_step)))).

Definition chargepowerlimit (v : string) (t : Z) : result constraint :=
  p ← index_VT p_ev v t;
  pc ← index_VT p_ev_pos v t;
  pd ← index_VT p_ev_neg v t;
  mret (Con (EVar p) REq (ESub (EVar pc) (EVar pd))).

Definition combinatorics_ch (v : string) (t : Z) : result constraint :=
  dep ← getitem deptime v;
  if py_ge t dep then
    pc ← index_VT p_ev_pos v t;
    mret (Con (EVar pc) REq (ENum 0))
  else
    pc ← index_VT p_ev_pos v t;
    x ← index_VT x_ev v t;
    pmax ← getitem pmax_pos v;
    mret (Con (EVar pc) RLe (EMul (EVar x) (ENum pmax))).

Definition combinatorics_ds (v : string) (t : Z) : result constraint :=
  dep ← getitem deptime v;
  if py_ge t dep then
    pd ← index_VT p_ev_neg v t;
    mret (Con (EVar pd) REq (ENum 0))
  else
    pd ← index_VT p_ev_neg v t;
    x ← index_VT x_ev v t;
    pmax ← getitem pmax_neg v;
    mret (Con (EVar pd) RLe (EMul (ESub (ENum 1) (EVar x)) (ENum pmax))).

(** One summand of the cluster aggregation. *)
Definition ccpower_term (t : Z) (v : string) : result expr :=
  pc ← index_VT p_ev_pos v t;
  ec ← getitem ch_eff v;
  q ← py_div (EVar pc) ec;
  pd ← index_VT p_ev_neg v t;
  ed ← getitem ds_eff v;
  mret (ESub q (EMul (EVar pd) (ENum ed))).

Definition ccpower (t : Z) : result constraint :=
  pcc ← index_T p_cc t;
  terms ← mapM (ccpower_term t) model_V;
  mret (Con (EVar pcc) REq (py_sum terms)).

Definition cluster_limit_violation : result constraint :=
  mret (Con (EVar eps) RLe (ENum tolerance)).

Definition cluster_upper_limit (t : Z) : result constraint :=
  pcc ← index_T p_cc t;
  up ← getitem upperlimit t;
  mret (Con (EVar pcc) RLe (EAdd (EVar eps) (ENum up))).

Definition cluster_lower_limit (t : Z) : result constraint :=
  low ← getitem lowerlimit t;
  pcc ← index_T p_cc t;
  mret (Con (EAdd (ENeg (EVar eps)) (ENum low)) RLe (EVar pcc)).

Definition individual_pos_deviation (v : string) : result constraint :=
  tar ← getitem tarsoc v;
  tmax ← py_max opt_horizon;
  sl ← index_VTp s v tmax;
  yv ← index_V y v;
  mret (Con (ESub (ENum tar) (EVar sl)) RLe (EVar yv)).

Definition individual_neg_deviation (v : string) : result constraint :=
  yv ← index_V y v;
  tar ← getitem tarsoc v;
  tmax ← py_max opt_horizon;
  sl ← index_VTp s v tmax;
  mret (Con (ENeg (EVar yv)) RLe (ESub (ENum tar) (EVar sl))).

Definition obj_term (v : string) : result expr :=
  yv ← index_V y v;
  E ← getitem bcap v;
  py_div (EMul (EVar yv) (ENum E)) 3600.

Definition obj_rule : result expr :=
  terms ← mapM obj_term model_V;
  mret (EAdd (EMul (ENum rho_y) (py_sum terms)) (EMul (ENum rho_eps) (EVar eps))).

(** [Constraint(model.V, model.T, rule=...)] calls the rule on every index
    pair at construction time. *)
Definition Constraint_VT (rule : string → Z → result constraint)
  : result (list constraint) :=
  mapM (λ '(v, t), rule v t) (list_prod model_V model_T).

(** *** Constructing the optimisation model *)

Definition build_model : result ConcreteModel :=
  c_ini ← mapM initialsoc model_V;
  c_min ← Constraint_VT minimumsoc;
  c_max ← Constraint_VT maximumsoc;
  c_soc ← Constraint_VT storageConservation;
  c_chr ← Constraint_VT chargepowerlimit;
  c_cb1 ← Constraint_VT combinatorics_ch;
  c_cb2 ← Constraint_VT combinatorics_ds;
  c_tot ← mapM ccpower model_T;
  c_vio ← cluster_limit_violation;
  c_up ← mapM cluster_upper_limit model_T;
  c_low ← mapM cluster_lower_limit model_T;
  c_dpos ← mapM individual_pos_deviation model_V;
  c_dneg ← mapM individual_neg_deviation model_V;
  o ← obj_rule;
  mret {| V := model_V; T := model_T; Tp := model_Tp;
          inisoc_con := c_ini; minsoc_con := c_min; maxsoc_con := c_max;
          socconst := c_soc; chrpowconst := c_chr;
          combconst1 := c_cb1; combconst2 := c_cb2;
          ccpowtotal := c_tot; viol_clust := [c_vio];
          ccpowcap_pos := c_up; ccpowcap_neg := c_low;
          indev_pos := c_dpos; indev_neg := c_dneg;
          obj := o; sense := minimize |}.

(** The constraints a model can carry, each with the rule call that posts
    it. *)
Inductive posted (c : constraint) : Prop :=
  | posted_inisoc v :
      v ∈ model_V → initialsoc v = Ok c → posted c
  | posted_minsoc v t :
      v ∈ model_V → t ∈ model_T → minimumsoc v t = Ok c → posted c
  | posted_maxsoc v t :
      v ∈ model_V → t ∈ model_T → maximumsoc v t = Ok c → posted c
  | posted_socconst v t :
      v ∈ model_V → t ∈ model_T → storageConservation v t = Ok c → posted c
  | posted_chrpowconst v t :
      v ∈ model_V → t ∈ model_T → chargepowerlimit v t = Ok c → posted c
  | posted_combconst1 v t :
      v ∈ model_V → t ∈ model_T → combinatorics_ch v t = Ok c → posted c
  | posted_combconst2 v t :
      v ∈ model_V → t ∈ model_T → combinatorics_ds v t = Ok c → posted c
  | posted_ccpowtotal t :
      t ∈ model_T → ccpower t = Ok c → posted c
  | posted_viol_clust :
      cluster_limit_violation = Ok c → posted c
  | posted_ccpowcap_pos t :
      t ∈ model_T → cluster_upper_limit t = Ok c → posted c
  | posted_ccpowcap_neg t :
      t ∈ model_T → cluster_lower_limit t = Ok c → posted c
  | posted_indev_pos v :
      v ∈ model_V → individual_pos_deviation v = Ok c → posted c
  | posted_indev_neg v :
      v ∈ model_V → individual_neg_deviation v = Ok c → posted c.

(** A dictionary lookup that some rule performs and that has no entry. *)
Inductive missing_entry : Prop :=
  | missing_inisoc v :
      v ∈ model_V → inisoc !! v = None → missing_entry
  | missing_tarsoc v :
      v ∈ model_V → tarsoc !! v = None → missing_entry
  | missing_minsoc v t :
      v ∈ model_V → t ∈ model_T → minsoc !! v = None → missing_entry
  | missing_maxsoc v t :
      v ∈ model_V → t ∈ model_T → maxsoc !! v = None → missing_entry
  | missing_deptime v t :
      v ∈ model_V → t ∈ model_T → deptime !! v = None → missing_entry
  | missing_ch_eff v t :
      v ∈ model_V → t ∈ model_T → ch_eff !! v = None → missing_entry
  | missing_ds_eff v t :
      v ∈ model_V → t ∈ model_T → ds_eff !! v = None → missing_entry
  | missing_pmax_pos v t dep :
      v ∈ model_V → t ∈ model_T →
      deptime !! v = Some dep → py_ge t dep = false →
      pmax_pos !! v = None → missing_entry
  | missing_pmax_neg v t dep :
      v ∈ model_V → t ∈ model_T →
      deptime !! v = Some dep → py_ge t dep = false →
      pmax_neg !! v = None → missing_entry
  | missing_upperlimit t :
      t ∈ model_T → upperlimit !! t = None → missing_entry
  | missing_lowerlimit t :
      t ∈ model_T → lowerlimit !! t = None → missing_entry.

(** *** Saving the results *)

(** Body of the inner loop [for t in opt_horizon]. *)
Definition save_step (a : valuation) (v : string)
    (rows : gmap Z (option Q) * gmap Z (option Q)) (t : Z)
  : result (gmap Z (option Q) * gmap Z (option Q)) :=
  tmax ← py_max opt_horizon;
  p_row ← (if bool_decide (t < tmax) then
             p ← index_VT p_ev v t;
             mret (<[t := a p]> rows.1)
           else mret rows.1);
  st ← index_VTp s v t;
  mret (p_row, <[t := a st]> rows.2).

(** Body of the outer loop [for v in model.V]. *)
Definition save_vehicle (a : valuation) (out : schedule * schedule)
    (v : string) : result (schedule * schedule) :=
  rows ← foldM (save_step a v) (∅, ∅) opt_horizon;
  mret (<[v := rows.1]> out.1, <[v := rows.2]> out.2).

Definition save_results (a : valuation) : result (schedule * schedule) :=
  foldM (save_vehicle a) (∅, ∅) model_V.

(** The solver's result object is bound and never read. *)
Definition reschedule : result (schedule * schedule) :=
  model ← build_model;
  res ← solver model;
  save_results (values res).


(** *** The specification's formulas, for comparison with the model

    Aggregation as the specification words it: the sum over the vehicles of
    charge power divided by the charging efficiency minus discharge power
    multiplied by the discharging efficiency. *)
Definition spec_vehicle_grid_power (a : valuation) (t : Z) (v : string)
  : option Q :=
  pc ← a (p_ev_pos v t); pd ← a (p_ev_neg v t);
  ec ← ch_eff !! v; ed ← ds_eff !! v;
  Some (pc / ec - pd * ed)%Q.

Definition spec_aggregatePower (a : valuation) (t : Z) : option Q :=
  qs ← mapM (spec_vehicle_grid_power a t) model_V;
  Some (foldr Qplus 0%Q qs).

(** The objective as the specification words it: [rho_y] times the sum of
    deviation slack times capacity over 3600, plus [rho_eps] times the
    violation slack. *)
Definition spec_deviation_energy (a : valuation) (v : string) : option Q :=
  yv ← a (y v); E ← bcap !! v; Some (yv * E / 3600)%Q.

Definition spec_objective (a : valuation) : option Q :=
  devs ← mapM (spec_deviation_energy a) model_V;
  e ← a eps;
  Some (rho_y * foldr Qplus 0%Q devs + rho_eps * e)%Q.

(** Energy value of the deviation slacks of the vehicles in [l]: slack
    times capacity over 3600, summed (a missing number counts 0). *)
Definition slack_energy (a : valuation) (l : list string) : Q :=
  foldr (λ v acc, default 0 (a (y v)) * default 0 (bcap !! v) / 3600 + acc)%Q
        0%Q l.


(** Inputs as the script at the end of the source file and the charging
    protocol put them together: the horizon is [range(H + 1)], every
    vehicle of [bcap] has an entry in every other dictionary, both limit
    dictionaries have an entry at every step below [H], and no capacity or
    charging efficiency is zero. *)
Record well_formed_inputs (H : nat) : Prop := {
  wf_horizon : opt_horizon = py_range (Z.of_nat H + 1);
  wf_vehicle : ∀ v, is_Some (bcap !! v) →
    is_Some (inisoc !! v) ∧ is_Some (tarsoc !! v)
    ∧ is_Some (minsoc !! v) ∧ is_Some (maxsoc !! v)
    ∧ is_Some (ch_eff !! v) ∧ is_Some (ds_eff !! v)
    ∧ is_Some (pmax_pos !! v) ∧ is_Some (pmax_neg !! v)
    ∧ is_Some (deptime !! v);
  wf_limits : ∀ t, 0 ≤ t < Z.of_nat H →
    is_Some (upperlimit !! t) ∧ is_Some (lowerlimit !! t);
  wf_capacity : ∀ v E, bcap !! v = Some E → ¬ (E == 0)%Q;
  wf_efficiency : ∀ v c, ch_eff !! v = Some c → ¬ (c == 0)%Q
}.


(** The valuation that leaves every vehicle idle: all powers 0, the SOC
    kept at the initial SOC, the violation slack at the tolerance, each
    deviation slack at the absolute distance of the initial SOC from the
    target. *)
Definition idle_valuation : valuation := λ x,
  match x with
  | s v _ => inisoc !! v
  | eps => Some tolerance
  | y v => tar ← tarsoc !! v; ini ← inisoc !! v; Some (Qabs (tar - ini))
  | p_ev _ _ | p_ev_pos _ _ | p_ev_neg _ _ | x_ev _ _ | p_cc _ => Some 0%Q
  end.

(** Inputs that admit idling: the tolerance is not negative, zero cluster
    power is within tolerance of both limits at every flow step, every
    initial SOC is non-negative and within the SOC bounds, and no maximum
    discharge power is negative. *)
Record idle_admissible : Prop := {
  idle_tolerance : (0 <= tolerance)%Q;
  idle_upper : ∀ t up, t ∈ model_T → upperlimit !! t = Some up →
    (0 <= tolerance + up)%Q;
  idle_lower : ∀ t low, t ∈ model_T → lowerlimit !! t = Some low →
    (low - tolerance <= 0)%Q;
  idle_initial : ∀ v ini, inisoc !! v = Some ini → (0 <= ini)%Q;
  idle_min : ∀ v ini lo, inisoc !! v = Some ini → minsoc !! v = Some lo →
    (lo <= ini)%Q;
  idle_max : ∀ v ini hi, inisoc !! v = Some ini → maxsoc !! v = Some hi →
    (ini <= hi)%Q;
  idle_discharge : ∀ v Pd, pmax_neg !! v = Some Pd → (0 <= Pd)%Q
}.


(** ** Generic facts about the [result] monad *)

Lemma bind_Ok {A B : Type} (r : result A) (f : A → result B) (b : B) :
  r ≫= f = Ok b → ∃ a, r = Ok a ∧ f a = Ok b.
Proof. destruct r as [a|e]; simpl; [eauto | discriminate]. Qed.

Lemma mapM_Ok {A B : Type} (f : A → result B) (l : list A) (k : list B) :
  mapM f l = Ok k → Forall2 (λ x z, f x = Ok z) l k.
Proof.
  revert k. induction l as [|x l IH]; intros k Hk; simpl in Hk.
  - injection Hk as <-. constructor.
  - apply bind_Ok in Hk as (z & Hz & Hk).
    apply bind_Ok in Hk as (k' & Hk' & Hk).
    injection Hk as <-. constructor; auto.
Qed.

Lemma mapM_Ok_elem {A B : Type} (f : A → result B) (l : list A) (k : list B) x :
  mapM f l = Ok k → x ∈ l → ∃ z, f x = Ok z ∧ z ∈ k.
Proof.
  intros Hk Hx. apply mapM_Ok in Hk.
  induction Hk as [|x' z l' k' Hz _ IH]; [by apply elem_of_nil in Hx|].
  apply elem_of_cons in Hx as [->|Hx].
  - exists z. split; [done | left].
  - destruct (IH Hx) as (z' & ? & ?). exists z'. split; [done | by right].
Qed.

Lemma mapM_Ok_source {A B : Type} (f : A → result B) (l : list A) (k : list B) z :
  mapM f l = Ok k → z ∈ k → ∃ x, x ∈ l ∧ f x = Ok z.
Proof.
  intros Hk Hz. apply mapM_Ok in Hk.
  induction Hk as [|x z' l' k' Hx _ IH]; [by apply elem_of_nil in Hz|].
  apply elem_of_cons in Hz as [->|Hz].
  - exists x. split; [left | done].
  - destruct (IH Hz) as (x' & ? & ?). exists x'. split; [by right | done].
Qed.

Lemma mapM_Raise_elem {A B : Type} (f : A → result B) (l : list A) x e :
  x ∈ l → f x = Raise e → ∃ e', mapM f l = Raise e'.
Proof.
  intros Hx Hf. destruct (mapM f l) as [k|e'] eqn:Hk; [|eauto].
  destruct (mapM_Ok_elem _ _ _ _ Hk Hx) as (z & Hz & _). congruence.
Qed.

Lemma mapM_Raise {A B : Type} (f : A → result B) (l : list A) e :
  mapM f l = Raise e → ∃ x, x ∈ l ∧ f x = Raise e.
Proof.
  induction l as [|x l IH]; simpl; [discriminate|].
  destruct (f x) as [z|e'] eqn:Hx; simpl.
  - destruct (mapM f l) as [k|e'] eqn:Hl; simpl; [discriminate|].
    intros [= ->]. destruct IH as (x' & ? & ?); [done|].
    exists x'. split; [by right | done].
  - intros [= ->]. exists x. split; [left | done].
Qed.

Lemma py_max_Ok (l : list Z) (m : Z) :
  py_max l = Ok m → m ∈ l ∧ ∀ x, x ∈ l → x ≤ m.
Proof.
  destruct l as [|x l]; [discriminate|]. simpl. intros [= <-].
  induction l as [|z l [IHin IHle]]; simpl.
  - split; [left|]. intros z ->%list_elem_of_singleton. lia.
  - split.
    + destruct (Z.max_spec z (foldr Z.max x l)) as [[_ ->]|[_ ->]].
      * apply elem_of_cons in IHin as [->|?]; [left | do 2 right]; done.
      * right; left.
    + intros w Hw. assert (w = z ∨ w ∈ x :: l) as [->|Hw'].
      { apply elem_of_cons in Hw as [->|Hw]; [right; left|].
        apply elem_of_cons in Hw as [->|Hw]; [by left | right; by right]. }
      * lia.
      * specialize (IHle _ Hw'). lia.
Qed.

Lemma elem_of_removelast {A : Type} (l : list A) (x : A) :
  x ∈ removelast l → x ∈ l.
Proof.
  induction l as [|z l IH]; simpl; [done|].
  destruct l as [|z' l]; [by intros ?%elem_of_nil|].
  intros [->|?]%elem_of_cons; [left | right; auto].
Qed.

Lemma Qeq_bool_false (a b : Q) : Qeq_bool a b = false → ¬ (a == b)%Q.
Proof. intros H Hab. apply Qeq_bool_iff in Hab. congruence. Qed.

(** Evaluating a Python [sum] adds up the values of the summands. *)
Lemma eval_py_sum_from (a : valuation) (es : list expr) (e0 : expr) (q0 : Q)
    (qs : list Q) :
  eval a e0 = Some q0 →
  Forall2 (λ e q, eval a e = Some q) es qs →
  eval a (fold_left EAdd es e0) = Some (fold_left Qplus qs q0).
Proof.
  intros H0 Hes. revert e0 q0 H0.
  induction Hes as [|e q es qs He _ IH]; intros e0 q0 H0; simpl; [done|].
  apply IH. simpl. by rewrite H0, He.
Qed.

(** Inverting one monadic step of a rule. *)
Ltac step_rule H :=
  match type of H with
  | (_ ≫= _) = Ok _ =>
      let x := fresh "x" in let Hx := fresh "Hx" in
      apply bind_Ok in H as (x & Hx & H)
  | (if ?b then _ else _) = Ok _ => destruct b eqn:?
  | mret _ = Ok _ => injection H as H
  | Ok _ = Ok _ => injection H as H
  end.


Lemma eval_py_sum_inv (a : valuation) (es : list expr) (e0 : expr) (tot : Q) :
  eval a (fold_left EAdd es e0) = Some tot →
  ∃ q0 qs, eval a e0 = Some q0
    ∧ Forall2 (λ e q, eval a e = Some q) es qs
    ∧ tot = fold_left Qplus qs q0.
Proof.
  revert e0. induction es as [|e es IH]; intros e0 H; simpl in H.
  - exists tot, []. split; [done|]. split; [constructor | done].
  - destruct (IH _ H) as (q1 & qs & H1 & Hqs & ->). simpl in H1.
    destruct (eval a e0) as [q0|] eqn:H0; [|discriminate]. simpl in H1.
    destruct (eval a e) as [q|] eqn:He; [|discriminate]. simpl in H1.
    injection H1 as <-. exists q0, (q :: qs).
    split; [done|]. split; [by constructor | done].
Qed.

Lemma Forall2_chain {A B C : Type} (R1 : A → B → Prop) (R2 : B → C → Prop)
    (R : A → C → Prop) (l1 : list A) (l2 : list B) (l3 : list C) :
  (∀ x z w, R1 x z → R2 z w → R x w) →
  Forall2 R1 l1 l2 → Forall2 R2 l2 l3 → Forall2 R l1 l3.
Proof.
  intros HR H12. revert l3.
  induction H12; intros l3 H23; inversion H23; subst; constructor; eauto.
Qed.

Lemma foldM_total {A B : Type} (f : B → A → result B) (l : list A) :
  (∀ b x, x ∈ l → ∃ b', f b x = Ok b') → ∀ b, ∃ b', foldM f b l = Ok b'.
Proof.
  induction l as [|x l IH]; intros Hf b; simpl; [eauto|].
  destruct (Hf b x) as [b1 ->]; [left|]. simpl.
  apply IH. intros b2 z Hz. apply Hf. by right.
Qed.

Lemma elem_of_removelast_or {A : Type} (l : list A) (x d : A) :
  x ∈ l → x ∈ removelast l ∨ x = List.last l d.
Proof.
  intros Hx. destruct l as [|z l]; [by apply elem_of_nil in Hx|].
  rewrite (app_removelast_last d (l := z :: l)) in Hx at 1 by done.
  apply elem_of_app in Hx as [?|Hx]; [by left|].
  right. by apply list_elem_of_singleton in Hx.
Qed.

Lemma fold_left_Qplus (qs : list Q) (q0 : Q) :
  (fold_left Qplus qs q0 == q0 + foldr Qplus 0 qs)%Q.
Proof.
  revert q0. induction qs as [|q qs IH]; intros q0; simpl; [lra|].
  rewrite IH. lra.
Qed.

(** ** Index sets *)

Lemma elem_of_model_V (v : string) : v ∈ model_V ↔ is_Some (bcap !! v).
Proof.
  unfold model_V. rewrite list_elem_of_fmap. split.
  - intros ([v' q] & -> & Hq). apply elem_of_map_to_list in Hq. eauto.
  - intros [q Hq]. exists (v, q). split; [done|]. by apply elem_of_map_to_list.
Qed.

Lemma model_T_horizon (t : Z) : t ∈ model_T → t ∈ opt_horizon.
Proof.
  unfold model_T. rewrite elem_of_remove_dups. apply elem_of_removelast.
Qed.

Lemma model_T_Tp (t : Z) : t ∈ model_T → t ∈ model_Tp.
Proof.
  intros Ht. unfold model_Tp. rewrite elem_of_remove_dups.
  by apply model_T_horizon.
Qed.

Lemma index_VT_Ok mk v t x :
  index_VT mk v t = Ok x → x = mk v t ∧ v ∈ model_V ∧ t ∈ model_T.
Proof. unfold index_VT. case_decide; [|discriminate]. intros [= <-]. tauto. Qed.

Lemma index_VTp_Ok mk v t x :
  index_VTp mk v t = Ok x → x = mk v t ∧ v ∈ model_V ∧ t ∈ opt_horizon.
Proof.
  unfold index_VTp, model_Tp. case_decide as H; [|discriminate].
  rewrite elem_of_remove_dups in H. intros [= <-]. tauto.
Qed.

Lemma index_T_Ok mk t x : index_T mk t = Ok x → x = mk t ∧ t ∈ model_T.
Proof. unfold index_T. case_decide; [|discriminate]. intros [= <-]. tauto. Qed.

Lemma index_V_Ok mk v x : index_V mk v = Ok x → x = mk v ∧ v ∈ model_V.
Proof. unfold index_V. case_decide; [|discriminate]. intros [= <-]. tauto. Qed.

Lemma getitem_Ok `{Countable K} (d : gmap K Q) (k : K) (q : Q) :
  getitem d k = Ok q → d !! k = Some q.
Proof. unfold getitem. destruct (d !! k); [|discriminate]. by intros [= ->]. Qed.

Lemma getitem_None `{Countable K} (d : gmap K Q) (k : K) :
  d !! k = None → getitem d k = Raise KeyError.
Proof. unfold getitem. by intros ->. Qed.

Lemma py_div_Ok (e : expr) (c : Q) (e' : expr) :
  py_div e c = Ok e' → e' = EDiv e (ENum c) ∧ Qeq_bool c 0 = false.
Proof.
  unfold py_div. destruct (Qeq_bool c 0); [discriminate|].
  intros [= <-]. tauto.
Qed.

(** Inverting a whole rule: peel the binds, then each primitive. *)
Ltac invert_rule H :=
  repeat step_rule H;
  repeat match goal with
  | Hx : index_VT _ _ _ = Ok _ |- _ => apply index_VT_Ok in Hx as (-> & ? & ?)
  | Hx : index_VTp _ _ _ = Ok _ |- _ => apply index_VTp_Ok in Hx as (-> & ? & ?)
  | Hx : index_T _ _ = Ok _ |- _ => apply index_T_Ok in Hx as (-> & ?)
  | Hx : index_V _ _ = Ok _ |- _ => apply index_V_Ok in Hx as (-> & ?)
  | Hx : getitem _ _ = Ok _ |- _ => apply getitem_Ok in Hx
  | Hx : py_div _ _ = Ok _ |- _ => apply py_div_Ok in Hx as (-> & ?)
  end.

Lemma Constraint_VT_elem rule cs v t :
  Constraint_VT rule = Ok cs → v ∈ model_V → t ∈ model_T →
  ∃ c, rule v t = Ok c ∧ c ∈ cs.
Proof.
  intros Hcs Hv Ht. unfold Constraint_VT in Hcs.
  eapply (mapM_Ok_elem _ _ _ (v, t)) in Hcs; [done|].
  apply list_elem_of_In, in_prod; by apply list_elem_of_In.
Qed.

Lemma Constraint_VT_source rule cs c :
  Constraint_VT rule = Ok cs → c ∈ cs →
  ∃ v t, v ∈ model_V ∧ t ∈ model_T ∧ rule v t = Ok c.
Proof.
  intros Hcs Hc. unfold Constraint_VT in Hcs.
  destruct (mapM_Ok_source _ _ _ _ Hcs Hc) as ([v t] & Hvt & Hr).
  apply list_elem_of_In, in_prod_iff in Hvt as [Hv Ht].
  exists v, t. by rewrite <- !list_elem_of_In in *.
Qed.

(** ** What a successfully built model contains *)

Lemma build_model_Ok (m : ConcreteModel) :
  build_model = Ok m →
  V m = model_V ∧ T m = model_T ∧ Tp m = model_Tp
  ∧ mapM initialsoc model_V = Ok (inisoc_con m)
  ∧ Constraint_VT minimumsoc = Ok (minsoc_con m)
  ∧ Constraint_VT maximumsoc = Ok (maxsoc_con m)
  ∧ Constraint_VT storageConservation = Ok (socconst m)
  ∧ Constraint_VT chargepowerlimit = Ok (chrpowconst m)
  ∧ Constraint_VT combinatorics_ch = Ok (combconst1 m)
  ∧ Constraint_VT combinatorics_ds = Ok (combconst2 m)
  ∧ mapM ccpower model_T = Ok (ccpowtotal m)
  ∧ viol_clust m = [Con (EVar eps) RLe (ENum tolerance)]
  ∧ mapM cluster_upper_limit model_T = Ok (ccpowcap_pos m)
  ∧ mapM cluster_lower_limit model_T = Ok (ccpowcap_neg m)
  ∧ mapM individual_pos_deviation model_V = Ok (indev_pos m)
  ∧ mapM individual_neg_deviation model_V = Ok (indev_neg m)
  ∧ obj_rule = Ok (obj m)
  ∧ sense m = minimize.
Proof.
  intros H. unfold build_model in H. repeat step_rule H. subst m. simpl.
  unfold cluster_limit_violation in *.
  repeat match goal with Hx : mret _ = Ok _ |- _ => injection Hx as <- end.
  repeat split; done.
Qed.

Lemma feasible_holds (m : ConcreteModel) (a : valuation) (c : constraint) :
  feasible m a = true → c ∈ constraints m → holds a c = true.
Proof.
  unfold feasible. intros [Hc _]%andb_prop Hin.
  rewrite forallb_forall in Hc. by apply Hc, list_elem_of_In.
Qed.

Lemma feasible_domain (m : ConcreteModel) (a : valuation) (x : var) (q : Q) :
  feasible m a = true → x ∈ declared_vars m → a x = Some q →
  in_domain (within x) q = true.
Proof.
  unfold feasible. intros [_ Hd]%andb_prop Hin Hx.
  rewrite forallb_forall in Hd. apply list_elem_of_In, Hd in Hin.
  by rewrite Hx in Hin.
Qed.

(** Put a constraint family in scope as a sublist of [constraints]. *)
Ltac in_constraints :=
  unfold constraints; rewrite ?elem_of_app; tauto.


(** ** Saving the results *)

Lemma save_step_Ok a v rows0 t r :
  save_step a v rows0 t = Ok r →
  ∃ tmax, py_max opt_horizon = Ok tmax
    ∧ r.2 = <[t := a (s v t)]> rows0.2
    ∧ r.1 = if bool_decide (t < tmax) then <[t := a (p_ev v t)]> rows0.1
            else rows0.1.
Proof.
  intros H. unfold save_step in H.
  apply bind_Ok in H as (tmax & Hmax & H). exists tmax. split; [done|].
  apply bind_Ok in H as (prow & Hp & H).
  apply bind_Ok in H as (st & Hs & H).
  apply index_VTp_Ok in Hs as (-> & _ & _). injection H as <-. simpl.
  split; [done|]. case_bool_decide.
  - apply bind_Ok in Hp as (x & Hx & Hp).
    apply index_VT_Ok in Hx as (-> & _ & _). by injection Hp as <-.
  - by injection Hp as <-.
Qed.

Lemma save_steps_rows a v rows0 l rows :
  foldM (save_step a v) rows0 l = Ok rows →
  ∀ t, (t ∈ l ∧ rows.2 !! t = Some (a (s v t))
        ∧ ∀ tmax, py_max opt_horizon = Ok tmax →
            if bool_decide (t < tmax) then rows.1 !! t = Some (a (p_ev v t))
            else rows.1 !! t = rows0.1 !! t)
       ∨ ((t ∉ l) ∧ rows.1 !! t = rows0.1 !! t ∧ rows.2 !! t = rows0.2 !! t).
Proof.
  revert rows0. induction l as [|x l IH]; intros rows0 H t; simpl in H.
  - injection H as <-. right. split; [apply not_elem_of_nil | done].
  - apply bind_Ok in H as (r1 & Hstep & H).
    apply save_step_Ok in Hstep as (tmax & Hmax & H2 & H1).
    destruct (IH _ H t) as [(Hin & Hs & Hp)|(Hnin & Hp & Hs)].
    + left. split; [by right|]. split; [done|].
      intros tmax' Hmax'. specialize (Hp _ Hmax').
      assert (tmax' = tmax) as -> by congruence.
      case_bool_decide as Hlt; [done|]. rewrite Hp, H1.
      case_bool_decide as Hx; [|done].
      rewrite lookup_insert_ne; [done|]. intros ->. done.
    + destruct (decide (t = x)) as [->|Hne].
      * left. split; [left|]. rewrite Hs, H2, lookup_insert_eq.
        split; [done|]. intros tmax' Hmax'.
        assert (tmax' = tmax) as -> by congruence.
        rewrite Hp, H1. case_bool_decide; [|done]. by rewrite lookup_insert_eq.
      * right. split; [by intros [?|?]%elem_of_cons|].
        rewrite Hp, Hs, H1, H2. rewrite lookup_insert_ne by done.
        split; [|done]. case_bool_decide; [|done].
        by rewrite lookup_insert_ne.
Qed.

Lemma save_vehicles_rows a out0 l out :
  foldM (save_vehicle a) out0 l = Ok out →
  ∀ v, (v ∈ l ∧ ∃ rows, foldM (save_step a v) (∅, ∅) opt_horizon = Ok rows
               ∧ out.1 !! v = Some rows.1 ∧ out.2 !! v = Some rows.2)
       ∨ ((v ∉ l) ∧ out.1 !! v = out0.1 !! v ∧ out.2 !! v = out0.2 !! v).
Proof.
  revert out0. induction l as [|x l IH]; intros out0 H v; simpl in H.
  - injection H as <-. right. split; [apply not_elem_of_nil | done].
  - apply bind_Ok in H as (o1 & Hveh & H).
    unfold save_vehicle in Hveh.
    apply bind_Ok in Hveh as (rows & Hrows & Hveh). injection Hveh as <-.
    destruct (IH _ H v) as [(Hin & Hr)|(Hnin & Hp & Hs)].
    + left. split; [by right | done].
    + simpl in Hp, Hs. destruct (decide (v = x)) as [->|Hne].
      * left. split; [left|]. exists rows.
        rewrite Hp, Hs, !lookup_insert_eq. done.
      * right. split; [by intros [?|?]%elem_of_cons|].
        rewrite Hp, Hs, !lookup_insert_ne; done.
Qed.

Lemma reschedule_Ok (out : schedule * schedule) :
  reschedule = Ok out →
  ∃ m res, build_model = Ok m ∧ solver m = Ok res
    ∧ save_results (values res) = Ok out.
Proof.
  unfold reschedule. intros H.
  apply bind_Ok in H as (m & Hm & H). apply bind_Ok in H as (res & Hres & H).
  eauto.
Qed.

(** What the two returned dictionaries hold for a vehicle of the model. *)
Lemma save_results_entries a p_schedule s_schedule v t :
  save_results a = Ok (p_schedule, s_schedule) →
  v ∈ model_V → t ∈ opt_horizon →
  entry s_schedule v t = Some (a (s v t))
  ∧ ∀ tmax, py_max opt_horizon = Ok tmax →
      entry p_schedule v t
      = if bool_decide (t < tmax) then Some (a (p_ev v t)) else None.
Proof.
  intros H Hv Ht. unfold save_results in H.
  destruct (save_vehicles_rows _ _ _ _ H v) as [(_ & rows & Hrows & Hp & Hs)|(? & _)];
    [|done].
  simpl in Hp, Hs. unfold entry. rewrite Hp, Hs. simpl.
  destruct (save_steps_rows _ _ _ _ _ Hrows t) as [(_ & Hst & Hpt)|(? & _)];
    [|done].
  split; [done|]. intros tmax Hmax. specialize (Hpt _ Hmax).
  case_bool_decide; [done|]. simpl in Hpt. by rewrite Hpt, lookup_empty.
Qed.


Lemma py_max_nonempty (l : list Z) (x : Z) : x ∈ l → ∃ m, py_max l = Ok m.
Proof. destruct l; [by intros ?%elem_of_nil | simpl; eauto]. Qed.

(** Reading [holds] on a concrete constraint: every variable in it has a
    value, and the relation is the one of [Q]. *)
Ltac holds_inv a H :=
  unfold holds in H; simpl in H;
  repeat match type of H with
  | context [Qeq_bool ?c 0] =>
      match goal with Hc : Qeq_bool c 0 = false |- _ => rewrite Hc in H end
  | context [a ?x] =>
      let Hx := fresh "Hval" in
      destruct (a x) as [?|] eqn:Hx; simpl in H; [|discriminate H]
  end;
  first [ apply Qeq_bool_iff in H | apply Qle_bool_iff in H ].

(** ** Constraint families on a feasible valuation *)

Section Feasible.

Variable m : ConcreteModel.
Variable a : valuation.
Hypothesis Hbuild : build_model = Ok m.
Hypothesis Hfeas : feasible m a = true.

(** storageConservation *)
Lemma feasible_socconst v t :
  v ∈ model_V → t ∈ model_T →
  ∃ E pc pd s0 s1 : Q,
    bcap !! v = Some E ∧ ¬ (E == 0)%Q ∧ (t + 1) ∈ opt_horizon
    ∧ a (p_ev_pos v t) = Some pc ∧ a (p_ev_neg v t) = Some pd
    ∧ a (s v t) = Some s0 ∧ a (s v (t + 1)) = Some s1
    ∧ (s1 == s0 + (pc - pd) / E * opt_step)%Q.
Proof.
  intros Hv Ht. pose proof (build_model_Ok _ Hbuild) as Hm.
  destruct (Constraint_VT_elem storageConservation (socconst m) v t)
    as (c & Hc & Hin); [tauto|done|done|].
  assert (holds a c = true) as Hh by (apply (feasible_holds m); [done | in_constraints]).
  unfold storageConservation in Hc. invert_rule Hc. subst c.
  holds_inv a Hh.
  eexists _, _, _, _, _. repeat split; try eassumption.
  by apply Qeq_bool_false.
Qed.

(** chargepowerlimit *)
Lemma feasible_chrpowconst v t :
  v ∈ model_V → t ∈ model_T →
  ∃ p pc pd : Q,
    a (p_ev v t) = Some p ∧ a (p_ev_pos v t) = Some pc
    ∧ a (p_ev_neg v t) = Some pd ∧ (p == pc - pd)%Q.
Proof.
  intros Hv Ht. pose proof (build_model_Ok _ Hbuild) as Hm.
  destruct (Constraint_VT_elem chargepowerlimit (chrpowconst m) v t)
    as (c & Hc & Hin); [tauto|done|done|].
  assert (holds a c = true) as Hh by (apply (feasible_holds m); [done | in_constraints]).
  unfold chargepowerlimit in Hc. invert_rule Hc. subst c.
  holds_inv a Hh.
  eexists _, _, _. repeat split; eassumption.
Qed.


(** Membership in [declared_vars]. *)
Lemma declared_VT (mk : string → Z → var) v t :
  v ∈ model_V → t ∈ model_T →
  mk v t ∈ map (λ '(v, t), mk v t) (list_prod (V m) (T m)).
Proof.
  intros Hv Ht. pose proof (build_model_Ok _ Hbuild) as (-> & -> & _).
  apply list_elem_of_fmap. exists (v, t). split; [done|].
  apply list_elem_of_In, in_prod; by apply list_elem_of_In.
Qed.

Lemma declared_s v t :
  v ∈ model_V → t ∈ opt_horizon → s v t ∈ declared_vars m.
Proof.
  intros Hv Ht. unfold declared_vars. rewrite !elem_of_app.
  do 4 right. left.
  pose proof (build_model_Ok _ Hbuild) as (-> & _ & -> & _).
  apply list_elem_of_fmap. exists (v, t). split; [done|].
  apply list_elem_of_In, in_prod; apply list_elem_of_In; [done|].
  unfold model_Tp. by rewrite elem_of_remove_dups.
Qed.

Lemma declared_x_ev v t :
  v ∈ model_V → t ∈ model_T → x_ev v t ∈ declared_vars m.
Proof.
  intros Hv Ht. unfold declared_vars. rewrite !elem_of_app.
  do 3 right. left. by apply (declared_VT x_ev).
Qed.

Lemma declared_p_ev_pos v t :
  v ∈ model_V → t ∈ model_T → p_ev_pos v t ∈ declared_vars m.
Proof.
  intros Hv Ht. unfold declared_vars. rewrite !elem_of_app.
  right. left. by apply (declared_VT p_ev_pos).
Qed.

Lemma declared_p_ev_neg v t :
  v ∈ model_V → t ∈ model_T → p_ev_neg v t ∈ declared_vars m.
Proof.
  intros Hv Ht. unfold declared_vars. rewrite !elem_of_app.
  do 2 right. left. by apply (declared_VT p_ev_neg).
Qed.

Lemma declared_eps : eps ∈ declared_vars m.
Proof.
  unfold declared_vars. rewrite !elem_of_app. do 6 right. left. left.
Qed.

Lemma declared_y v : v ∈ model_V → y v ∈ declared_vars m.
Proof.
  intros Hv. unfold declared_vars. rewrite !elem_of_app. do 7 right.
  pose proof (build_model_Ok _ Hbuild) as (-> & _).
  apply list_elem_of_fmap. eauto.
Qed.

Lemma nonneg_domain (x : var) (q : Q) :
  within x = NonNegativeReals → x ∈ declared_vars m → a x = Some q →
  (0 <= q)%Q.
Proof.
  intros Hw Hin Hx. pose proof (feasible_domain m a x q Hfeas Hin Hx) as Hd.
  rewrite Hw in Hd. by apply Qle_bool_iff.
Qed.

Lemma binary_domain v t (q : Q) :
  v ∈ model_V → t ∈ model_T → a (x_ev v t) = Some q →
  (q == 0)%Q ∨ (q == 1)%Q.
Proof.
  intros Hv Ht Hx.
  pose proof (feasible_domain m a _ q Hfeas (declared_x_ev v t Hv Ht) Hx) as Hd.
  simpl in Hd. apply orb_prop in Hd as [Hd|Hd]; apply Qeq_bool_iff in Hd; auto.
Qed.

(** initialsoc *)
Lemma feasible_inisoc v :
  v ∈ model_V →
  ∃ ini s0 : Q, inisoc !! v = Some ini ∧ 0 ∈ opt_horizon
    ∧ a (s v 0) = Some s0 ∧ (s0 == ini)%Q.
Proof.
  intros Hv. pose proof (build_model_Ok _ Hbuild) as Hm.
  destruct (mapM_Ok_elem initialsoc model_V (inisoc_con m) v)
    as (c & Hc & Hin); [tauto|done|].
  assert (holds a c = true) as Hh by (apply (feasible_holds m); [done | in_constraints]).
  unfold initialsoc in Hc. invert_rule Hc. subst c.
  holds_inv a Hh. eauto 10.
Qed.

(** minimumsoc and maximumsoc *)
Lemma feasible_soc_bounds v t :
  v ∈ model_V → t ∈ model_T →
  ∃ lo hi q : Q, minsoc !! v = Some lo ∧ maxsoc !! v = Some hi
    ∧ a (s v t) = Some q ∧ (lo <= q)%Q ∧ (q <= hi)%Q.
Proof.
  intros Hv Ht. pose proof (build_model_Ok _ Hbuild) as Hm.
  destruct (Constraint_VT_elem minimumsoc (minsoc_con m) v t)
    as (c1 & Hc1 & Hin1); [tauto|done|done|].
  destruct (Constraint_VT_elem maximumsoc (maxsoc_con m) v t)
    as (c2 & Hc2 & Hin2); [tauto|done|done|].
  assert (holds a c1 = true) as Hh1 by (apply (feasible_holds m); [done | in_constraints]).
  assert (holds a c2 = true) as Hh2 by (apply (feasible_holds m); [done | in_constraints]).
  unfold minimumsoc in Hc1. unfold maximumsoc in Hc2.
  invert_rule Hc1. invert_rule Hc2. subst c1 c2.
  holds_inv a Hh1. unfold holds in Hh2. simpl in Hh2. rewrite Hval in Hh2.
  apply Qle_bool_iff in Hh2. eauto 10.
Qed.

(** combinatorics_ch and combinatorics_ds *)
Lemma feasible_combconst v t :
  v ∈ model_V → t ∈ model_T →
  ∃ dep pc pd : Q,
    deptime !! v = Some dep
    ∧ a (p_ev_pos v t) = Some pc ∧ a (p_ev_neg v t) = Some pd
    ∧ if py_ge t dep then (pc == 0)%Q ∧ (pd == 0)%Q
      else ∃ x Pc Pd : Q,
        a (x_ev v t) = Some x
        ∧ pmax_pos !! v = Some Pc ∧ pmax_neg !! v = Some Pd
        ∧ (pc <= x * Pc)%Q ∧ (pd <= (1 - x) * Pd)%Q.
Proof.
  intros Hv Ht. pose proof (build_model_Ok _ Hbuild) as Hm.
  destruct (Constraint_VT_elem combinatorics_ch (combconst1 m) v t)
    as (c1 & Hc1 & Hin1); [tauto|done|done|].
  destruct (Constraint_VT_elem combinatorics_ds (combconst2 m) v t)
    as (c2 & Hc2 & Hin2); [tauto|done|done|].
  assert (holds a c1 = true) as Hh1 by (apply (feasible_holds m); [done | in_constraints]).
  assert (holds a c2 = true) as Hh2 by (apply (feasible_holds m); [done | in_constraints]).
  unfold combinatorics_ch in Hc1. unfold combinatorics_ds in Hc2.
  apply bind_Ok in Hc1 as (dep & Hdep & Hc1).
  apply bind_Ok in Hc2 as (dep' & Hdep' & Hc2).
  apply getitem_Ok in Hdep. apply getitem_Ok in Hdep'.
  assert (dep' = dep) as -> by congruence.
  exists dep. destruct (py_ge t dep) eqn:Hge.
  - invert_rule Hc1. invert_rule Hc2. subst c1 c2.
    holds_inv a Hh1. holds_inv a Hh2. eauto 10.
  - invert_rule Hc1. invert_rule Hc2. subst c1 c2.
    holds_inv a Hh1. unfold holds in Hh2. simpl in Hh2.
    rewrite Hval0 in Hh2.
    destruct (a (p_ev_neg v t)) as [pd|] eqn:Hpd; [|discriminate].
    simpl in Hh2. apply Qle_bool_iff in Hh2.
    eexists _, _. repeat split; try eassumption; try reflexivity.
    eexists _, _, _. repeat split; eassumption.
Qed.


(** ccpower *)
Lemma ccpower_term_eval t v e q :
  ccpower_term t v = Ok e → eval a e = Some q →
  spec_vehicle_grid_power a t v = Some q
  ∧ ∃ ec : Q, ch_eff !! v = Some ec ∧ ¬ (ec == 0)%Q.
Proof.
  intros He Hq. unfold ccpower_term in He. invert_rule He. subst e.
  simpl in Hq. unfold spec_vehicle_grid_power.
  destruct (a (p_ev_pos v t)) as [pc|]; [|discriminate]. simpl in Hq |- *.
  match goal with
  | Hc : Qeq_bool ?c 0 = false, Hl : ch_eff !! v = Some ?c |- _ =>
      rewrite Hc in Hq; pose proof (Qeq_bool_false _ _ Hc) as Hnz
  end.
  destruct (a (p_ev_neg v t)) as [pd|]; [|discriminate]. simpl in Hq |- *.
  repeat match goal with Hl : _ !! v = Some _ |- _ => rewrite Hl; clear Hl end.
  simpl. eauto.
Qed.

Lemma feasible_ccpowtotal t :
  t ∈ model_T →
  ∃ P A : Q, a (p_cc t) = Some P ∧ spec_aggregatePower a t = Some A
    ∧ (P == A)%Q
    ∧ ∀ v, v ∈ model_V → ∃ ec : Q, ch_eff !! v = Some ec ∧ ¬ (ec == 0)%Q.
Proof.
  intros Ht. pose proof (build_model_Ok _ Hbuild) as Hm.
  destruct (mapM_Ok_elem ccpower model_T (ccpowtotal m) t)
    as (c & Hc & Hin); [tauto|done|].
  assert (holds a c = true) as Hh by (apply (feasible_holds m); [done | in_constraints]).
  unfold ccpower in Hc. apply bind_Ok in Hc as (pcc & Hpcc & Hc).
  apply index_T_Ok in Hpcc as (-> & _).
  apply bind_Ok in Hc as (terms & Hterms & Hc). injection Hc as <-.
  unfold holds in Hh. simpl in Hh.
  destruct (a (p_cc t)) as [P|] eqn:HP; [|discriminate].
  destruct (eval a (py_sum terms)) as [tot|] eqn:HS; [|discriminate].
  apply Qeq_bool_iff in Hh.
  apply eval_py_sum_inv in HS as (q0 & qs & H0 & Hqs & ->).
  injection H0 as <-. apply mapM_Ok in Hterms.
  assert (Forall2 (λ v q, spec_vehicle_grid_power a t v = Some q
                          ∧ ∃ ec : Q, ch_eff !! v = Some ec ∧ ¬ (ec == 0)%Q)
            model_V qs) as Hspec.
  { refine (Forall2_chain _ _ _ _ _ _ _ Hterms Hqs).
    intros v e q Hv Hq. by eapply ccpower_term_eval. }
  exists P, (foldr Qplus 0%Q qs). split; [done|]. split; [|split].
  - unfold spec_aggregatePower.
    rewrite (mapM_Some_2 (spec_vehicle_grid_power a t) model_V qs); [done|].
    eapply Forall2_impl; [exact Hspec|]. by intros ?? [? _].
  - rewrite Hh, fold_left_Qplus. lra.
  - intros v Hv. apply list_elem_of_lookup in Hv as [i Hi].
    destruct (Forall2_lookup_l _ _ _ _ _ Hspec Hi) as (q & _ & _ & Hec). done.
Qed.

(** cluster_limit_violation, cluster_upper_limit, cluster_lower_limit *)
Lemma feasible_viol_clust :
  ∃ e : Q, a eps = Some e ∧ (0 <= e)%Q ∧ (e <= tolerance)%Q.
Proof.
  pose proof (build_model_Ok _ Hbuild) as Hm.
  assert (holds a (Con (EVar eps) RLe (ENum tolerance)) = true) as Hh.
  { apply (feasible_holds m); [done|].
    assert (viol_clust m = [Con (EVar eps) RLe (ENum tolerance)]) as Hv by tauto.
    unfold constraints. rewrite Hv, !elem_of_app.
    do 8 right. left. left. }
  holds_inv a Hh. eexists. split; [done|]. split; [|done].
  by eapply nonneg_domain; [| apply declared_eps |].
Qed.

Lemma feasible_cluster_limits t (e : Q) :
  a eps = Some e → t ∈ model_T →
  ∃ P up low : Q,
    a (p_cc t) = Some P
    ∧ upperlimit !! t = Some up ∧ lowerlimit !! t = Some low
    ∧ (P <= e + up)%Q ∧ (low - e <= P)%Q.
Proof.
  intros He Ht. pose proof (build_model_Ok _ Hbuild) as Hm.
  destruct (mapM_Ok_elem cluster_upper_limit model_T (ccpowcap_pos m) t)
    as (c1 & Hc1 & Hin1); [tauto|done|].
  destruct (mapM_Ok_elem cluster_lower_limit model_T (ccpowcap_neg m) t)
    as (c2 & Hc2 & Hin2); [tauto|done|].
  assert (holds a c1 = true) as Hh1 by (apply (feasible_holds m); [done | in_constraints]).
  assert (holds a c2 = true) as Hh2 by (apply (feasible_holds m); [done | in_constraints]).
  unfold cluster_upper_limit in Hc1. unfold cluster_lower_limit in Hc2.
  invert_rule Hc1. invert_rule Hc2. subst c1 c2.
  unfold holds in Hh1, Hh2. simpl in Hh1, Hh2. rewrite He in Hh1, Hh2.
  destruct (a (p_cc t)) as [P|]; [|discriminate]. simpl in Hh1, Hh2.
  apply Qle_bool_iff in Hh1. apply Qle_bool_iff in Hh2.
  eexists _, _, _. repeat split; try eassumption. lra.
Qed.

(** individual_pos_deviation and individual_neg_deviation *)
Lemma feasible_deviation v :
  v ∈ model_V →
  ∃ (tmax : Z) (tar sl yv : Q),
    py_max opt_horizon = Ok tmax ∧ tarsoc !! v = Some tar
    ∧ a (s v tmax) = Some sl ∧ a (y v) = Some yv
    ∧ (tar - sl <= yv)%Q ∧ (- yv <= tar - sl)%Q.
Proof.
  intros Hv. pose proof (build_model_Ok _ Hbuild) as Hm.
  destruct (mapM_Ok_elem individual_pos_deviation model_V (indev_pos m) v)
    as (c1 & Hc1 & Hin1); [tauto|done|].
  destruct (mapM_Ok_elem individual_neg_deviation model_V (indev_neg m) v)
    as (c2 & Hc2 & Hin2); [tauto|done|].
  assert (holds a c1 = true) as Hh1 by (apply (feasible_holds m); [done | in_constraints]).
  assert (holds a c2 = true) as Hh2 by (apply (feasible_holds m); [done | in_constraints]).
  unfold individual_pos_deviation in Hc1. unfold individual_neg_deviation in Hc2.
  invert_rule Hc1. invert_rule Hc2. subst c1 c2.
  match goal with
  | H1 : py_max _ = Ok ?t1, H2 : py_max _ = Ok ?t2 |- _ =>
      assert (t2 = t1) as -> by congruence
  end.
  match goal with
  | H1 : tarsoc !! v = Some ?q1, H2 : tarsoc !! v = Some ?q2 |- _ =>
      assert (q2 = q1) as -> by congruence
  end.
  unfold holds in Hh1, Hh2. simpl in Hh1, Hh2.
  match type of Hh1 with context [a (s v ?tm)] =>
    destruct (a (s v tm)) as [sl|] eqn:Hsl; [|discriminate] end.
  destruct (a (y v)) as [yv|] eqn:Hyv; [|discriminate]. simpl in Hh1, Hh2.
  apply Qle_bool_iff in Hh1. apply Qle_bool_iff in Hh2.
  eexists _, _, _, _. repeat split; eassumption.
Qed.


End Feasible.

(** ** Shape of the horizon of a model that was built

    With at least one vehicle, [storageConservation] indexes [s] at [t + 1]
    for every flow step [t], so the flow steps are exactly the steps below
    the largest one. *)

Section Horizon.

Variable m : ConcreteModel.
Hypothesis Hbuild : build_model = Ok m.
Variable v : string.
Hypothesis Hv : v ∈ model_V.

Lemma flow_step_next t : t ∈ model_T → (t + 1) ∈ opt_horizon.
Proof.
  intros Ht. pose proof (build_model_Ok _ Hbuild) as Hm.
  destruct (Constraint_VT_elem storageConservation (socconst m) v t)
    as (c & Hc & _); [tauto|done|done|].
  unfold storageConservation in Hc. by invert_rule Hc.
Qed.

Lemma flow_step_lt t tmax :
  py_max opt_horizon = Ok tmax → t ∈ model_T → t < tmax.
Proof.
  intros Hmax Ht. apply flow_step_next in Ht.
  apply py_max_Ok in Hmax as [_ Hle]. specialize (Hle _ Ht). lia.
Qed.

Lemma terminal_not_flow tmax : py_max opt_horizon = Ok tmax → tmax ∉ model_T.
Proof. intros Hmax Ht. pose proof (flow_step_lt _ _ Hmax Ht). lia. Qed.

Lemma below_terminal_flow t tmax :
  py_max opt_horizon = Ok tmax → t ∈ opt_horizon → t < tmax → t ∈ model_T.
Proof.
  intros Hmax Ht Hlt. pose proof (terminal_not_flow _ Hmax) as Hnot.
  unfold model_T in *. rewrite elem_of_remove_dups in *.
  destruct (elem_of_removelast_or _ _ 0 Ht) as [?|Hlast]; [done|].
  apply py_max_Ok in Hmax as [Hin _].
  destruct (elem_of_removelast_or _ _ 0 Hin) as [?|Hlast']; [done|lia].
Qed.

Lemma initial_step_in_horizon : 0 ∈ opt_horizon.
Proof.
  pose proof (build_model_Ok _ Hbuild) as Hm.
  destruct (mapM_Ok_elem initialsoc model_V (inisoc_con m) v)
    as (c & Hc & _); [tauto|done|].
  unfold initialsoc in Hc. by invert_rule Hc.
Qed.

End Horizon.

(** ** The call as a whole *)

Lemma save_results_total (m : ConcreteModel) (a : valuation) :
  build_model = Ok m → ∃ out, save_results a = Ok out.
Proof.
  intros Hbuild. unfold save_results. apply foldM_total.
  intros out v Hv. unfold save_vehicle.
  destruct (foldM_total (save_step a v) opt_horizon) with (b := (∅, ∅) : gmap Z (option Q) * gmap Z (option Q))
    as [rows ->]; [|simpl; eauto].
  intros rows t Ht. unfold save_step.
  destruct (py_max_nonempty _ _ Ht) as [tmax Hmax]. rewrite Hmax. simpl.
  unfold index_VTp, model_Tp. rewrite decide_True; last first.
  { by rewrite elem_of_remove_dups. }
  case_bool_decide as Hlt; simpl; [|eauto].
  unfold index_VT. rewrite decide_True; [simpl; eauto|].
  split; [done|]. by eapply below_terminal_flow.
Qed.

Lemma reschedule_returns (m : ConcreteModel) (res : SolverResults) :
  build_model = Ok m → solver m = Ok res →
  ∃ p_schedule s_schedule,
    reschedule = Ok (p_schedule, s_schedule)
    ∧ ∀ v t, v ∈ V m →
        (t ∈ Tp m → entry s_schedule v t = Some (values res (s v t)))
        ∧ (t ∈ T m → entry p_schedule v t = Some (values res (p_ev v t))).
Proof.
  intros Hbuild Hsolve.
  destruct (save_results_total m (values res) Hbuild) as [[ps ss] Hout].
  exists ps, ss. unfold reschedule. rewrite Hbuild. simpl. rewrite Hsolve. simpl.
  split; [done|]. intros v t Hv.
  pose proof (build_model_Ok _ Hbuild) as (HV & HT & HTp & _).
  rewrite HV in Hv. rewrite HT, HTp. split.
  - intros Ht. unfold model_Tp in Ht. rewrite elem_of_remove_dups in Ht.
    by destruct (save_results_entries _ _ _ v t Hout Hv Ht) as [-> _].
  - intros Ht. pose proof (model_T_horizon _ Ht) as Hh.
    destruct (save_results_entries _ _ _ v t Hout Hv Hh) as [_ Hp].
    destruct (py_max_nonempty _ _ Hh) as [tmax Hmax].
    rewrite (Hp _ Hmax). rewrite bool_decide_eq_true_2; [done|].
    by eapply flow_step_lt.
Qed.

(** ** Properties of the returned schedules *)

(** Claim C1. Whenever the solver hands back a feasible valuation,
    [reschedule] returns, and for every vehicle and every non-terminal step
    the SOC obeys SOC(t+1) = SOC(t) + (charge - discharge) / capacity *
    stepSeconds, the returned net power equals charge - discharge, and so
    the returned trajectory satisfies
    soc[v][t+1] = soc[v][t] + power[v][t] / capacity(v) * stepSeconds. *)
Theorem soc_conservation (m : ConcreteModel) (res : SolverResults) :
  build_model = Ok m → solver m = Ok res →
  feasible m (values res) = true →
  ∃ p_schedule s_schedule,
    reschedule = Ok (p_schedule, s_schedule)
    ∧ ∀ v t, v ∈ V m → t ∈ T m →
      ∃ E pc pd s0 s1 p : Q,
        bcap !! v = Some E ∧ ¬ (E == 0)%Q
        ∧ values res (p_ev_pos v t) = Some pc
        ∧ values res (p_ev_neg v t) = Some pd
        ∧ entry s_schedule v t = Some (Some s0)
        ∧ entry s_schedule v (t + 1) = Some (Some s1)
        ∧ entry p_schedule v t = Some (Some p)
        ∧ (s1 == s0 + (pc - pd) / E * opt_step)%Q
        ∧ (p == pc - pd)%Q
        ∧ (s1 == s0 + p / E * opt_step)%Q.
Proof.
  intros Hbuild Hsolve Hfeas.
  destruct (reschedule_returns m res Hbuild Hsolve) as (ps & ss & Hret & Hent).
  exists ps, ss. split; [done|]. intros v t Hv Ht.
  pose proof (build_model_Ok _ Hbuild) as (HV & HT & HTp & _).
  destruct (Hent v t Hv) as [Hs Hp].
  destruct (Hent v (t + 1) Hv) as [Hs1 _].
  rewrite HV in Hv. rewrite HT in Ht.
  destruct (feasible_socconst m _ Hbuild Hfeas v t Hv Ht)
    as (E & pc & pd & s0 & s1 & HE & HE0 & Hnext & Hpc & Hpd & H0 & H1 & Hsoc).
  destruct (feasible_chrpowconst m _ Hbuild Hfeas v t Hv Ht)
    as (p & pc' & pd' & Hpv & Hpc' & Hpd' & Hdec).
  assert (pc' = pc) as -> by congruence.
  assert (pd' = pd) as -> by congruence.
  exists E, pc, pd, s0, s1, p.
  rewrite Hs, Hs1, Hp, H0, H1, Hpv.
  - repeat split; try done. by rewrite Hdec.
  - by rewrite HT.
  - rewrite HTp. unfold model_Tp. by rewrite elem_of_remove_dups.
  - rewrite HTp. by apply model_T_Tp.
Qed.

(** Claim C2. At and after a vehicle's departure both the charge and the
    discharge power are zero and the returned net power is zero; before
    departure, charge <= selector * maxCharge and
    discharge <= (1 - selector) * maxDischarge with the selector in {0, 1},
    so charge and discharge are never both strictly positive. *)
Theorem departure_and_exclusivity (m : ConcreteModel) (res : SolverResults) :
  build_model = Ok m → solver m = Ok res →
  feasible m (values res) = true →
  ∃ p_schedule s_schedule,
    reschedule = Ok (p_schedule, s_schedule)
    ∧ ∀ v t, v ∈ V m → t ∈ T m →
      ∃ dep pc pd p : Q,
        deptime !! v = Some dep
        ∧ values res (p_ev_pos v t) = Some pc
        ∧ values res (p_ev_neg v t) = Some pd
        ∧ entry p_schedule v t = Some (Some p)
        ∧ ((dep <= inject_Z t)%Q →
             (pc == 0)%Q ∧ (pd == 0)%Q ∧ (p == 0)%Q)
        ∧ ((inject_Z t < dep)%Q →
             ∃ x Pc Pd : Q,
               values res (x_ev v t) = Some x
               ∧ pmax_pos !! v = Some Pc ∧ pmax_neg !! v = Some Pd
               ∧ ((x == 0)%Q ∨ (x == 1)%Q)
               ∧ (pc <= x * Pc)%Q ∧ (pd <= (1 - x) * Pd)%Q
               ∧ ¬ ((0 < pc)%Q ∧ (0 < pd)%Q)).
Proof.
  intros Hbuild Hsolve Hfeas.
  destruct (reschedule_returns m res Hbuild Hsolve) as (ps & ss & Hret & Hent).
  exists ps, ss. split; [done|]. intros v t Hv Ht.
  pose proof (build_model_Ok _ Hbuild) as (HV & HT & HTp & _).
  destruct (Hent v t Hv) as [_ Hp]. specialize (Hp Ht).
  rewrite HV in Hv. rewrite HT in Ht.
  destruct (feasible_combconst m _ Hbuild Hfeas v t Hv Ht)
    as (dep & pc & pd & Hdep & Hpc & Hpd & Hcomb).
  destruct (feasible_chrpowconst m _ Hbuild Hfeas v t Hv Ht)
    as (p & pc' & pd' & Hpv & Hpc' & Hpd' & Hdec).
  assert (pc' = pc) as -> by congruence.
  assert (pd' = pd) as -> by congruence.
  exists dep, pc, pd, p. rewrite Hp, Hpv.
  do 4 (split; [done|]). unfold py_ge in Hcomb. split.
  - intros Hle. apply Qle_bool_iff in Hle. rewrite Hle in Hcomb.
    destruct Hcomb as [Hc0 Hd0]. do 2 (split; [done|]). lra.
  - intros Hlt. destruct (Qle_bool dep (inject_Z t)) eqn:Hle.
    { apply Qle_bool_iff in Hle. lra. }
    destruct Hcomb as (x & Pc & Pd & Hx & HPc & HPd & Hc & Hd).
    exists x, Pc, Pd.
    pose proof (binary_domain m _ Hbuild Hfeas v t x Hv Ht Hx) as Hbin.
    do 6 (split; [done|]).
    intros [Hpos Hneg]. destruct Hbin as [Hx0|Hx1].
    + rewrite Hx0 in Hc. lra.
    + rewrite Hx1 in Hd. lra.
Qed.

(** Claim C3. At every non-terminal step the returned SOC lies between the
    vehicle's minimum and maximum SOC. The bound constraints are posted at
    flow steps only, the terminal step is not one of them, and the terminal
    SOC is a non-negative variable. *)
Theorem soc_bounds (m : ConcreteModel) (res : SolverResults) :
  build_model = Ok m → solver m = Ok res →
  feasible m (values res) = true →
  ∃ p_schedule s_schedule,
    reschedule = Ok (p_schedule, s_schedule)
    ∧ (∀ v t, v ∈ V m → t ∈ T m →
        ∃ lo hi q : Q,
          minsoc !! v = Some lo ∧ maxsoc !! v = Some hi
          ∧ entry s_schedule v t = Some (Some q)
          ∧ (lo <= q)%Q ∧ (q <= hi)%Q)
    ∧ (∀ c, c ∈ minsoc_con m →
        ∃ v t lo, v ∈ V m ∧ t ∈ T m ∧ c = Con (ENum lo) RLe (EVar (s v t)))
    ∧ (∀ c, c ∈ maxsoc_con m →
        ∃ v t hi, v ∈ V m ∧ t ∈ T m ∧ c = Con (ENum hi) RGe (EVar (s v t)))
    ∧ (∀ v tmax, v ∈ V m → py_max opt_horizon = Ok tmax →
        (tmax ∉ T m)
        ∧ ∃ q : Q, entry s_schedule v tmax = Some (Some q) ∧ (0 <= q)%Q).
Proof.
  intros Hbuild Hsolve Hfeas.
  destruct (reschedule_returns m res Hbuild Hsolve) as (ps & ss & Hret & Hent).
  exists ps, ss. split; [done|].
  pose proof (build_model_Ok _ Hbuild)
    as (HV & HT & HTp & _ & Hmin & Hmax & _).
  split; [|split; [|split]].
  - intros v t Hv Ht. destruct (Hent v t Hv) as [Hs _].
    rewrite HV in Hv. rewrite HT in Ht.
    destruct (feasible_soc_bounds m _ Hbuild Hfeas v t Hv Ht)
      as (lo & hi & q & Hlo & Hhi & Hq & Hle1 & Hle2).
    exists lo, hi, q. rewrite Hs, Hq; [done|].
    rewrite HTp. by apply model_T_Tp.
  - intros c Hc.
    destruct (Constraint_VT_source _ _ _ Hmin Hc) as (v & t & Hv & Ht & Hr).
    unfold minimumsoc in Hr. invert_rule Hr. subst c.
    exists v, t. rewrite HV, HT. eauto.
  - intros c Hc.
    destruct (Constraint_VT_source _ _ _ Hmax Hc) as (v & t & Hv & Ht & Hr).
    unfold maximumsoc in Hr. invert_rule Hr. subst c.
    exists v, t. rewrite HV, HT. eauto.
  - intros v tmax Hv Htmax. destruct (Hent v tmax Hv) as [Hs _].
    rewrite HV in Hv. rewrite HT. split.
    { by eapply terminal_not_flow. }
    destruct (feasible_deviation m _ Hbuild Hfeas v Hv)
      as (tmax' & tar & sl & yv & Hmax' & _ & Hsl & _).
    assert (tmax' = tmax) as -> by congruence.
    pose proof (proj1 (py_max_Ok _ _ Htmax)) as Hin.
    exists sl. rewrite Hs, Hsl.
    + split; [done|].
      apply (nonneg_domain m _ Hfeas (s v tmax) sl); [done| |done].
      by apply declared_s.
    + rewrite HTp. unfold model_Tp. by rewrite elem_of_remove_dups.
Qed.

(** Claim C4. One non-negative slack, shared by all flow steps and at most
    the tolerance, relaxes both aggregate limits; hence at every single
    step the excess over either limit is at most the tolerance. *)
Theorem soft_cluster_limits (m : ConcreteModel) (a : valuation) :
  build_model = Ok m → feasible m a = true →
  ∃ e : Q,
    a eps = Some e ∧ (0 <= e)%Q ∧ (e <= tolerance)%Q
    ∧ ∀ t, t ∈ T m →
        ∃ P up low : Q,
          a (p_cc t) = Some P
          ∧ upperlimit !! t = Some up ∧ lowerlimit !! t = Some low
          ∧ (P <= e + up)%Q ∧ (low - e <= P)%Q
          ∧ (P - up <= tolerance)%Q ∧ (low - P <= tolerance)%Q.
Proof.
  intros Hbuild Hfeas.
  destruct (feasible_viol_clust m a Hbuild Hfeas) as (e & He & He0 & Hetol).
  exists e. do 3 (split; [done|]). intros t Ht.
  pose proof (build_model_Ok _ Hbuild) as (_ & HT & _). rewrite HT in Ht.
  destruct (feasible_cluster_limits m a Hbuild Hfeas t e He Ht)
    as (P & up & low & HP & Hup & Hlow & Hle1 & Hle2).
  exists P, up, low. do 5 (split; [done|]). split; lra.
Qed.

(** Claim C5. At every flow step the cluster power equals the sum over the
    vehicles of charge power divided by the charging efficiency minus
    discharge power multiplied by the discharging efficiency. *)
Theorem cluster_aggregation (m : ConcreteModel) (a : valuation) (t : Z) :
  build_model = Ok m → feasible m a = true → t ∈ T m →
  ∃ P A : Q,
    a (p_cc t) = Some P
    ∧ spec_aggregatePower a t = Some A
    ∧ (P == A)%Q
    ∧ ∀ v, v ∈ V m → ∃ ec : Q, ch_eff !! v = Some ec ∧ ¬ (ec == 0)%Q.
Proof.
  intros Hbuild Hfeas Ht.
  pose proof (build_model_Ok _ Hbuild) as (HV & HT & _).
  rewrite HT in Ht. rewrite HV.
  by apply (feasible_ccpowtotal m a Hbuild Hfeas).
Qed.

(** ** Changing one value of a valuation *)

Lemma assign_same (a : valuation) (x : var) (q : Q) : assign a x q x = Some q.
Proof. unfold assign. by rewrite decide_True. Qed.

Lemma assign_other (a : valuation) (x z : var) (q : Q) :
  z ≠ x → assign a x q z = a z.
Proof. intros Hne. unfold assign. by rewrite decide_False. Qed.

Lemma eval_assign_fresh (a : valuation) (x : var) (q : Q) (e : expr) :
  occurs x e = false → eval (assign a x q) e = eval a e.
Proof.
  induction e as [c|z|e1 IH1 e2 IH2|e1 IH1 e2 IH2|e1 IH1 e2 IH2|e1 IH1 e2 IH2|e1 IH1];
    simpl; intros Hocc;
    try (apply orb_false_elim in Hocc as [H1 H2]; rewrite IH1, IH2 by done);
    try done.
  - apply bool_decide_eq_false in Hocc. by apply assign_other.
  - by rewrite IH1.
Qed.

Lemma holds_assign_fresh (a : valuation) (x : var) (q : Q) (c : constraint) :
  mentions c x = false → holds (assign a x q) c = holds a c.
Proof.
  unfold mentions, holds. intros [H1 H2]%orb_false_elim.
  by rewrite !eval_assign_fresh.
Qed.

Lemma occurs_fold_left (x : var) (es : list expr) (e0 : expr) :
  occurs x e0 = false → Forall (λ e, occurs x e = false) es →
  occurs x (fold_left EAdd es e0) = false.
Proof.
  intros H0 Hes. revert e0 H0.
  induction Hes as [|e es He _ IH]; intros e0 H0; simpl; [done|].
  apply IH. simpl. by rewrite H0, He.
Qed.

Lemma linear_fold_left (es : list expr) (e0 : expr) :
  linear e0 = true → Forall (λ e, linear e = true) es →
  linear (fold_left EAdd es e0) = true.
Proof.
  intros H0 Hes. revert e0 H0.
  induction Hes as [|e es He _ IH]; intros e0 H0; simpl; [done|].
  apply IH. simpl. by rewrite H0, He.
Qed.

Lemma feasible_iff (m : ConcreteModel) (a : valuation) :
  feasible m a = true ↔
  (∀ c, c ∈ constraints m → holds a c = true)
  ∧ (∀ x q, x ∈ declared_vars m → a x = Some q →
       in_domain (within x) q = true).
Proof.
  unfold feasible. rewrite andb_true_iff, !forallb_forall. split.
  - intros [Hc Hd]. split.
    + intros c Hin. by apply Hc, list_elem_of_In.
    + intros x q Hin Hx. apply list_elem_of_In, Hd in Hin. by rewrite Hx in Hin.
  - intros [Hc Hd]. split.
    + intros c Hin. by apply Hc, list_elem_of_In.
    + intros x Hin. destruct (a x) as [q|] eqn:Hx; [|done]. simpl.
      by apply Hd; [apply list_elem_of_In|].
Qed.

Lemma Forall2_exists {A B C : Type} (R : A → B → Prop) (P : A → C → Prop)
    (S : B → C → Prop) (l : list A) (k : list B) :
  Forall2 R l k →
  (∀ x z, x ∈ l → R x z → ∃ w, P x w ∧ S z w) →
  ∃ ws, Forall2 P l ws ∧ Forall2 S k ws.
Proof.
  induction 1 as [|x z l k Hxz _ IH]; intros Hw.
  - exists []. split; constructor.
  - destruct (Hw x z) as (w & HP & HS); [left|done|].
    destruct IH as (ws & HPs & HSs).
    { intros x' z' Hx'. apply Hw. by right. }
    exists (w :: ws). split; by constructor.
Qed.

(** ** Every constraint of a built model comes from a rule *)

Lemma constraints_posted (m : ConcreteModel) (c : constraint) :
  build_model = Ok m → c ∈ constraints m → posted c.
Proof.
  intros Hbuild. pose proof (build_model_Ok _ Hbuild)
    as (_ & _ & _ & H1 & H2 & H3 & H4 & H5 & H6 & H7 & H8 & H9 & H10 & H11
        & H12 & H13 & _).
  unfold constraints. rewrite !elem_of_app, H9.
  intros [Hc|[Hc|[Hc|[Hc|[Hc|[Hc|[Hc|[Hc|[Hc|[Hc|[Hc|[Hc|Hc]]]]]]]]]]]].
  - destruct (mapM_Ok_source _ _ _ _ H1 Hc) as (v & ? & ?).
    by eapply posted_inisoc.
  - destruct (Constraint_VT_source _ _ _ H2 Hc) as (v & t & ? & ? & ?).
    by eapply posted_minsoc.
  - destruct (Constraint_VT_source _ _ _ H3 Hc) as (v & t & ? & ? & ?).
    by eapply posted_maxsoc.
  - destruct (Constraint_VT_source _ _ _ H4 Hc) as (v & t & ? & ? & ?).
    by eapply posted_socconst.
  - destruct (Constraint_VT_source _ _ _ H5 Hc) as (v & t & ? & ? & ?).
    by eapply posted_chrpowconst.
  - destruct (Constraint_VT_source _ _ _ H6 Hc) as (v & t & ? & ? & ?).
    by eapply posted_combconst1.
  - destruct (Constraint_VT_source _ _ _ H7 Hc) as (v & t & ? & ? & ?).
    by eapply posted_combconst2.
  - destruct (mapM_Ok_source _ _ _ _ H8 Hc) as (t & ? & ?).
    by eapply posted_ccpowtotal.
  - apply list_elem_of_singleton in Hc as ->. by apply posted_viol_clust.
  - destruct (mapM_Ok_source _ _ _ _ H10 Hc) as (t & ? & ?).
    by eapply posted_ccpowcap_pos.
  - destruct (mapM_Ok_source _ _ _ _ H11 Hc) as (t & ? & ?).
    by eapply posted_ccpowcap_neg.
  - destruct (mapM_Ok_source _ _ _ _ H12 Hc) as (v & ? & ?).
    by eapply posted_indev_pos.
  - destruct (mapM_Ok_source _ _ _ _ H13 Hc) as (v & ? & ?).
    by eapply posted_indev_neg.
Qed.

Lemma ccpower_terms_shape (t : Z) (terms : list expr) :
  mapM (ccpower_term t) model_V = Ok terms →
  Forall (λ e, linear e = true
               ∧ ∀ x, (∀ v t', x ≠ p_ev_pos v t') →
                      (∀ v t', x ≠ p_ev_neg v t') → occurs x e = false) terms.
Proof.
  intros H%mapM_Ok. induction H as [|v e vs es He _ IH]; constructor; [|done].
  unfold ccpower_term in He. invert_rule He. subst e. split; [done|].
  intros x Hpos Hneg. simpl.
  rewrite !bool_decide_eq_false_2; [done| |]; intros <-; naive_solver.
Qed.

Lemma posted_linear (c : constraint) : posted c → linear_constraint c = true.
Proof.
  intros [v _ Hr|v t _ _ Hr|v t _ _ Hr|v t _ _ Hr|v t _ _ Hr|v t _ _ Hr
         |v t _ _ Hr|t _ Hr|Hr|t _ Hr|t _ Hr|v _ Hr|v _ Hr];
    unfold initialsoc, minimumsoc, maximumsoc, storageConservation,
      chargepowerlimit, combinatorics_ch, combinatorics_ds, ccpower,
      cluster_limit_violation, cluster_upper_limit, cluster_lower_limit,
      individual_pos_deviation, individual_neg_deviation in Hr;
    invert_rule Hr; subst c; try reflexivity.
  unfold linear_constraint. simpl. apply linear_fold_left; [done|].
  eapply Forall_impl; [by eapply ccpower_terms_shape|]. by intros e [? _].
Qed.

(** The only constraints that mention a deviation slack are the two
    target-deviation inequalities of its vehicle. *)
Lemma posted_mentions_slack (c : constraint) (v : string) :
  posted c →
  mentions c (y v) = false
  ∨ individual_pos_deviation v = Ok c ∨ individual_neg_deviation v = Ok c.
Proof.
  intros [v0 _ Hr|v0 t _ _ Hr|v0 t _ _ Hr|v0 t _ _ Hr|v0 t _ _ Hr|v0 t _ _ Hr
         |v0 t _ _ Hr|t _ Hr|Hr|t _ Hr|t _ Hr|v0 _ Hr|v0 _ Hr].
  12, 13: destruct (decide (v0 = v)) as [->|Hne]; [by auto|].
  all: left.
  all: unfold initialsoc, minimumsoc, maximumsoc, storageConservation,
      chargepowerlimit, combinatorics_ch, combinatorics_ds, ccpower,
      cluster_limit_violation, cluster_upper_limit, cluster_lower_limit,
      individual_pos_deviation, individual_neg_deviation in Hr.
  all: invert_rule Hr; subst c; try reflexivity.
  - unfold mentions. simpl. apply occurs_fold_left; [done|].
    eapply Forall_impl; [by eapply ccpower_terms_shape|].
    intros e [_ He]. by apply He.
  - unfold mentions. simpl. rewrite bool_decide_eq_false_2; [done|]. congruence.
  - unfold mentions. simpl. rewrite bool_decide_eq_false_2; [done|]. congruence.
Qed.

(** Raising a deviation slack keeps a feasible valuation feasible: nothing
    bounds the slack from above. *)
Lemma raise_slack_feasible (m : ConcreteModel) (a : valuation) (v : string)
    (yv q : Q) :
  build_model = Ok m → feasible m a = true →
  a (y v) = Some yv → (yv <= q)%Q → y v ∈ declared_vars m →
  feasible m (assign a (y v) q) = true.
Proof.
  intros Hbuild Hfeas Hyv Hle Hdecl. apply feasible_iff in Hfeas as [Hcs Hdom].
  apply feasible_iff. split.
  - intros c Hc. specialize (Hcs c Hc).
    destruct (posted_mentions_slack c v (constraints_posted m c Hbuild Hc))
      as [Hfresh|[Hr|Hr]].
    + by rewrite holds_assign_fresh.
    + unfold individual_pos_deviation in Hr. invert_rule Hr. subst c.
      unfold holds in Hcs |- *. simpl in Hcs |- *.
      rewrite assign_same, assign_other by done. rewrite Hyv in Hcs.
      match type of Hcs with context [a ?x] => destruct (a x); [|done] end.
      simpl in Hcs |- *. apply Qle_bool_iff. apply Qle_bool_iff in Hcs. lra.
    + unfold individual_neg_deviation in Hr. invert_rule Hr. subst c.
      unfold holds in Hcs |- *. simpl in Hcs |- *.
      rewrite assign_same, assign_other by done. rewrite Hyv in Hcs.
      match type of Hcs with context [a ?x] => destruct (a x); [|done] end.
      simpl in Hcs |- *. apply Qle_bool_iff. apply Qle_bool_iff in Hcs. lra.
  - intros x q' Hx Hq'. destruct (decide (x = y v)) as [->|Hne].
    + rewrite assign_same in Hq'. injection Hq' as <-.
      specialize (Hdom _ _ Hdecl Hyv). simpl in Hdom |- *.
      apply Qle_bool_iff. apply Qle_bool_iff in Hdom. lra.
    + rewrite assign_other in Hq' by done. by eapply Hdom.
Qed.

(** ** The objective *)

Lemma obj_term_Ok (v : string) (e : expr) :
  obj_term v = Ok e →
  ∃ E : Q, bcap !! v = Some E
    ∧ e = EDiv (EMul (EVar (y v)) (ENum E)) (ENum 3600).
Proof. intros H. unfold obj_term in H. invert_rule H. eauto. Qed.

Lemma obj_rule_Ok (o : expr) :
  obj_rule = Ok o →
  ∃ terms,
    o = EAdd (EMul (ENum rho_y) (py_sum terms)) (EMul (ENum rho_eps) (EVar eps))
    ∧ Forall2 (λ v e, ∃ E : Q, bcap !! v = Some E
                 ∧ e = EDiv (EMul (EVar (y v)) (ENum E)) (ENum 3600))
        model_V terms.
Proof.
  intros H. unfold obj_rule in H.
  apply bind_Ok in H as (terms & Hterms & H). injection H as <-.
  exists terms. split; [done|]. apply mapM_Ok in Hterms.
  eapply Forall2_impl; [exact Hterms|]. intros v e. apply obj_term_Ok.
Qed.

Lemma objective_value (m : ConcreteModel) (a : valuation) :
  build_model = Ok m → feasible m a = true →
  ∃ O O' : Q,
    eval a (obj m) = Some O ∧ spec_objective a = Some O' ∧ (O == O')%Q.
Proof.
  intros Hbuild Hfeas. pose proof (build_model_Ok _ Hbuild) as Hm.
  assert (obj_rule = Ok (obj m)) as Hobj by tauto.
  apply obj_rule_Ok in Hobj as (terms & -> & Hterms).
  destruct (feasible_viol_clust m a Hbuild Hfeas) as (e & He & _).
  destruct (Forall2_exists _
              (λ v q, spec_deviation_energy a v = Some q)
              (λ e q, eval a e = Some q) _ _ Hterms) as (qs & Hspec & Hev).
  { intros v e' Hv (E & HE & ->).
    destruct (feasible_deviation m a Hbuild Hfeas v Hv)
      as (_ & _ & _ & yv & _ & _ & _ & Hyv & _).
    exists (yv * E / 3600)%Q. unfold spec_deviation_energy. simpl.
    rewrite Hyv, HE. done. }
  exists (rho_y * fold_left Qplus qs 0 + rho_eps * e)%Q,
         (rho_y * foldr Qplus 0 qs + rho_eps * e)%Q.
  split; [|split].
  - simpl. rewrite He. fold (py_sum terms). unfold py_sum.
    rewrite (eval_py_sum_from a terms (ENum 0) 0%Q qs); done.
  - unfold spec_objective. rewrite (mapM_Some_2 _ _ _ Hspec). simpl.
    by rewrite He.
  - rewrite fold_left_Qplus. lra.
Qed.

Lemma objective_linear (m : ConcreteModel) :
  build_model = Ok m → linear (obj m) = true.
Proof.
  intros Hbuild. pose proof (build_model_Ok _ Hbuild) as Hm.
  assert (obj_rule = Ok (obj m)) as Hobj by tauto.
  apply obj_rule_Ok in Hobj as (terms & -> & Hterms).
  simpl. rewrite andb_true_r. apply orb_true_intro. left.
  apply linear_fold_left; [done|].
  apply Forall2_Forall_r with (Q := λ e, linear e = true) in Hterms; [done|].
  apply Forall_forall. by intros v _ e (E & _ & ->).
Qed.

(** Claim C6. The objective is minimised and is exactly
    rho_y * sum_v (deviationSlack(v) * capacity(v) / 3600)
    + rho_eps * violationSlack; each deviation slack dominates
    |targetSOC - SOC(last step)| through two one-sided inequalities and is
    not bounded above by anything (raising it keeps feasibility); the
    objective and every constraint are linear. *)
Theorem objective_and_deviation (m : ConcreteModel) (a : valuation) :
  build_model = Ok m → feasible m a = true →
  sense m = minimize
  ∧ (∃ terms,
       obj m = EAdd (EMul (ENum rho_y) (py_sum terms))
                    (EMul (ENum rho_eps) (EVar eps))
       ∧ Forall2 (λ v e, ∃ E : Q, bcap !! v = Some E
                    ∧ e = EDiv (EMul (EVar (y v)) (ENum E)) (ENum 3600))
           (V m) terms)
  ∧ (∃ O O' : Q,
       eval a (obj m) = Some O ∧ spec_objective a = Some O' ∧ (O == O')%Q)
  ∧ (∀ v, v ∈ V m →
       ∃ (tmax : Z) (tar sl yv : Q),
         py_max opt_horizon = Ok tmax ∧ tarsoc !! v = Some tar
         ∧ a (s v tmax) = Some sl ∧ a (y v) = Some yv
         ∧ (tar - sl <= yv)%Q ∧ (- yv <= tar - sl)%Q
         ∧ (Qabs (tar - sl) <= yv)%Q
         ∧ ∀ q : Q, (yv <= q)%Q → feasible m (assign a (y v) q) = true)
  ∧ linear (obj m) = true
  ∧ (∀ c, c ∈ constraints m → linear_constraint c = true).
Proof.
  intros Hbuild Hfeas. pose proof (build_model_Ok _ Hbuild) as Hm.
  assert (V m = model_V) as HV by tauto.
  split; [tauto|]. split; [|split; [|split; [|split]]].
  - rewrite HV. apply obj_rule_Ok. tauto.
  - by apply objective_value.
  - intros v Hv. rewrite HV in Hv.
    destruct (feasible_deviation m a Hbuild Hfeas v Hv)
      as (tmax & tar & sl & yv & Hmax & Htar & Hsl & Hyv & Hpos & Hneg).
    exists tmax, tar, sl, yv. do 6 (split; [done|]). split.
    + apply Qabs_Qle_condition. split; lra.
    + intros q Hq. eapply raise_slack_feasible; try done.
      by apply declared_y.
  - by apply objective_linear.
  - intros c Hc. apply posted_linear. by eapply constraints_posted.
Qed.

(** ** Failures while the model is built *)

Lemma Constraint_VT_Raise rule e :
  Constraint_VT rule = Raise e →
  ∃ v t, v ∈ model_V ∧ t ∈ model_T ∧ rule v t = Raise e.
Proof.
  unfold Constraint_VT. intros ([v t] & Hvt & Hr)%mapM_Raise.
  apply list_elem_of_In, in_prod_iff in Hvt as [Hv Ht].
  exists v, t. by rewrite <- !list_elem_of_In in *.
Qed.

(** Splitting a failed rule into the primitive that failed. *)
Ltac raise_cases H :=
  unfold index_VT, index_VTp, index_T, index_V, getitem, py_div in H;
  repeat (case_match; simpl in H; try discriminate H);
  try (injection H as <-; unfold builtin_lookup_error; tauto).

Lemma ccpower_term_Raise t v e :
  ccpower_term t v = Raise e → builtin_lookup_error e.
Proof. unfold ccpower_term. intros H. raise_cases H. Qed.

Lemma obj_term_Raise v e : obj_term v = Raise e → builtin_lookup_error e.
Proof. unfold obj_term. intros H. raise_cases H. Qed.

Lemma ccpower_Raise t e : ccpower t = Raise e → builtin_lookup_error e.
Proof.
  unfold ccpower, index_T. case_decide; simpl; [|intros [= <-]; by left].
  destruct (mapM (ccpower_term t) model_V) as [k|e'] eqn:Hk; simpl;
    [discriminate|].
  intros [= ->]. apply mapM_Raise in Hk as (v & _ & Hv).
  by eapply ccpower_term_Raise.
Qed.

Lemma obj_rule_Raise e : obj_rule = Raise e → builtin_lookup_error e.
Proof.
  unfold obj_rule.
  destruct (mapM obj_term model_V) as [k|e'] eqn:Hk; simpl; [discriminate|].
  intros [= ->]. apply mapM_Raise in Hk as (v & _ & Hv).
  by eapply obj_term_Raise.
Qed.

(** Once the initial-SOC constraints exist for a non-empty fleet, the
    horizon is not empty, so [max(opt_horizon)] cannot fail. *)
Lemma deviation_Raise (cs : list constraint) v e :
  mapM initialsoc model_V = Ok cs → v ∈ model_V →
  individual_pos_deviation v = Raise e ∨ individual_neg_deviation v = Raise e →
  builtin_lookup_error e.
Proof.
  intros Hini Hv Hr.
  destruct (mapM_Ok_elem _ _ _ _ Hini Hv) as (c & Hc & _).
  unfold initialsoc in Hc. invert_rule Hc.
  destruct (py_max_nonempty opt_horizon 0) as [tmax Hmax]; [done|].
  unfold individual_pos_deviation, individual_neg_deviation in Hr.
  rewrite Hmax in Hr. destruct Hr as [Hr|Hr]; raise_cases Hr.
Qed.

(** Model building raises nothing but [KeyError] and [ZeroDivisionError]. *)
Lemma build_model_Raise e : build_model = Raise e → builtin_lookup_error e.
Proof.
  unfold build_model.
  destruct (mapM initialsoc model_V) as [c1|e1] eqn:H1; simpl.
  2: { intros [= <-]. apply mapM_Raise in H1 as (v & _ & Hr).
       unfold initialsoc in Hr. raise_cases Hr. }
  destruct (Constraint_VT minimumsoc) as [c2|e2] eqn:H2; simpl.
  2: { intros [= <-]. apply Constraint_VT_Raise in H2 as (v & t & _ & _ & Hr).
       unfold minimumsoc in Hr. raise_cases Hr. }
  destruct (Constraint_VT maximumsoc) as [c3|e3] eqn:H3; simpl.
  2: { intros [= <-]. apply Constraint_VT_Raise in H3 as (v & t & _ & _ & Hr).
       unfold maximumsoc in Hr. raise_cases Hr. }
  destruct (Constraint_VT storageConservation) as [c4|e4] eqn:H4; simpl.
  2: { intros [= <-]. apply Constraint_VT_Raise in H4 as (v & t & _ & _ & Hr).
       unfold storageConservation in Hr. raise_cases Hr. }
  destruct (Constraint_VT chargepowerlimit) as [c5|e5] eqn:H5; simpl.
  2: { intros [= <-]. apply Constraint_VT_Raise in H5 as (v & t & _ & _ & Hr).
       unfold chargepowerlimit in Hr. raise_cases Hr. }
  destruct (Constraint_VT combinatorics_ch) as [c6|e6] eqn:H6; simpl.
  2: { intros [= <-]. apply Constraint_VT_Raise in H6 as (v & t & _ & _ & Hr).
       unfold combinatorics_ch in Hr. raise_cases Hr. }
  destruct (Constraint_VT combinatorics_ds) as [c7|e7] eqn:H7; simpl.
  2: { intros [= <-]. apply Constraint_VT_Raise in H7 as (v & t & _ & _ & Hr).
       unfold combinatorics_ds in Hr. raise_cases Hr. }
  destruct (mapM ccpower model_T) as [c8|e8] eqn:H8; simpl.
  2: { intros [= <-]. apply mapM_Raise in H8 as (t & _ & Hr).
       by eapply ccpower_Raise. }
  destruct (mapM cluster_upper_limit model_T) as [c10|e10] eqn:H10; simpl.
  2: { intros [= <-]. apply mapM_Raise in H10 as (t & _ & Hr).
       unfold cluster_upper_limit in Hr. raise_cases Hr. }
  destruct (mapM cluster_lower_limit model_T) as [c11|e11] eqn:H11; simpl.
  2: { intros [= <-]. apply mapM_Raise in H11 as (t & _ & Hr).
       unfold cluster_lower_limit in Hr. raise_cases Hr. }
  destruct (mapM individual_pos_deviation model_V) as [c12|e12] eqn:H12; simpl.
  2: { intros [= <-]. apply mapM_Raise in H12 as (v & Hv & Hr).
       eapply deviation_Raise; eauto. }
  destruct (mapM individual_neg_deviation model_V) as [c13|e13] eqn:H13; simpl.
  2: { intros [= <-]. apply mapM_Raise in H13 as (v & Hv & Hr).
       eapply deviation_Raise; eauto. }
  destruct obj_rule as [o|e14] eqn:H14; simpl; [discriminate|].
  intros [= <-]. by eapply obj_rule_Raise.
Qed.

Lemma missing_entry_no_model (m : ConcreteModel) :
  missing_entry → build_model ≠ Ok m.
Proof.
  intros Hmiss Hbuild. pose proof (build_model_Ok _ Hbuild)
    as (_ & _ & _ & H1 & H2 & H3 & H4 & H5 & H6 & H7 & H8 & H9 & H10 & H11
        & H12 & H13 & _).
  destruct Hmiss as [v Hv Hn|v Hv Hn|v t Hv Ht Hn|v t Hv Ht Hn|v t Hv Ht Hn
                    |v t Hv Ht Hn|v t Hv Ht Hn|v t dep Hv Ht Hd Hge Hn
                    |v t dep Hv Ht Hd Hge Hn|t Ht Hn|t Ht Hn].
  - destruct (mapM_Ok_elem _ _ _ _ H1 Hv) as (c & Hc & _).
    unfold initialsoc in Hc. invert_rule Hc. congruence.
  - destruct (mapM_Ok_elem _ _ _ _ H12 Hv) as (c & Hc & _).
    unfold individual_pos_deviation in Hc. invert_rule Hc. congruence.
  - destruct (Constraint_VT_elem _ _ _ _ H2 Hv Ht) as (c & Hc & _).
    unfold minimumsoc in Hc. invert_rule Hc. congruence.
  - destruct (Constraint_VT_elem _ _ _ _ H3 Hv Ht) as (c & Hc & _).
    unfold maximumsoc in Hc. invert_rule Hc. congruence.
  - destruct (Constraint_VT_elem _ _ _ _ H6 Hv Ht) as (c & Hc & _).
    unfold combinatorics_ch in Hc. apply bind_Ok in Hc as (dep & Hdep & _).
    apply getitem_Ok in Hdep. congruence.
  - destruct (mapM_Ok_elem _ _ _ _ H8 Ht) as (c & Hc & _).
    unfold ccpower in Hc. apply bind_Ok in Hc as (pcc & _ & Hc).
    apply bind_Ok in Hc as (terms & Hterms & _).
    destruct (mapM_Ok_elem _ _ _ _ Hterms Hv) as (e & He & _).
    unfold ccpower_term in He. invert_rule He. congruence.
  - destruct (mapM_Ok_elem _ _ _ _ H8 Ht) as (c & Hc & _).
    unfold ccpower in Hc. apply bind_Ok in Hc as (pcc & _ & Hc).
    apply bind_Ok in Hc as (terms & Hterms & _).
    destruct (mapM_Ok_elem _ _ _ _ Hterms Hv) as (e & He & _).
    unfold ccpower_term in He. invert_rule He. congruence.
  - destruct (Constraint_VT_elem _ _ _ _ H6 Hv Ht) as (c & Hc & _).
    unfold combinatorics_ch in Hc. apply bind_Ok in Hc as (dep' & Hdep & Hc).
    apply getitem_Ok in Hdep. assert (dep' = dep) as -> by congruence.
    rewrite Hge in Hc. invert_rule Hc. congruence.
  - destruct (Constraint_VT_elem _ _ _ _ H7 Hv Ht) as (c & Hc & _).
    unfold combinatorics_ds in Hc. apply bind_Ok in Hc as (dep' & Hdep & Hc).
    apply getitem_Ok in Hdep. assert (dep' = dep) as -> by congruence.
    rewrite Hge in Hc. invert_rule Hc. congruence.
  - destruct (mapM_Ok_elem _ _ _ _ H10 Ht) as (c & Hc & _).
    unfold cluster_upper_limit in Hc. invert_rule Hc. congruence.
  - destruct (mapM_Ok_elem _ _ _ _ H11 Ht) as (c & Hc & _).
    unfold cluster_lower_limit in Hc. invert_rule Hc. congruence.
Qed.

(** ** Error behaviour *)

(** Claim C7, as the code has it. A lookup that a rule performs and that
    finds no entry makes the model-building step raise, the exception is
    one of Python's built-in [KeyError] and [ZeroDivisionError], and the
    call ends there whatever the solver is. *)
Theorem missing_entry_raises :
  missing_entry →
  ∃ e, builtin_lookup_error e ∧ build_model = Raise e ∧ reschedule = Raise e.
Proof.
  intros Hmiss. destruct build_model as [m|e] eqn:Hbuild.
  - by destruct (missing_entry_no_model m Hmiss).
  - exists e. split; [by apply build_model_Raise|]. split; [done|].
    unfold reschedule. by rewrite Hbuild.
Qed.

(** Claim C8, as the code has it. The result object of the solver is never
    read: an exception raised by the solver call propagates, and whenever
    the call returns, with whatever termination condition, [reschedule]
    returns two dictionaries filled with whatever the variables hold. *)
Theorem solver_outcome_not_inspected (m : ConcreteModel) :
  build_model = Ok m →
  (∀ e, solver m = Raise e → reschedule = Raise e)
  ∧ (∀ res, solver m = Ok res →
       ∃ p_schedule s_schedule,
         reschedule = Ok (p_schedule, s_schedule)
         ∧ ∀ v t, v ∈ V m →
             (t ∈ Tp m → entry s_schedule v t = Some (values res (s v t)))
             ∧ (t ∈ T m → entry p_schedule v t = Some (values res (p_ev v t)))).
Proof.
  intros Hbuild. split.
  - intros e He. unfold reschedule. rewrite Hbuild. simpl. by rewrite He.
  - intros res Hres. by apply reschedule_returns.
Qed.

(** Claim C10, as the code has it. With at least one vehicle, a horizon
    that does not contain the step index 0 makes the first constraint rule
    index [s] outside its index set: building the model raises [KeyError]
    and so does the call. *)
Theorem initial_step_required :
  bcap ≠ ∅ → 0 ∉ opt_horizon →
  build_model = Raise KeyError ∧ reschedule = Raise KeyError.
Proof.
  intros Hne H0.
  assert (build_model = Raise KeyError) as Hbuild.
  { assert (∀ v, initialsoc v = Raise KeyError) as Hini.
    { intros v. unfold initialsoc, index_VTp.
      rewrite decide_False; [done|]. unfold model_Tp.
      rewrite elem_of_remove_dups. tauto. }
    assert (mapM initialsoc model_V = Raise KeyError) as Hall.
    { unfold model_V. destruct (map_to_list bcap) as [|[v q] l] eqn:Hl.
      { by apply map_to_list_empty_iff in Hl. }
      cbn [fmap list_fmap mapM fst]. by rewrite Hini. }
    unfold build_model. by rewrite Hall. }
  split; [done|]. unfold reschedule. by rewrite Hbuild.
Qed.

(** ** A vehicle that has already departed *)

Section Departed.

Variable m : ConcreteModel.
Variable a : valuation.
Hypothesis Hbuild : build_model = Ok m.
Hypothesis Hfeas : feasible m a = true.
Variable v : string.
Variable dep : Q.
Hypothesis Hv : v ∈ model_V.
Hypothesis Hdep : deptime !! v = Some dep.
Hypothesis Hgone : (dep <= 0)%Q.

Lemma departed_flow_zero t :
  t ∈ model_T → 0 ≤ t →
  ∃ pc pd p : Q,
    a (p_ev_pos v t) = Some pc ∧ a (p_ev_neg v t) = Some pd
    ∧ a (p_ev v t) = Some p
    ∧ (pc == 0)%Q ∧ (pd == 0)%Q ∧ (p == 0)%Q.
Proof.
  intros Ht Hnn.
  destruct (feasible_combconst m a Hbuild Hfeas v t Hv Ht)
    as (dep' & pc & pd & Hdep' & Hpc & Hpd & Hcomb).
  assert (dep' = dep) as -> by congruence.
  destruct (feasible_chrpowconst m a Hbuild Hfeas v t Hv Ht)
    as (p & pc' & pd' & Hp & Hpc' & Hpd' & Hdec).
  assert (pc' = pc) as -> by congruence.
  assert (pd' = pd) as -> by congruence.
  assert (py_ge t dep = true) as Hge.
  { unfold py_ge. apply Qle_bool_iff.
    assert (inject_Z 0 <= inject_Z t)%Q as Hq by (rewrite <- Zle_Qle; exact Hnn).
    change (inject_Z 0) with 0%Q in Hq.
    lra. }
  rewrite Hge in Hcomb. destruct Hcomb as [Hc0 Hd0].
  exists pc, pd, p. repeat split; try done. lra.
Qed.

Lemma departed_soc_constant tmax (n : nat) :
  py_max opt_horizon = Ok tmax → Z.of_nat n ≤ tmax →
  Z.of_nat n ∈ opt_horizon
  ∧ ∃ ini q : Q, inisoc !! v = Some ini
      ∧ a (s v (Z.of_nat n)) = Some q ∧ (q == ini)%Q.
Proof.
  intros Hmax. induction n as [|n IH]; intros Hle.
  - destruct (feasible_inisoc m a Hbuild Hfeas v Hv)
      as (ini & s0 & Hini & H0 & Hs0 & Heq).
    split; [done|]. by exists ini, s0.
  - destruct IH as (Hin & ini & q & Hini & Hq & Heq); [lia|].
    assert (Z.of_nat n ∈ model_T) as Ht.
    { eapply below_terminal_flow; [done|done|done|done|lia]. }
    destruct (feasible_socconst m a Hbuild Hfeas v _ Hv Ht)
      as (E & pc & pd & s0 & s1 & HE & HE0 & Hnext & Hpc & Hpd & H0 & H1 & Hsoc).
    destruct (departed_flow_zero _ Ht) as (pc' & pd' & p & Hpc' & Hpd' & _ & Hc0 & Hd0 & _);
      [lia|].
    assert (pc' = pc) as -> by congruence.
    assert (pd' = pd) as -> by congruence.
    assert (s0 = q) as -> by congruence.
    replace (Z.of_nat (S n)) with (Z.of_nat n + 1) by lia.
    split; [done|]. exists ini, s1. do 2 (split; [done|]).
    rewrite Hsoc, Hc0, Hd0, Heq. unfold Qdiv. ring.
Qed.

End Departed.

(** A valuation that satisfies the model leaves a departed vehicle idle when
    no step of the horizon has a negative index. *)
Lemma departed_valuation_idle (m : ConcreteModel) (a : valuation)
    (v : string) (dep : Q) :
  (∀ t, t ∈ opt_horizon → 0 ≤ t) →
  build_model = Ok m → feasible m a = true →
  v ∈ V m → deptime !! v = Some dep → (dep <= 0)%Q →
  ∃ ini : Q, inisoc !! v = Some ini
    ∧ (∀ t, t ∈ T m → ∃ p : Q, a (p_ev v t) = Some p ∧ (p == 0)%Q)
    ∧ (∀ t, t ∈ Tp m → ∃ q : Q, a (s v t) = Some q ∧ (q == ini)%Q).
Proof.
  intros Hnonneg Hbuild Hfeas Hv Hdep Hgone.
  pose proof (build_model_Ok _ Hbuild) as (HV & HT & HTp & _).
  rewrite HV in Hv.
  destruct (feasible_inisoc m _ Hbuild Hfeas v Hv) as (ini & _ & Hini & _).
  exists ini. split; [done|]. split.
  - intros t Ht. rewrite HT in Ht.
    destruct (departed_flow_zero m _ Hbuild Hfeas v dep Hv Hdep Hgone t Ht)
      as (_ & _ & p & _ & _ & Hpv & _ & _ & Hp0).
    { by apply Hnonneg, model_T_horizon. }
    by exists p.
  - intros t Ht.
    rewrite HTp in Ht. unfold model_Tp in Ht. rewrite elem_of_remove_dups in Ht.
    destruct (py_max_nonempty _ _ Ht) as [tmax Hmax].
    pose proof (proj2 (py_max_Ok _ _ Hmax) t Ht) as Hle.
    pose proof (Hnonneg t Ht) as Hnn.
    destruct (departed_soc_constant m _ Hbuild Hfeas v dep Hv Hdep Hgone
                tmax (Z.to_nat t) Hmax) as (_ & ini' & q & Hini' & Hq & Heq);
      [lia|].
    rewrite Z2Nat.id in Hq by done.
    assert (ini' = ini) as -> by congruence.
    by exists q.
Qed.

(** Claim C9. On a horizon whose step indices are not negative (the steps
    0..H of a call), for every vehicle whose departure index is at most 0,
    every feasible solution has net power 0 at all flow steps and an SOC
    equal to the vehicle's initial SOC at all steps, the terminal one
    included; and hence so have the returned schedules, whenever the values
    the solver loaded are feasible. *)
Theorem departed_vehicle_idle (m : ConcreteModel) :
  (∀ t, t ∈ opt_horizon → 0 ≤ t) →
  build_model = Ok m →
  (∀ a, feasible m a = true →
     ∀ v dep, v ∈ V m → deptime !! v = Some dep → (dep <= 0)%Q →
       ∃ ini : Q, inisoc !! v = Some ini
         ∧ (∀ t, t ∈ T m → ∃ p : Q, a (p_ev v t) = Some p ∧ (p == 0)%Q)
         ∧ (∀ t, t ∈ Tp m → ∃ q : Q, a (s v t) = Some q ∧ (q == ini)%Q))
  ∧ (∀ res, solver m = Ok res → feasible m (values res) = true →
       ∃ p_schedule s_schedule,
         reschedule = Ok (p_schedule, s_schedule)
         ∧ ∀ v dep, v ∈ V m → deptime !! v = Some dep → (dep <= 0)%Q →
           ∃ ini : Q, inisoc !! v = Some ini
             ∧ (∀ t, t ∈ T m →
                  ∃ p : Q, entry p_schedule v t = Some (Some p) ∧ (p == 0)%Q)
             ∧ (∀ t, t ∈ Tp m →
                  ∃ q : Q, entry s_schedule v t = Some (Some q)
                    ∧ (q == ini)%Q)).
Proof.
  intros Hnonneg Hbuild. split.
  - intros a Hfeas v dep Hv Hdep Hgone.
    exact (departed_valuation_idle m a v dep Hnonneg Hbuild Hfeas Hv Hdep Hgone).
  - intros res Hsolve Hfeas.
    destruct (reschedule_returns m res Hbuild Hsolve)
      as (ps & ss & Hret & Hent).
    exists ps, ss. split; [done|]. intros v dep Hv Hdep Hgone.
    destruct (departed_valuation_idle m (values res) v dep Hnonneg Hbuild
                Hfeas Hv Hdep Hgone) as (ini & Hini & Hp & Hs).
    exists ini. split; [done|]. split.
    + intros t Ht. destruct (Hent v t Hv) as [_ Hpe]. rewrite (Hpe Ht).
      destruct (Hp t Ht) as (p & Hpv & Hp0). exists p. by rewrite Hpv.
    + intros t Ht. destruct (Hent v t Hv) as [Hse _]. rewrite (Hse Ht).
      destruct (Hs t Ht) as (q & Hqv & Hq0). exists q. by rewrite Hqv.
Qed.

(** ** Further properties of the returned schedules *)

(** The dictionaries have a row for a vehicle exactly when it is in the
    model, and a row has an entry exactly at the steps the loop visits. *)
Lemma save_results_keys a p_schedule s_schedule v t :
  save_results a = Ok (p_schedule, s_schedule) →
  (is_Some (entry s_schedule v t) ↔ v ∈ model_V ∧ t ∈ opt_horizon)
  ∧ (is_Some (entry p_schedule v t) ↔
       v ∈ model_V ∧ t ∈ opt_horizon
       ∧ ∃ tmax, py_max opt_horizon = Ok tmax ∧ t < tmax).
Proof.
  intros H. unfold save_results in H.
  destruct (save_vehicles_rows _ _ _ _ H v)
    as [(Hv & rows & Hrows & Hp & Hs)|(Hv & Hp & Hs)];
    simpl in Hp, Hs; unfold entry; rewrite Hp, Hs; simpl.
  2: { rewrite !lookup_empty. simpl. split; split;
         intros Hx; try (by destruct Hx as [? ?]); by destruct Hx. }
  destruct (save_steps_rows _ _ _ _ _ Hrows t)
    as [(Ht & Hst & Hpt)|(Ht & Hpt & Hst)]; simpl in Hpt, Hst.
  - rewrite Hst. split; [by split; eauto|].
    destruct (py_max_nonempty _ _ Ht) as [tmax Hmax].
    specialize (Hpt _ Hmax). case_bool_decide as Hlt.
    + rewrite Hpt. split; [intros _|by eauto]. eauto 10.
    + rewrite Hpt, lookup_empty. split; [by intros [? ?]|].
      intros (_ & _ & tmax' & Hmax' & Hlt').
      assert (tmax' = tmax) as -> by congruence. done.
  - rewrite Hst, Hpt, !lookup_empty. split; split;
      intros Hx; try (by destruct Hx as [? ?]); by destruct Hx as (? & ? & ?).
Qed.

(** Extra X1. The returned SOC trajectory of every vehicle starts at the
    vehicle's initial SOC. *)
Theorem returned_initial_soc (m : ConcreteModel) (res : SolverResults) :
  build_model = Ok m → solver m = Ok res →
  feasible m (values res) = true →
  ∃ p_schedule s_schedule,
    reschedule = Ok (p_schedule, s_schedule)
    ∧ ∀ v, v ∈ V m →
        ∃ ini q : Q, inisoc !! v = Some ini
          ∧ entry s_schedule v 0 = Some (Some q) ∧ (q == ini)%Q.
Proof.
  intros Hbuild Hsolve Hfeas.
  destruct (reschedule_returns m res Hbuild Hsolve) as (ps & ss & Hret & Hent).
  exists ps, ss. split; [done|]. intros v Hv.
  pose proof (build_model_Ok _ Hbuild) as (HV & _ & HTp & _).
  destruct (Hent v 0 Hv) as [Hs _]. rewrite HV in Hv.
  destruct (feasible_inisoc m _ Hbuild Hfeas v Hv)
    as (ini & s0 & Hini & H0 & Hs0 & Heq).
  exists ini, s0. rewrite Hs, Hs0; [done|].
  rewrite HTp. unfold model_Tp. by rewrite elem_of_remove_dups.
Qed.

(** Extra X2. Whatever the solver did, the returned power dictionary has an
    entry exactly for the vehicles of [bcap] at the flow steps, and the SOC
    dictionary exactly for those vehicles at all steps of the horizon: the
    terminal step carries a SOC and no power. *)
Theorem returned_schedule_keys (p_schedule s_schedule : schedule) :
  reschedule = Ok (p_schedule, s_schedule) →
  ∀ v t,
    (is_Some (entry s_schedule v t) ↔ is_Some (bcap !! v) ∧ t ∈ opt_horizon)
    ∧ (is_Some (entry p_schedule v t) ↔ is_Some (bcap !! v) ∧ t ∈ model_T)
    ∧ (∀ tmax, py_max opt_horizon = Ok tmax → entry p_schedule v tmax = None).
Proof.
  intros Hret v t.
  destruct (reschedule_Ok _ Hret) as (m & res & Hbuild & _ & Hsave).
  destruct (save_results_keys _ _ _ v t Hsave) as [Hs Hp].
  rewrite <- elem_of_model_V. split; [done|]. split.
  - rewrite Hp. split.
    + intros (Hv & Ht & tmax & Hmax & Hlt). split; [done|].
      by eapply below_terminal_flow.
    + intros [Hv Ht]. split; [done|]. split; [by apply model_T_horizon|].
      destruct (py_max_nonempty _ _ (model_T_horizon _ Ht)) as [tmax Hmax].
      exists tmax. split; [done|]. by eapply flow_step_lt.
  - intros tmax Hmax.
    destruct (save_results_keys _ _ _ v tmax Hsave) as [_ Hp'].
    destruct (entry p_schedule v tmax) eqn:He; [|done].
    destruct Hp' as [Hp' _]. destruct Hp' as (_ & _ & tmax' & Hmax' & Hlt); [eauto|].
    assert (tmax' = tmax) as -> by congruence. lia.
Qed.

(** Extra X3. A model with at least one vehicle only builds on a horizon
    that contains step 0, ends with its largest step, and has no gap
    between any of its steps and the largest one; its flow steps are then
    exactly the steps below the largest. *)
Theorem built_horizon_shape (m : ConcreteModel) :
  build_model = Ok m → bcap ≠ ∅ →
  ∃ tmax,
    py_max opt_horizon = Ok tmax
    ∧ 0 ∈ opt_horizon
    ∧ List.last opt_horizon 0 = tmax
    ∧ (∀ t, t ∈ T m ↔ t ∈ opt_horizon ∧ t < tmax)
    ∧ (∀ t t', t ∈ opt_horizon → t ≤ t' ≤ tmax → t' ∈ opt_horizon).
Proof.
  intros Hbuild Hne.
  assert (∃ v, v ∈ model_V) as [v Hv].
  { unfold model_V. destruct (map_to_list bcap) as [|[v q] l] eqn:Hl.
    - by apply map_to_list_empty_iff in Hl.
    - exists v. left. }
  pose proof (initial_step_in_horizon m Hbuild v Hv) as H0.
  destruct (py_max_nonempty _ _ H0) as [tmax Hmax]. exists tmax.
  pose proof (build_model_Ok _ Hbuild) as (_ & HT & _).
  assert (∀ t, t ∈ model_T ↔ t ∈ opt_horizon ∧ t < tmax) as Hflow.
  { intros t. split.
    - intros Ht. split; [by apply model_T_horizon | by eapply flow_step_lt].
    - intros [Ht Hlt]. by eapply below_terminal_flow. }
  split; [done|]. split; [done|]. split; [|split].
  - pose proof (proj1 (py_max_Ok _ _ Hmax)) as Hin.
    destruct (elem_of_removelast_or _ _ 0 Hin) as [Hrl|Hlast]; [|done].
    exfalso. apply (terminal_not_flow m Hbuild v Hv tmax Hmax).
    unfold model_T. by rewrite elem_of_remove_dups.
  - intros t. by rewrite HT.
  - intros t t' Ht [Hle Hle'].
    assert (∀ n : nat, t + Z.of_nat n ≤ tmax → (t + Z.of_nat n) ∈ opt_horizon)
      as Hup.
    { induction n as [|n IH]; intros Hn.
      - by rewrite Z.add_0_r.
      - replace (t + Z.of_nat (S n)) with (t + Z.of_nat n + 1) by lia.
        apply (flow_step_next m Hbuild v Hv). apply Hflow.
        split; [apply IH|]; lia. }
    replace t' with (t + Z.of_nat (Z.to_nat (t' - t))) by lia.
    apply Hup. lia.
Qed.

(** Extra X4. The returned net power respects the power limits: it is zero
    from the departure step on, and before departure the vehicle either
    charges with at most its maximum charge power or discharges with at
    most its maximum discharge power. *)
Theorem returned_power_within_limits (m : ConcreteModel) (res : SolverResults) :
  build_model = Ok m → solver m = Ok res →
  feasible m (values res) = true →
  ∃ p_schedule s_schedule,
    reschedule = Ok (p_schedule, s_schedule)
    ∧ ∀ v t, v ∈ V m → t ∈ T m →
        ∃ dep p : Q,
          deptime !! v = Some dep
          ∧ entry p_schedule v t = Some (Some p)
          ∧ ((dep <= inject_Z t)%Q → (p == 0)%Q)
          ∧ ((inject_Z t < dep)%Q →
               ∃ Pc Pd : Q,
                 pmax_pos !! v = Some Pc ∧ pmax_neg !! v = Some Pd
                 ∧ (((0 <= p)%Q ∧ (p <= Pc)%Q)
                    ∨ ((- Pd <= p)%Q ∧ (p <= 0)%Q))).
Proof.
  intros Hbuild Hsolve Hfeas.
  destruct (reschedule_returns m res Hbuild Hsolve) as (ps & ss & Hret & Hent).
  exists ps, ss. split; [done|]. intros v t Hv Ht.
  pose proof (build_model_Ok _ Hbuild) as (HV & HT & _).
  destruct (Hent v t Hv) as [_ Hp]. specialize (Hp Ht).
  rewrite HV in Hv. rewrite HT in Ht.
  destruct (feasible_combconst m _ Hbuild Hfeas v t Hv Ht)
    as (dep & pc & pd & Hdep & Hpc & Hpd & Hcomb).
  destruct (feasible_chrpowconst m _ Hbuild Hfeas v t Hv Ht)
    as (p & pc' & pd' & Hpv & Hpc' & Hpd' & Hdec).
  assert (pc' = pc) as -> by congruence.
  assert (pd' = pd) as -> by congruence.
  pose proof (nonneg_domain m _ Hfeas (p_ev_pos v t) pc eq_refl
                (declared_p_ev_pos m Hbuild v t Hv Ht) Hpc) as Hpc0.
  pose proof (nonneg_domain m _ Hfeas (p_ev_neg v t) pd eq_refl
                (declared_p_ev_neg m Hbuild v t Hv Ht) Hpd) as Hpd0.
  exists dep, p. rewrite Hp, Hpv. do 2 (split; [done|]).
  unfold py_ge in Hcomb. split.
  - intros Hle. apply Qle_bool_iff in Hle. rewrite Hle in Hcomb. lra.
  - intros Hlt. destruct (Qle_bool dep (inject_Z t)) eqn:Hle.
    { apply Qle_bool_iff in Hle. lra. }
    destruct Hcomb as (x & Pc & Pd & Hx & HPc & HPd & Hc & Hd).
    exists Pc, Pd. do 2 (split; [done|]).
    destruct (binary_domain m _ Hbuild Hfeas v t x Hv Ht Hx) as [Hx0|Hx1].
    + right. rewrite Hx0 in Hc, Hd. lra.
    + left. rewrite Hx1 in Hc, Hd. lra.
Qed.

(** Extra X5. From the departure step on the returned SOC no longer
    changes from one step to the next. *)
Theorem returned_soc_frozen_after_departure (m : ConcreteModel)
    (res : SolverResults) :
  build_model = Ok m → solver m = Ok res →
  feasible m (values res) = true →
  ∃ p_schedule s_schedule,
    reschedule = Ok (p_schedule, s_schedule)
    ∧ ∀ v t dep, v ∈ V m → t ∈ T m →
        deptime !! v = Some dep → (dep <= inject_Z t)%Q →
        ∃ s0 s1 : Q,
          entry s_schedule v t = Some (Some s0)
          ∧ entry s_schedule v (t + 1) = Some (Some s1)
          ∧ (s1 == s0)%Q.
Proof.
  intros Hbuild Hsolve Hfeas.
  destruct (reschedule_returns m res Hbuild Hsolve) as (ps & ss & Hret & Hent).
  exists ps, ss. split; [done|]. intros v t dep Hv Ht Hdep Hle.
  pose proof (build_model_Ok _ Hbuild) as (HV & HT & HTp & _).
  destruct (Hent v t Hv) as [Hs _]. destruct (Hent v (t + 1) Hv) as [Hs1 _].
  rewrite HV in Hv. rewrite HT in Ht.
  destruct (feasible_socconst m _ Hbuild Hfeas v t Hv Ht)
    as (E & pc & pd & s0 & s1 & HE & HE0 & Hnext & Hpc & Hpd & H0 & H1 & Hsoc).
  destruct (feasible_combconst m _ Hbuild Hfeas v t Hv Ht)
    as (dep' & pc' & pd' & Hdep' & Hpc' & Hpd' & Hcomb).
  assert (dep' = dep) as -> by congruence.
  assert (pc' = pc) as -> by congruence.
  assert (pd' = pd) as -> by congruence.
  unfold py_ge in Hcomb. apply Qle_bool_iff in Hle. rewrite Hle in Hcomb.
  destruct Hcomb as [Hc0 Hd0].
  exists s0, s1. rewrite Hs, Hs1, H0, H1.
  - do 2 (split; [done|]). rewrite Hsoc, Hc0, Hd0. unfold Qdiv. ring.
  - rewrite HTp. unfold model_Tp. by rewrite elem_of_remove_dups.
  - rewrite HTp. by apply model_T_Tp.
Qed.

Lemma step_sum_ext (f g : Z → Q) (n : nat) :
  (∀ k : nat, (k < n)%nat → f (Z.of_nat k) = g (Z.of_nat k)) →
  step_sum f n = step_sum g n.
Proof.
  induction n as [|n IH]; intros Hfg; simpl; [done|].
  rewrite IH, Hfg; [done|lia|]. intros k Hk. apply Hfg. lia.
Qed.

(** The SOC at step [n] is the initial SOC plus the energy charged over the
    steps before [n], relative to the capacity. *)
Lemma soc_running_sum (m : ConcreteModel) (a : valuation) (v : string)
    (tmax : Z) (n : nat) :
  build_model = Ok m → feasible m a = true → v ∈ model_V →
  py_max opt_horizon = Ok tmax → Z.of_nat n ≤ tmax →
  Z.of_nat n ∈ opt_horizon
  ∧ ∃ ini E q : Q,
      inisoc !! v = Some ini ∧ bcap !! v = Some E
      ∧ a (s v (Z.of_nat n)) = Some q
      ∧ (q == ini + step_sum (λ k, default 0 (a (p_ev v k))) n / E * opt_step)%Q.
Proof.
  intros Hbuild Hfeas Hv Hmax. induction n as [|n IH]; intros Hle.
  - destruct (feasible_inisoc m a Hbuild Hfeas v Hv)
      as (ini & s0 & Hini & H0 & Hs0 & Heq).
    split; [done|]. apply elem_of_model_V in Hv as Hcap. destruct Hcap as [E HE].
    exists ini, E, s0. do 3 (split; [done|]). simpl. rewrite Heq.
    unfold Qdiv. ring.
  - destruct IH as (Hin & ini & E & q & Hini & HE & Hq & Heq); [lia|].
    assert (Z.of_nat n ∈ model_T) as Ht.
    { eapply below_terminal_flow; [done|done|done|done|lia]. }
    destruct (feasible_socconst m a Hbuild Hfeas v _ Hv Ht)
      as (E' & pc & pd & s0 & s1 & HE' & _ & Hnext & Hpc & Hpd & H0 & H1 & Hsoc).
    destruct (feasible_chrpowconst m a Hbuild Hfeas v _ Hv Ht)
      as (p & pc' & pd' & Hp & Hpc' & Hpd' & Hdec).
    assert (E' = E) as -> by congruence.
    assert (pc' = pc) as -> by congruence.
    assert (pd' = pd) as -> by congruence.
    assert (s0 = q) as -> by congruence.
    replace (Z.of_nat (S n)) with (Z.of_nat n + 1) by lia.
    split; [done|]. exists ini, E, s1. do 3 (split; [done|]).
    simpl. rewrite Hp. simpl. rewrite Hsoc, Heq, Hdec. unfold Qdiv. ring.
Qed.

(** Extra X6. Energy balance of the returned schedules: at every step
    [n >= 0] of the horizon the returned SOC equals the initial SOC plus
    the sum of the returned net powers of the steps 0 .. n-1, divided by
    the capacity and multiplied by the step length. *)
Theorem returned_energy_balance (m : ConcreteModel) (res : SolverResults) :
  build_model = Ok m → solver m = Ok res →
  feasible m (values res) = true →
  ∃ p_schedule s_schedule,
    reschedule = Ok (p_schedule, s_schedule)
    ∧ ∀ v (n : nat), v ∈ V m → Z.of_nat n ∈ Tp m →
        ∃ ini E q : Q,
          inisoc !! v = Some ini ∧ bcap !! v = Some E
          ∧ entry s_schedule v (Z.of_nat n) = Some (Some q)
          ∧ (q == ini + step_sum (entry_value p_schedule v) n / E * opt_step)%Q.
Proof.
  intros Hbuild Hsolve Hfeas.
  destruct (reschedule_returns m res Hbuild Hsolve) as (ps & ss & Hret & Hent).
  exists ps, ss. split; [done|]. intros v n Hv Hn.
  pose proof (build_model_Ok _ Hbuild) as (HV & HT & HTp & _).
  destruct (Hent v (Z.of_nat n) Hv) as [Hs _]. specialize (Hs Hn).
  rewrite HTp in Hn. unfold model_Tp in Hn. rewrite elem_of_remove_dups in Hn.
  pose proof Hv as Hv'. rewrite HV in Hv'.
  destruct (py_max_nonempty _ _ Hn) as [tmax Hmax].
  pose proof (proj2 (py_max_Ok _ _ Hmax) _ Hn) as Hle.
  destruct (soc_running_sum m _ v tmax n Hbuild Hfeas Hv' Hmax Hle)
    as (_ & ini & E & q & Hini & HE & Hq & Heq).
  exists ini, E, q. rewrite Hs, Hq. do 3 (split; [done|]).
  rewrite (step_sum_ext (entry_value ps v)
             (λ k, default 0%Q (values res (p_ev v k))) n); [done|].
  intros k Hk. unfold entry_value.
  destruct (soc_running_sum m _ v tmax k Hbuild Hfeas Hv' Hmax) as [Hkin _]; [lia|].
  destruct (Hent v (Z.of_nat k) Hv) as [_ Hp]. rewrite Hp; [done|].
  rewrite HT. eapply below_terminal_flow; [done|done|done|done|lia].
Qed.

(** Extra X7. What every feasible model needs from its inputs: a
    non-negative tolerance, limits that cross by at most twice the
    tolerance at every flow step, a non-negative initial SOC, and, when
    step 0 is a flow step, an initial SOC within the SOC bounds. *)
Theorem feasibility_requirements (m : ConcreteModel) (a : valuation) :
  build_model = Ok m → feasible m a = true →
  (0 <= tolerance)%Q
  ∧ (∀ t, t ∈ T m →
       ∃ up low : Q, upperlimit !! t = Some up ∧ lowerlimit !! t = Some low
         ∧ (low - tolerance <= up + tolerance)%Q)
  ∧ (∀ v, v ∈ V m →
       ∃ ini : Q, inisoc !! v = Some ini ∧ (0 <= ini)%Q
         ∧ (0 ∈ T m →
              ∃ lo hi : Q, minsoc !! v = Some lo ∧ maxsoc !! v = Some hi
                ∧ (lo <= ini)%Q ∧ (ini <= hi)%Q)).
Proof.
  intros Hbuild Hfeas.
  pose proof (build_model_Ok _ Hbuild) as (HV & HT & _).
  destruct (feasible_viol_clust m a Hbuild Hfeas) as (e & He & He0 & Hetol).
  split; [lra|]. split.
  - intros t Ht. rewrite HT in Ht.
    destruct (feasible_cluster_limits m a Hbuild Hfeas t e He Ht)
      as (P & up & low & _ & Hup & Hlow & Hle1 & Hle2).
    exists up, low. do 2 (split; [done|]). lra.
  - intros v Hv. rewrite HV in Hv.
    destruct (feasible_inisoc m a Hbuild Hfeas v Hv)
      as (ini & s0 & Hini & H0 & Hs0 & Heq).
    exists ini. split; [done|]. split.
    + pose proof (nonneg_domain m a Hfeas (s v 0) s0 eq_refl
                    (declared_s m Hbuild v 0 Hv H0) Hs0). lra.
    + intros Ht. rewrite HT in Ht.
      destruct (feasible_soc_bounds m a Hbuild Hfeas v 0 Hv Ht)
        as (lo & hi & q & Hlo & Hhi & Hq & Hle1 & Hle2).
      assert (q = s0) as -> by congruence.
      exists lo, hi. do 2 (split; [done|]). split; lra.
Qed.

(** Extra X8. A vehicle with battery capacity zero or charging efficiency
    zero makes the model-building step raise as soon as there is a flow
    step: the rules divide by these numbers. *)
Theorem zero_divisor_raises (v : string) (t : Z) (d : Q) :
  v ∈ model_V → t ∈ model_T →
  bcap !! v = Some d ∨ ch_eff !! v = Some d → (d == 0)%Q →
  ∃ e, builtin_lookup_error e ∧ build_model = Raise e ∧ reschedule = Raise e.
Proof.
  intros Hv Ht Hd H0. apply Qeq_bool_iff in H0.
  destruct build_model as [m|e] eqn:Hbuild.
  - exfalso. pose proof (build_model_Ok _ Hbuild)
      as (_ & _ & _ & _ & _ & _ & H4 & _ & _ & _ & H8 & _).
    destruct Hd as [Hd|Hd].
    + destruct (Constraint_VT_elem _ _ _ _ H4 Hv Ht) as (c & Hc & _).
      unfold storageConservation in Hc. invert_rule Hc.
      match goal with
      | Hl : bcap !! v = Some ?E, Hz : Qeq_bool ?E 0 = false |- _ =>
          assert (E = d) as -> by congruence; congruence
      end.
    + destruct (mapM_Ok_elem _ _ _ _ H8 Ht) as (c & Hc & _).
      unfold ccpower in Hc. apply bind_Ok in Hc as (pcc & _ & Hc).
      apply bind_Ok in Hc as (terms & Hterms & _).
      destruct (mapM_Ok_elem _ _ _ _ Hterms Hv) as (e & He & _).
      unfold ccpower_term in He. invert_rule He.
      match goal with
      | Hl : ch_eff !! v = Some ?E, Hz : Qeq_bool ?E 0 = false |- _ =>
          assert (E = d) as -> by congruence; congruence
      end.
  - exists e. split; [by apply build_model_Raise|]. split; [done|].
    unfold reschedule. by rewrite Hbuild.
Qed.

(** ** The objective at an optimum *)

Lemma foldr_Qplus_Forall2 {A : Type} (f : A → Q) (l : list A) (qs : list Q) :
  Forall2 (λ x q, q = f x) l qs →
  foldr Qplus 0%Q qs = foldr (λ x acc, f x + acc)%Q 0%Q l.
Proof. induction 1 as [|x q l qs' -> _ IH]; simpl; [done | by rewrite IH]. Qed.

Lemma objective_as_slack_energy (m : ConcreteModel) (a : valuation) (O : Q) :
  build_model = Ok m → eval a (obj m) = Some O →
  ∃ e : Q, a eps = Some e
    ∧ (O == rho_y * slack_energy a model_V + rho_eps * e)%Q.
Proof.
  intros Hbuild HO. pose proof (build_model_Ok _ Hbuild) as Hm.
  assert (obj_rule = Ok (obj m)) as Hobj by tauto.
  apply obj_rule_Ok in Hobj as (terms & Heq & Hterms). rewrite Heq in HO.
  simpl in HO.
  destruct (eval a (py_sum terms)) as [tot|] eqn:Htot; [|discriminate].
  destruct (a eps) as [e|]; [|discriminate]. simpl in HO. injection HO as <-.
  exists e. split; [done|].
  apply eval_py_sum_inv in Htot as (q0 & qs & H0 & Hqs & ->).
  injection H0 as <-.
  assert (Forall2 (λ v q, q = (default 0 (a (y v)) * default 0 (bcap !! v)
                               / 3600)%Q) model_V qs) as Hsum.
  { refine (Forall2_chain _ _ _ _ _ _ _ Hterms Hqs).
    intros v e' q (E & HE & ->) Hq. simpl in Hq. rewrite HE.
    destruct (a (y v)) as [yv|]; [|discriminate]. simpl in Hq |- *.
    by injection Hq as <-. }
  rewrite fold_left_Qplus.
  assert (foldr Qplus 0%Q qs = slack_energy a model_V) as ->; [|lra].
  unfold slack_energy. by apply foldr_Qplus_Forall2.
Qed.

Lemma slack_energy_nonneg (m : ConcreteModel) (a : valuation) (l : list string) :
  build_model = Ok m → feasible m a = true →
  (∀ v E, bcap !! v = Some E → (0 <= E)%Q) →
  l ⊆ model_V → (0 <= slack_energy a l)%Q.
Proof.
  intros Hbuild Hfeas Hcap. induction l as [|v l IH]; intros Hsub; simpl.
  - lra.
  - assert (v ∈ model_V) as Hv by (apply Hsub; left).
    assert (0 <= slack_energy a l)%Q as Hl.
    { apply IH. intros x Hx. apply Hsub. by right. }
    assert (0 <= default 0 (a (y v)))%Q as Hy.
    { destruct (a (y v)) as [yv|] eqn:Hyv; simpl; [|lra].
      by apply (nonneg_domain m a Hfeas (y v) yv eq_refl (declared_y m Hbuild v Hv)). }
    assert (0 <= default 0 (bcap !! v))%Q as HE.
    { destruct (bcap !! v) as [E|] eqn:HEv; simpl; [by eapply Hcap | lra]. }
    pose proof (Qmult_le_0_compat _ _ Hy HE) as Hprod.
    unfold Qdiv. 
    assert (0 <= default 0 (a (y v)) * default 0 (bcap !! v) * / 3600)%Q.
    { apply Qmult_le_0_compat; [done | discriminate]. }
    lra.
Qed.

Lemma objective_nonneg (m : ConcreteModel) (a : valuation) (O : Q) :
  build_model = Ok m → feasible m a = true →
  (0 <= rho_y)%Q → (0 <= rho_eps)%Q →
  (∀ v E, bcap !! v = Some E → (0 <= E)%Q) →
  eval a (obj m) = Some O → (0 <= O)%Q.
Proof.
  intros Hbuild Hfeas Hry Hre Hcap HO.
  destruct (objective_as_slack_energy m a O Hbuild HO) as (e & He & ->).
  destruct (feasible_viol_clust m a Hbuild Hfeas) as (e' & He' & He0 & _).
  assert (e' = e) as -> by congruence.
  pose proof (slack_energy_nonneg m a model_V Hbuild Hfeas Hcap
                (reflexivity _)) as Hs.
  pose proof (Qmult_le_0_compat _ _ Hry Hs).
  pose proof (Qmult_le_0_compat _ _ Hre He0). lra.
Qed.

(** Extra X9. With non-negative penalty factors and capacities the
    objective has a value at every feasible valuation, and that value is
    never negative. *)
Theorem objective_never_negative (m : ConcreteModel) (a : valuation) :
  build_model = Ok m → feasible m a = true →
  (0 <= rho_y)%Q → (0 <= rho_eps)%Q →
  (∀ v E, bcap !! v = Some E → (0 <= E)%Q) →
  ∃ O : Q, eval a (obj m) = Some O ∧ (0 <= O)%Q.
Proof.
  intros Hbuild Hfeas Hry Hre Hcap.
  destruct (objective_value m a Hbuild Hfeas) as (O & _ & HO & _).
  exists O. split; [done|]. by eapply objective_nonneg.
Qed.

Lemma slack_energy_assign (a : valuation) (v : string) (q : Q) (l : list string) :
  NoDup l →
  (slack_energy (assign a (y v) q) l ==
   slack_energy a l
   + if decide (v ∈ l)
     then (q - default 0 (a (y v))) * default 0 (bcap !! v) / 3600
     else 0)%Q.
Proof.
  induction 1 as [|x l Hx Hl IH]; simpl.
  - lra.
  - fold (slack_energy (assign a (y v) q) l) (slack_energy a l).
    rewrite IH. destruct (decide (x = v)) as [->|Hne].
    + rewrite assign_same. simpl.
      rewrite (decide_False (P := v ∈ l)) by done.
      rewrite decide_True by left. unfold Qdiv. ring.
    + rewrite assign_other by congruence.
      destruct (decide (v ∈ l)) as [Hin|Hnin].
      * rewrite decide_True by (by right). unfold Qdiv. ring.
      * rewrite decide_False; [lra|].
        intros [?|?]%elem_of_cons; [congruence | done].
Qed.

(** Setting a deviation slack to any number that still dominates the
    deviation on both sides keeps a feasible valuation feasible. *)
Lemma set_slack_feasible (m : ConcreteModel) (a : valuation) (v : string)
    (tmax : Z) (tar sl q : Q) :
  build_model = Ok m → feasible m a = true →
  py_max opt_horizon = Ok tmax → tarsoc !! v = Some tar →
  a (s v tmax) = Some sl → y v ∈ declared_vars m →
  (tar - sl <= q)%Q → (- q <= tar - sl)%Q →
  feasible m (assign a (y v) q) = true.
Proof.
  intros Hbuild Hfeas Hmax Htar Hsl Hdecl Hpos Hneg.
  apply feasible_iff in Hfeas as [Hcs Hdom]. apply feasible_iff. split.
  - intros c Hc. specialize (Hcs c Hc).
    destruct (posted_mentions_slack c v (constraints_posted m c Hbuild Hc))
      as [Hfresh|[Hr|Hr]].
    + by rewrite holds_assign_fresh.
    + unfold individual_pos_deviation in Hr. invert_rule Hr. subst c.
      match goal with
      | H1 : py_max _ = Ok ?t1, H2 : tarsoc !! v = Some ?q1 |- _ =>
          assert (t1 = tmax) as -> by congruence;
          assert (q1 = tar) as -> by congruence
      end.
      unfold holds. simpl. rewrite assign_same, assign_other by done.
      rewrite Hsl. simpl. by apply Qle_bool_iff.
    + unfold individual_neg_deviation in Hr. invert_rule Hr. subst c.
      match goal with
      | H1 : py_max _ = Ok ?t1, H2 : tarsoc !! v = Some ?q1 |- _ =>
          assert (t1 = tmax) as -> by congruence;
          assert (q1 = tar) as -> by congruence
      end.
      unfold holds. simpl. rewrite assign_same, assign_other by done.
      rewrite Hsl. simpl. by apply Qle_bool_iff.
  - intros x q' Hx Hq'. destruct (decide (x = y v)) as [->|Hne].
    + rewrite assign_same in Hq'. injection Hq' as <-. simpl.
      apply Qle_bool_iff. lra.
    + rewrite assign_other in Hq' by done. by eapply Hdom.
Qed.

(** Extra X10. At an optimal valuation the deviation slack of a vehicle
    with positive capacity equals the absolute deviation of its terminal
    SOC from its target SOC, provided the deviation penalty is positive. *)
Theorem optimal_slack_is_absolute_deviation (m : ConcreteModel) (a : valuation)
    (v : string) (E : Q) :
  build_model = Ok m → minimiser m a →
  (0 < rho_y)%Q → bcap !! v = Some E → (0 < E)%Q →
  ∃ (tmax : Z) (tar sl yv : Q),
    py_max opt_horizon = Ok tmax ∧ tarsoc !! v = Some tar
    ∧ a (s v tmax) = Some sl ∧ a (y v) = Some yv
    ∧ (yv == Qabs (tar - sl))%Q.
Proof.
  intros Hbuild [Hfeas Hopt] Hry HE HE0.
  assert (v ∈ model_V) as Hv by (apply elem_of_model_V; eauto).
  destruct (feasible_deviation m a Hbuild Hfeas v Hv)
    as (tmax & tar & sl & yv & Hmax & Htar & Hsl & Hyv & Hpos & Hneg).
  exists tmax, tar, sl, yv. do 4 (split; [done|]).
  assert (Qabs (tar - sl) <= yv)%Q as Hle
    by (apply Qabs_Qle_condition; split; lra).
  destruct (Qlt_le_dec (Qabs (tar - sl)) yv) as [Hlt|Hge]; [|lra].
  exfalso. set (q := Qabs (tar - sl)) in *.
  assert (feasible m (assign a (y v) q) = true) as Hfeas'.
  { eapply set_slack_feasible; try done.
    - by apply declared_y.
    - apply Qle_Qabs.
    - pose proof (Qle_Qabs (- (tar - sl))) as Hq. rewrite Qabs_opp in Hq.
      fold q in Hq. lra. }
  destruct (objective_value m a Hbuild Hfeas) as (O & _ & HO & _).
  destruct (objective_value m _ Hbuild Hfeas') as (O' & _ & HO' & _).
  pose proof (Hopt _ O O' Hfeas' HO HO') as Hmin.
  destruct (objective_as_slack_energy m a O Hbuild HO) as (e & He & HOeq).
  destruct (objective_as_slack_energy m _ O' Hbuild HO') as (e' & He' & HOeq').
  rewrite assign_other in He' by done.
  assert (e' = e) as -> by congruence.
  rewrite slack_energy_assign in HOeq' by apply NoDup_fst_map_to_list.
  rewrite decide_True in HOeq' by done. rewrite Hyv, HE in HOeq'. simpl in HOeq'.
  assert (0 < (yv - q) * E * / 3600)%Q as Hgain.
  { apply Qmult_lt_0_compat; [|reflexivity].
    apply Qmult_lt_0_compat; lra. }
  assert (0 < rho_y * ((yv - q) * E * / 3600))%Q as Hgain'
    by (by apply Qmult_lt_0_compat).
  unfold Qdiv in HOeq'.
  assert (O' == O - rho_y * ((yv - q) * E * / 3600))%Q as Hdiff.
  { rewrite HOeq', HOeq. ring. }
  lra.
Qed.

(** ** Horizons built with [range] *)

Lemma remove_dups_NoDup {A : Type} `{EqDecision A} (l : list A) :
  NoDup l → remove_dups l = l.
Proof.
  induction 1 as [|x l Hx _ IH]; simpl; [done|].
  destruct (decide_rel elem_of x l); [done|]. by rewrite IH.
Qed.

Lemma removelast_snoc {A : Type} (l : list A) (x : A) :
  removelast (l ++ [x]) = l.
Proof. rewrite removelast_app by done. simpl. by rewrite app_nil_r. Qed.

Lemma range_flow_steps (H : nat) :
  opt_horizon = py_range (Z.of_nat H + 1) →
  model_T = py_range (Z.of_nat H) ∧ model_Tp = py_range (Z.of_nat H + 1).
Proof.
  intros Hh. unfold model_T, model_Tp. rewrite Hh. unfold py_range.
  replace (Z.of_nat H + 1) with (Z.of_nat (S H)) by lia.
  rewrite seqZ_S, removelast_snoc, <- seqZ_S.
  split; apply remove_dups_NoDup, NoDup_seqZ.
Qed.

(** Extra X12. On a horizon built as [range(n)] the statement of scenario C
    holds at every step: a vehicle with departure index at most 0 gets net
    power 0 at all flow steps and its initial SOC at all steps. *)
Theorem departed_vehicle_idle_on_range (n : Z) (m : ConcreteModel)
    (res : SolverResults) :
  opt_horizon = py_range n →
  build_model = Ok m → solver m = Ok res →
  feasible m (values res) = true →
  ∃ p_schedule s_schedule,
    reschedule = Ok (p_schedule, s_schedule)
    ∧ ∀ v dep, v ∈ V m → deptime !! v = Some dep → (dep <= 0)%Q →
      ∃ ini : Q, inisoc !! v = Some ini
        ∧ (∀ t, t ∈ T m →
             ∃ p : Q, entry p_schedule v t = Some (Some p) ∧ (p == 0)%Q)
        ∧ (∀ t, t ∈ Tp m →
             ∃ q : Q, entry s_schedule v t = Some (Some q) ∧ (q == ini)%Q).
Proof.
  intros Hrange Hbuild Hsolve Hfeas.
  assert (∀ t, t ∈ opt_horizon → 0 ≤ t) as Hnonneg.
  { intros t Ht. rewrite Hrange in Ht. apply elem_of_seqZ in Ht. lia. }
  destruct (reschedule_returns m res Hbuild Hsolve) as (ps & ss & Hret & Hent).
  exists ps, ss. split; [done|]. intros v dep Hv Hdep Hgone.
  pose proof (build_model_Ok _ Hbuild) as (HV & HT & HTp & _).
  pose proof Hv as Hv'. rewrite HV in Hv'.
  destruct (feasible_inisoc m _ Hbuild Hfeas v Hv') as (ini & _ & Hini & _).
  exists ini. split; [done|]. split.
  - intros t Ht. destruct (Hent v t Hv) as [_ Hp]. rewrite (Hp Ht).
    rewrite HT in Ht.
    destruct (departed_flow_zero m _ Hbuild Hfeas v dep Hv' Hdep Hgone t Ht)
      as (_ & _ & p & _ & _ & Hpv & _ & _ & Hp0).
    { by apply Hnonneg, model_T_horizon. }
    exists p. by rewrite Hpv.
  - intros t Ht. destruct (Hent v t Hv) as [Hs _]. rewrite (Hs Ht).
    rewrite HTp in Ht. unfold model_Tp in Ht. rewrite elem_of_remove_dups in Ht.
    destruct (py_max_nonempty _ _ Ht) as [tmax Hmax].
    pose proof (proj2 (py_max_Ok _ _ Hmax) t Ht) as Hle.
    pose proof (Hnonneg t Ht) as Hnn.
    destruct (departed_soc_constant m _ Hbuild Hfeas v dep Hv' Hdep Hgone
                tmax (Z.to_nat t) Hmax) as (_ & ini' & q & Hini' & Hq & Heq);
      [lia|].
    rewrite Z2Nat.id in Hq by done.
    assert (ini' = ini) as -> by congruence.
    exists q. by rewrite Hq.
Qed.

(** ** Inputs on which nothing raises *)

Lemma mapM_total {A B : Type} (f : A → result B) (l : list A) :
  (∀ x, x ∈ l → ∃ z, f x = Ok z) → ∃ k, mapM f l = Ok k.
Proof.
  induction l as [|x l IH]; intros Hf; simpl; [by eexists|].
  destruct (Hf x) as [z ->]; [left|]. simpl.
  destruct IH as [k ->]; [|simpl; by eexists].
  intros x' Hx'. apply Hf. by right.
Qed.

Lemma Constraint_VT_total rule :
  (∀ v t, v ∈ model_V → t ∈ model_T → ∃ c, rule v t = Ok c) →
  ∃ cs, Constraint_VT rule = Ok cs.
Proof.
  intros Hr. unfold Constraint_VT. apply mapM_total.
  intros [v t] Hvt. apply list_elem_of_In, in_prod_iff in Hvt as [Hv Ht].
  apply Hr; by apply list_elem_of_In.
Qed.

Lemma index_VT_total mk v t :
  v ∈ model_V → t ∈ model_T → index_VT mk v t = Ok (mk v t).
Proof. intros. unfold index_VT. by rewrite decide_True. Qed.

Lemma index_VTp_total mk v t :
  v ∈ model_V → t ∈ opt_horizon → index_VTp mk v t = Ok (mk v t).
Proof.
  intros. unfold index_VTp, model_Tp. rewrite decide_True; [done|].
  by rewrite elem_of_remove_dups.
Qed.

Lemma index_T_total mk t : t ∈ model_T → index_T mk t = Ok (mk t).
Proof. intros. unfold index_T. by rewrite decide_True. Qed.

Lemma index_V_total mk v : v ∈ model_V → index_V mk v = Ok (mk v).
Proof. intros. unfold index_V. by rewrite decide_True. Qed.

Lemma getitem_total `{Countable K} (d : gmap K Q) (k : K) (q : Q) :
  d !! k = Some q → getitem d k = Ok q.
Proof. unfold getitem. by intros ->. Qed.

Lemma py_div_total (e : expr) (c : Q) :
  ¬ (c == 0)%Q → py_div e c = Ok (EDiv e (ENum c)).
Proof.
  intros Hc. unfold py_div. destruct (Qeq_bool c 0) eqn:Hb; [|done].
  by apply Qeq_bool_iff in Hb.
Qed.

Section WellFormed.

Variable H : nat.
Hypothesis Hwf : well_formed_inputs H.

Lemma wf_flow_steps t : t ∈ model_T ↔ 0 ≤ t < Z.of_nat H.
Proof.
  destruct (range_flow_steps H (wf_horizon H Hwf)) as [-> _].
  unfold py_range. rewrite elem_of_seqZ. lia.
Qed.

Lemma wf_steps t : t ∈ opt_horizon ↔ 0 ≤ t ≤ Z.of_nat H.
Proof.
  rewrite (wf_horizon H Hwf). unfold py_range. rewrite elem_of_seqZ. lia.
Qed.

Lemma wf_max : py_max opt_horizon = Ok (Z.of_nat H).
Proof.
  destruct (py_max_nonempty opt_horizon 0) as [tmax Hmax].
  { apply wf_steps. lia. }
  rewrite Hmax. f_equal. apply py_max_Ok in Hmax as [Hin Hle].
  apply wf_steps in Hin. specialize (Hle (Z.of_nat H)).
  rewrite wf_steps in Hle. lia.
Qed.

(** Every rule call returns a constraint. *)
Ltac rule_total :=
  repeat match goal with
  | Hs : is_Some _ |- _ => destruct Hs as [? ?]
  end;
  repeat first
    [ rewrite index_VT_total by (try done; apply wf_flow_steps; lia)
    | rewrite index_VTp_total by (try done; apply wf_steps; lia)
    | rewrite index_T_total by (try done; apply wf_flow_steps; lia)
    | rewrite index_V_total by done
    | erewrite getitem_total by eassumption
    | rewrite py_div_total by (first [discriminate | by eapply wf_capacity
                                                   | by eapply wf_efficiency])
    | rewrite wf_max
    | progress simpl ];
  try (by eexists).

Lemma wf_rules v t :
  v ∈ model_V → t ∈ model_T →
  (∃ c, initialsoc v = Ok c) ∧ (∃ c, minimumsoc v t = Ok c)
  ∧ (∃ c, maximumsoc v t = Ok c) ∧ (∃ c, storageConservation v t = Ok c)
  ∧ (∃ c, chargepowerlimit v t = Ok c) ∧ (∃ c, combinatorics_ch v t = Ok c)
  ∧ (∃ c, combinatorics_ds v t = Ok c) ∧ (∃ e, ccpower_term t v = Ok e).
Proof.
  intros Hv Ht. pose proof Hv as Hcap. apply elem_of_model_V in Hcap.
  pose proof (wf_vehicle H Hwf v Hcap)
    as (H1 & H2 & H3 & H4 & H5 & H6 & H7 & H8 & H9).
  pose proof Ht as Ht'. apply wf_flow_steps in Ht'.
  unfold initialsoc, minimumsoc, maximumsoc, storageConservation,
    chargepowerlimit, combinatorics_ch, combinatorics_ds, ccpower_term.
  repeat split; rule_total.
  - destruct (py_ge t _); rule_total.
  - destruct (py_ge t _); rule_total.
Qed.

Lemma wf_vehicle_rules v :
  v ∈ model_V →
  (∃ c, initialsoc v = Ok c) ∧ (∃ c, individual_pos_deviation v = Ok c)
  ∧ (∃ c, individual_neg_deviation v = Ok c) ∧ (∃ e, obj_term v = Ok e).
Proof.
  intros Hv. pose proof Hv as Hcap. apply elem_of_model_V in Hcap.
  pose proof (wf_vehicle H Hwf v Hcap)
    as (H1 & H2 & H3 & H4 & H5 & H6 & H7 & H8 & H9).
  unfold initialsoc, individual_pos_deviation, individual_neg_deviation,
    obj_term.
  repeat split; rule_total.
Qed.

Lemma wf_step_rules t :
  t ∈ model_T →
  (∃ c, ccpower t = Ok c) ∧ (∃ c, cluster_upper_limit t = Ok c)
  ∧ (∃ c, cluster_lower_limit t = Ok c).
Proof.
  intros Ht. pose proof Ht as Ht'. apply wf_flow_steps in Ht'.
  destruct (wf_limits H Hwf t Ht') as [Hup Hlow].
  unfold ccpower, cluster_upper_limit, cluster_lower_limit.
  repeat split; rule_total.
  destruct (mapM_total (ccpower_term t) model_V) as [k ->]; [|simpl; by eexists].
  intros v Hv. apply (wf_rules v t Hv Ht).
Qed.

Lemma wf_build : ∃ m, build_model = Ok m.
Proof.
  unfold build_model.
  destruct (mapM_total initialsoc model_V) as [c1 ->].
  { intros v Hv. apply (wf_vehicle_rules v Hv). }
  destruct (Constraint_VT_total minimumsoc) as [c2 ->].
  { intros v t Hv Ht. apply (wf_rules v t Hv Ht). }
  destruct (Constraint_VT_total maximumsoc) as [c3 ->].
  { intros v t Hv Ht. apply (wf_rules v t Hv Ht). }
  destruct (Constraint_VT_total storageConservation) as [c4 ->].
  { intros v t Hv Ht. apply (wf_rules v t Hv Ht). }
  destruct (Constraint_VT_total chargepowerlimit) as [c5 ->].
  { intros v t Hv Ht. apply (wf_rules v t Hv Ht). }
  destruct (Constraint_VT_total combinatorics_ch) as [c6 ->].
  { intros v t Hv Ht. apply (wf_rules v t Hv Ht). }
  destruct (Constraint_VT_total combinatorics_ds) as [c7 ->].
  { intros v t Hv Ht. apply (wf_rules v t Hv Ht). }
  destruct (mapM_total ccpower model_T) as [c8 ->].
  { intros t Ht. apply (wf_step_rules t Ht). }
  destruct (mapM_total cluster_upper_limit model_T) as [c10 ->].
  { intros t Ht. apply (wf_step_rules t Ht). }
  destruct (mapM_total cluster_lower_limit model_T) as [c11 ->].
  { intros t Ht. apply (wf_step_rules t Ht). }
  destruct (mapM_total individual_pos_deviation model_V) as [c12 ->].
  { intros v Hv. apply (wf_vehicle_rules v Hv). }
  destruct (mapM_total individual_neg_deviation model_V) as [c13 ->].
  { intros v Hv. apply (wf_vehicle_rules v Hv). }
  unfold obj_rule. destruct (mapM_total obj_term model_V) as [k ->].
  { intros v Hv. apply (wf_vehicle_rules v Hv). }
  simpl. by eexists.
Qed.

End WellFormed.

(** Extra X13. On inputs put together as the script and the charging
    protocol do (horizon [range(H + 1)], complete dictionaries, no zero
    capacity or charging efficiency) the model builds without raising, with
    the steps [0 .. H-1] as flow steps, and the call returns two
    dictionaries whenever the solver call returns. *)
Theorem well_formed_inputs_build (H : nat) :
  well_formed_inputs H →
  ∃ m, build_model = Ok m
    ∧ T m = py_range (Z.of_nat H)
    ∧ Tp m = py_range (Z.of_nat H + 1)
    ∧ ∀ res, solver m = Ok res →
        ∃ p_schedule s_schedule, reschedule = Ok (p_schedule, s_schedule).
Proof.
  intros Hwf. destruct (wf_build H Hwf) as [m Hbuild]. exists m.
  pose proof (build_model_Ok _ Hbuild) as (_ & HT & HTp & _).
  destruct (range_flow_steps H (wf_horizon H Hwf)) as [HT' HTp'].
  split; [done|]. split; [congruence|]. split; [congruence|].
  intros res Hres.
  destruct (reschedule_returns m res Hbuild Hres) as (ps & ss & Hret & _).
  eauto.
Qed.

(** ** Idling is feasible *)

Lemma built_vehicle_entries (m : ConcreteModel) (v : string) :
  build_model = Ok m → v ∈ model_V →
  is_Some (inisoc !! v) ∧ is_Some (tarsoc !! v).
Proof.
  intros Hbuild Hv. pose proof (build_model_Ok _ Hbuild) as Hm.
  destruct (mapM_Ok_elem initialsoc model_V (inisoc_con m) v)
    as (c1 & Hc1 & _); [tauto|done|].
  destruct (mapM_Ok_elem individual_pos_deviation model_V (indev_pos m) v)
    as (c2 & Hc2 & _); [tauto|done|].
  unfold initialsoc in Hc1. unfold individual_pos_deviation in Hc2.
  invert_rule Hc1. invert_rule Hc2. eauto.
Qed.

Lemma idle_ccpower_terms (t : Z) (terms : list expr) :
  mapM (ccpower_term t) model_V = Ok terms →
  ∃ qs, Forall2 (λ e q, eval idle_valuation e = Some q) terms qs
    ∧ Forall (λ q, q == 0)%Q qs.
Proof.
  intros H%mapM_Ok. induction H as [|v e vs es He _ (qs & Hqs & H0)].
  - exists []. split; constructor.
  - unfold ccpower_term in He. invert_rule He. subst e.
    match goal with
    | Hc : ch_eff !! v = Some ?c, Hd : ds_eff !! v = Some ?d |- _ =>
        exists ((0 / c - 0 * d)%Q :: qs)
    end.
    split; constructor; try done.
    simpl. match goal with Hc : Qeq_bool _ 0 = false |- _ => rewrite Hc end.
    simpl. reflexivity.
Qed.

Lemma fold_left_Qplus_zero (qs : list Q) (q0 : Q) :
  Forall (λ q, q == 0)%Q qs → (fold_left Qplus qs q0 == q0)%Q.
Proof.
  intros H. revert q0. induction H as [|q qs Hq _ IH]; intros q0; simpl.
  - reflexivity.
  - rewrite IH, Hq. ring.
Qed.

#[local] Opaque Qabs.

Lemma idle_holds (m : ConcreteModel) (c : constraint) :
  build_model = Ok m → idle_admissible → posted c →
  holds idle_valuation c = true.
Proof.
  intros Hbuild Hidle
    [v Hv Hr|v t Hv Ht Hr|v t Hv Ht Hr|v t Hv Ht Hr|v t Hv Ht Hr|v t Hv Ht Hr
    |v t Hv Ht Hr|t Ht Hr|Hr|t Ht Hr|t Ht Hr|v Hv Hr|v Hv Hr].
  all: try (destruct (built_vehicle_entries m v Hbuild Hv) as [[ini Hini] [tar Htar]]).
  all: unfold initialsoc, minimumsoc, maximumsoc, storageConservation,
      chargepowerlimit, combinatorics_ch, combinatorics_ds, ccpower,
      cluster_limit_violation, cluster_upper_limit, cluster_lower_limit,
      individual_pos_deviation, individual_neg_deviation in Hr.
  all: invert_rule Hr; subst c; unfold holds; simpl;
    repeat match goal with
    | Hc : Qeq_bool ?c 0 = false |- _ => rewrite Hc
    | Hl : ?d !! ?k = Some _ |- context [?d !! ?k] => rewrite Hl
    end; simpl.
  - match goal with Hl : inisoc !! v = Some ?q |- _ =>
      assert (q = ini) as -> by congruence end.
    apply Qeq_bool_iff. reflexivity.
  - apply Qle_bool_iff. by eapply idle_min.
  - apply Qle_bool_iff. by eapply idle_max.
  - apply Qeq_bool_iff. unfold Qdiv. ring.
  - reflexivity.
  - reflexivity.
  - apply Qle_bool_iff. ring_simplify. lra.
  - reflexivity.
  - apply Qle_bool_iff. ring_simplify. by eapply idle_discharge.
  - match goal with Hx : mapM (ccpower_term t) model_V = Ok ?ts |- _ =>
      destruct (idle_ccpower_terms t ts Hx) as (qs & Hqs & H0) end.
    unfold py_sum.
    rewrite (eval_py_sum_from idle_valuation _ (ENum 0) 0%Q qs); [|done|done].
    apply Qeq_bool_iff. by rewrite fold_left_Qplus_zero.
  - apply Qle_bool_iff. lra.
  - apply Qle_bool_iff. by eapply idle_upper.
  - apply Qle_bool_iff.
    match goal with Hl : lowerlimit !! t = Some ?low |- _ =>
      pose proof (idle_lower Hidle t low Ht Hl) end. lra.
  - match goal with Hl : tarsoc !! v = Some ?q |- _ =>
      assert (q = tar) as -> by congruence end.
    apply Qle_bool_iff. apply Qle_Qabs.
  - match goal with Hl : tarsoc !! v = Some ?q |- _ =>
      assert (q = tar) as -> by congruence end.
    apply Qle_bool_iff.
    pose proof (Qle_Qabs (- (tar - ini))) as Hq. rewrite Qabs_opp in Hq. lra.
Qed.

(** Extra X14. When the inputs admit idling, a model that builds is
    feasible: leaving every vehicle idle satisfies every constraint, so no
    correct solver can report it infeasible. *)
Theorem idle_is_feasible (m : ConcreteModel) :
  build_model = Ok m → idle_admissible →
  feasible m idle_valuation = true.
Proof.
  intros Hbuild Hidle. apply feasible_iff. split.
  - intros c Hc. eapply idle_holds; [done|done|]. by eapply constraints_posted.
  - intros x q _ Hx. destruct x; simpl in Hx |- *; try done;
      try (injection Hx as <-; done).
    + apply Qle_bool_iff. by eapply idle_initial.
    + injection Hx as <-. apply Qle_bool_iff. apply Hidle.
    + destruct (tarsoc !! v) as [tar|]; [|done]. simpl in Hx.
      destruct (inisoc !! v) as [ini|]; [|done]. simpl in Hx.
      injection Hx as <-. apply Qle_bool_iff. apply Qabs_nonneg.
Qed.

#[local] Transparent Qabs.

End Reschedule.

(** * Runs on concrete inputs

    The charging scenario: horizon 0..2, limits 22 kW and 0 kW at the two
    flow steps, zero tolerance, SOC 1/2 to be raised to 8/15, departure at
    step 12. *)

Abbreviation charging_scenario f :=
  (f 300%Q [0; 1; 2] (limits_at [0; 1] 22) (limits_at [0; 1] 0) 0%Q
     (fleet_of 198000) (fleet_of (1 # 2)) (fleet_of (8 # 15))
     (fleet_of (1 # 5)) (fleet_of 1) (fleet_of 1) (fleet_of 1)
     (fleet_of 11) (fleet_of 11) (fleet_of 12) 1%Q 1%Q) (only parsing).

Lemma soc_conservation_witness :
  ∃ p_schedule s_schedule,
    charging_scenario (reschedule (reporting optimal charging_point))
    = Ok (p_schedule, s_schedule)
    ∧ ∃ s0 s1 p : Q,
        entry s_schedule ev1 0 = Some (Some s0)
        ∧ entry s_schedule ev1 1 = Some (Some s1)
        ∧ entry p_schedule ev1 0 = Some (Some p)
        ∧ (s1 == s0 + p / 198000 * 300)%Q.
Proof.
  edestruct (charging_scenario (soc_conservation (reporting optimal charging_point)))
    as (ps & ss & Hret & Hall).
  - vm_compute. reflexivity.
  - reflexivity.
  - vm_compute. reflexivity.
  - exists ps, ss. split; [exact Hret|].
    destruct (Hall ev1 0) as (E & pc & pd & s0 & s1 & p & HE & _ & _ & _ & H0 & H1 & Hp & _ & _ & Hs).
    + vm_compute. left.
    + vm_compute. left.
    + vm_compute in HE. injection HE as <-. exists s0, s1, p. auto.
Defined.

Lemma departure_and_exclusivity_witness :
  ∃ p_schedule s_schedule,
    charging_scenario (reschedule (reporting optimal charging_point))
    = Ok (p_schedule, s_schedule)
    ∧ ∃ pc pd : Q,
        charging_point (p_ev_pos ev1 1) = Some pc
        ∧ charging_point (p_ev_neg ev1 1) = Some pd
        ∧ ¬ ((0 < pc)%Q ∧ (0 < pd)%Q).
Proof.
  edestruct (charging_scenario (departure_and_exclusivity (reporting optimal charging_point)))
    as (ps & ss & Hret & Hall).
  - vm_compute. reflexivity.
  - reflexivity.
  - vm_compute. reflexivity.
  - exists ps, ss. split; [exact Hret|].
    destruct (Hall ev1 1) as (dep & pc & pd & p & Hdep & Hpc & Hpd & _ & _ & Hbefore).
    + vm_compute. left.
    + vm_compute. right. left.
    + vm_compute in Hdep. injection Hdep as <-.
      destruct Hbefore as (x & Pc & Pd & _ & _ & _ & _ & _ & _ & Hexcl);
        [reflexivity|].
      exists pc, pd. auto.
Defined.

Lemma soc_bounds_witness :
  ∃ p_schedule s_schedule,
    charging_scenario (reschedule (reporting optimal charging_point))
    = Ok (p_schedule, s_schedule)
    ∧ ∃ q : Q, entry s_schedule ev1 1 = Some (Some q)
        ∧ (1 # 5 <= q)%Q ∧ (q <= 1)%Q.
Proof.
  edestruct (charging_scenario (soc_bounds (reporting optimal charging_point)))
    as (ps & ss & Hret & Hall & _).
  - vm_compute. reflexivity.
  - reflexivity.
  - vm_compute. reflexivity.
  - exists ps, ss. split; [exact Hret|].
    destruct (Hall ev1 1) as (lo & hi & q & Hlo & Hhi & Hq & Hle1 & Hle2).
    + vm_compute. left.
    + vm_compute. right. left.
    + vm_compute in Hlo, Hhi. injection Hlo as <-. injection Hhi as <-.
      exists q. auto.
Defined.

Lemma soft_cluster_limits_witness :
  ∃ e : Q, charging_point eps = Some e ∧ (0 <= e)%Q ∧ (e <= 0)%Q.
Proof.
  edestruct (charging_scenario soft_cluster_limits) with (a := charging_point)
    as (e & He & H0 & Htol & _).
  - vm_compute. reflexivity.
  - vm_compute. reflexivity.
  - exists e. auto.
Defined.

Lemma cluster_aggregation_witness :
  ∃ P A : Q,
    charging_point (p_cc 0) = Some P
    ∧ spec_aggregatePower (fleet_of 198000) (fleet_of 1) (fleet_of 1)
        charging_point 0 = Some A
    ∧ (P == A)%Q.
Proof.
  edestruct (charging_scenario cluster_aggregation) with (a := charging_point) (t := 0)
    as (P & A & HP & HA & Heq & _).
  - vm_compute. reflexivity.
  - vm_compute. reflexivity.
  - vm_compute. left.
  - exists P, A. auto.
Defined.

Lemma objective_and_deviation_witness :
  ∃ m, charging_scenario build_model = Ok m
    ∧ sense m = minimize
    ∧ linear (obj m) = true
    ∧ feasible m (assign charging_point (y ev1) 5) = true.
Proof.
  eexists. split; [vm_compute; reflexivity|].
  edestruct (charging_scenario objective_and_deviation) with (a := charging_point)
    as (Hsense & _ & _ & Hdev & Hlin & _).
  - vm_compute. reflexivity.
  - vm_compute. reflexivity.
  - split; [exact Hsense|]. split; [exact Hlin|].
    destruct (Hdev ev1) as (tmax & tar & sl & yv & _ & _ & _ & Hyv & _ & _ & _ & Hraise).
    + vm_compute. left.
    + injection Hyv as <-. apply Hraise. vm_compute. discriminate.
Defined.

(** ** Inputs the model-building step does not reject (claim C7) *)

(** The upper-limit mapping has an entry for step 7, which is no flow step,
    and the call returns; a vehicle that has departed has no maximum charge
    power at all, and the call returns. *)
Lemma unvalidated_inputs_accepted :
  (dom (limits_at [0; 1; 7] 22) ≠ list_to_set (model_T [0; 1; 2])
   ∧ ∃ out,
       reschedule (reporting optimal charging_point) 300 [0; 1; 2]
         (limits_at [0; 1; 7] 22) (limits_at [0; 1] 0) 0
         (fleet_of 198000) (fleet_of (1 # 2)) (fleet_of (8 # 15))
         (fleet_of (1 # 5)) (fleet_of 1) (fleet_of 1) (fleet_of 1)
         (fleet_of 11) (fleet_of 11) (fleet_of 12) 1 1 = Ok out)
  ∧ ((∅ : gmap string Q) !! ev1 = None
     ∧ ∃ out,
         reschedule (reporting optimal idle_point) 300 [0; 1; 2]
           (limits_at [0; 1] 22) (limits_at [0; 1] 0) 0
           (fleet_of 198000) (fleet_of (1 # 2)) (fleet_of (1 # 2))
           (fleet_of (1 # 5)) (fleet_of 1) (fleet_of 1) (fleet_of 1)
           ∅ (fleet_of 11) (fleet_of 0) 1 1 = Ok out).
Proof.
  split; split.
  - intros Heq. assert (7 ∈ dom (limits_at [0; 1; 7] 22)) as Hin.
    { apply elem_of_dom. eexists. vm_compute. reflexivity. }
    rewrite Heq in Hin. apply elem_of_list_to_set in Hin.
    vm_compute in Hin. by repeat (apply elem_of_cons in Hin as [?|Hin]; [done|]);
      apply elem_of_nil in Hin.
  - eexists. vm_compute. reflexivity.
  - reflexivity.
  - eexists. vm_compute. reflexivity.
Qed.

Lemma missing_entry_raises_witness :
  ∃ e, builtin_lookup_error e
    ∧ reschedule (reporting optimal charging_point) 300 [0; 1; 2]
        (limits_at [0; 1] 22) (limits_at [0; 1] 0) 0
        (fleet_of 198000) ∅ (fleet_of (8 # 15))
        (fleet_of (1 # 5)) (fleet_of 1) (fleet_of 1) (fleet_of 1)
        (fleet_of 11) (fleet_of 11) (fleet_of 12) 1 1 = Raise e.
Proof.
  destruct (missing_entry_raises (reporting optimal charging_point) 300 [0; 1; 2]
              (limits_at [0; 1] 22) (limits_at [0; 1] 0) 0
              (fleet_of 198000) ∅ (fleet_of (8 # 15))
              (fleet_of (1 # 5)) (fleet_of 1) (fleet_of 1) (fleet_of 1)
              (fleet_of 11) (fleet_of 11) (fleet_of 12) 1 1)
    as (e & Hkind & _ & Hcall).
  - apply (missing_inisoc _ _ _ _ _ _ _ _ _ _ _ _ _ ev1).
    + vm_compute. left.
    + reflexivity.
  - exists e. auto.
Defined.

(** ** A solver that reports infeasibility (claim C8) *)

(** With minimum SOC 3/5 above the initial SOC 1/2 the model has no
    feasible valuation. *)
Abbreviation infeasible_scenario f :=
  (f 300%Q [0; 1; 2] (limits_at [0; 1] 22) (limits_at [0; 1] 0) 0%Q
     (fleet_of 198000) (fleet_of (1 # 2)) (fleet_of (8 # 15))
     (fleet_of (3 # 5)) (fleet_of 1) (fleet_of 1) (fleet_of 1)
     (fleet_of 11) (fleet_of 11) (fleet_of 12) 1%Q 1%Q) (only parsing).

Lemma infeasible_scenario_has_no_solution (m : ConcreteModel) (a : valuation) :
  infeasible_scenario build_model = Ok m → feasible m a = false.
Proof.
  intros Hbuild. destruct (feasible m a) eqn:Hfeas; [|done].
  assert (ev1 ∈ model_V (fleet_of 198000)) as Hv by (vm_compute; left).
  assert (0 ∈ model_T [0; 1; 2]) as Ht by (vm_compute; left).
  destruct (infeasible_scenario feasible_inisoc m a Hbuild Hfeas ev1 Hv)
    as (ini & s0 & Hini & _ & Hs0 & Heq).
  destruct (infeasible_scenario feasible_soc_bounds m a Hbuild Hfeas ev1 0 Hv Ht)
    as (lo & hi & q & Hlo & _ & Hq & Hle & _).
  vm_compute in Hini, Hlo. injection Hini as <-. injection Hlo as <-.
  assert (q = s0) as -> by congruence. lra.
Qed.

(** The solver reports infeasibility and loads nothing; the call returns
    normally, with dictionaries whose entries are Python's [None]. *)
Lemma infeasible_report_returns_schedules :
  ∃ p_schedule s_schedule,
    infeasible_scenario (reschedule (reporting infeasible no_values))
    = Ok (p_schedule, s_schedule)
    ∧ entry p_schedule ev1 0 = Some None
    ∧ entry p_schedule ev1 1 = Some None
    ∧ entry s_schedule ev1 0 = Some None
    ∧ entry s_schedule ev1 2 = Some None.
Proof. do 2 eexists. split; [vm_compute; reflexivity|]. by vm_compute. Qed.

Lemma solver_outcome_not_inspected_witness :
  charging_scenario (reschedule unavailable_solver)
  = Raise (BackendError "ApplicationError")
  ∧ ∃ p_schedule s_schedule,
      charging_scenario (reschedule (reporting unbounded no_values))
      = Ok (p_schedule, s_schedule)
      ∧ entry p_schedule ev1 0 = Some None.
Proof.
  split.
  - edestruct (charging_scenario (solver_outcome_not_inspected unavailable_solver))
      as [Hraise _].
    + vm_compute. reflexivity.
    + apply Hraise. reflexivity.
  - edestruct (charging_scenario (solver_outcome_not_inspected (reporting unbounded no_values)))
      as [_ Hret].
    + vm_compute. reflexivity.
    + destruct (Hret {| termination_condition := unbounded; values := no_values |} eq_refl)
        as (ps & ss & Hcall & Hent).
      exists ps, ss. split; [exact Hcall|].
      destruct (Hent ev1 0) as [_ Hp]; [vm_compute; left|].
      apply Hp. vm_compute. left.
Defined.

(** ** A departed vehicle (claim C9) *)

(** The vehicle has departure index 0 and stays idle from step 0 on. *)
Abbreviation departed_scenario f :=
  (f 300%Q [0; 1; 2] (limits_at [0; 1] 22) (limits_at [0; 1] 0) 0%Q
     (fleet_of 198000) (fleet_of (1 # 2)) (fleet_of (1 # 2))
     (fleet_of (1 # 5)) (fleet_of 1) (fleet_of 1) (fleet_of 1)
     (fleet_of 11) (fleet_of 11) (fleet_of 0) 1%Q 1%Q) (only parsing).

Lemma departed_vehicle_idle_witness :
  ∃ p_schedule s_schedule,
    departed_scenario (reschedule (reporting optimal idle_point))
    = Ok (p_schedule, s_schedule)
    ∧ (∃ p : Q, entry p_schedule ev1 1 = Some (Some p) ∧ (p == 0)%Q)
    ∧ (∃ q : Q, entry s_schedule ev1 2 = Some (Some q) ∧ (q == 1 # 2)%Q).
Proof.
  edestruct (departed_scenario (departed_vehicle_idle (reporting optimal idle_point)))
    as [_ Hreturned].
  - intros t Ht. rewrite !elem_of_cons, elem_of_nil in Ht. lia.
  - vm_compute. reflexivity.
  - edestruct Hreturned as (ps & ss & Hret & Hall).
    + reflexivity.
    + vm_compute. reflexivity.
    + exists ps, ss. split; [exact Hret|].
      destruct (Hall ev1 0%Q) as (ini & Hini & Hp & Hs).
      * vm_compute. left.
      * reflexivity.
      * discriminate.
      * vm_compute in Hini. injection Hini as <-. split.
        -- apply Hp. vm_compute. right. left.
        -- apply Hs. vm_compute. right. right. left.
Defined.

(** The condition on the horizon cannot be dropped. On a horizon of three
    consecutive steps that starts at -1 the departure test [t >= t_dep] is
    false at step -1 and the SOC is anchored at the literal step 0: with
    departure index 0 the valuation below is feasible, and the vehicle
    charges at 11 kW at step -1, where its SOC differs from the initial
    SOC. *)
Lemma departed_vehicle_charges_before_step_0 :
  ∃ m p_schedule s_schedule,
    build_model 300 [-1; 0; 1] (limits_at [-1; 0] 22) (limits_at [-1; 0] 0) 0
      (fleet_of 198000) (fleet_of (1 # 2)) (fleet_of (1 # 2))
      (fleet_of (1 # 5)) (fleet_of 1) (fleet_of 1) (fleet_of 1)
      (fleet_of 11) (fleet_of 11) (fleet_of 0) 1 1 = Ok m
    ∧ feasible m early_point = true
    ∧ fleet_of 0 !! ev1 = Some 0%Q
    ∧ fleet_of (1 # 2) !! ev1 = Some (1 # 2)%Q
    ∧ reschedule (reporting optimal early_point) 300 [-1; 0; 1]
        (limits_at [-1; 0] 22) (limits_at [-1; 0] 0) 0
        (fleet_of 198000) (fleet_of (1 # 2)) (fleet_of (1 # 2))
        (fleet_of (1 # 5)) (fleet_of 1) (fleet_of 1) (fleet_of 1)
        (fleet_of 11) (fleet_of 11) (fleet_of 0) 1 1
      = Ok (p_schedule, s_schedule)
    ∧ (-1) ∈ T m
    ∧ entry p_schedule ev1 (-1) = Some (Some 11%Q)
    ∧ ¬ (11 == 0)%Q
    ∧ ∃ q : Q, entry s_schedule ev1 (-1) = Some (Some q) ∧ ¬ (q == 1 # 2)%Q.
Proof.
  do 3 eexists. split; [vm_compute; reflexivity|].
  split; [vm_compute; reflexivity|]. do 2 (split; [reflexivity|]).
  split; [vm_compute; reflexivity|]. split; [vm_compute; left|].
  split; [vm_compute; reflexivity|]. split; [discriminate|].
  eexists. split; [vm_compute; reflexivity|]. discriminate.
Qed.

(** ** The step index 0 (claim C10) *)

Lemma initial_step_required_witness :
  reschedule (reporting optimal charging_point) 300 [5; 6; 7]
    (limits_at [5; 6] 22) (limits_at [5; 6] 0) 0
    (fleet_of 198000) (fleet_of (1 # 2)) (fleet_of (8 # 15))
    (fleet_of (1 # 5)) (fleet_of 1) (fleet_of 1) (fleet_of 1)
    (fleet_of 11) (fleet_of 11) (fleet_of 12) 1 1 = Raise KeyError.
Proof.
  apply initial_step_required.
  - intros Hempty.
    assert (fleet_of 198000 !! ev1 = (∅ : gmap string Q) !! ev1) as Hlook
      by (by rewrite Hempty).
    discriminate Hlook.
  - intros Hin. vm_compute in Hin.
    repeat (apply elem_of_cons in Hin as [Hin|Hin]; [discriminate Hin|]).
    by apply elem_of_nil in Hin.
Defined.

(** With an empty fleet no rule indexes [s]: a horizon without the step 0
    builds, the solver is called, and the call returns two empty
    dictionaries. *)
Lemma empty_fleet_needs_no_initial_step :
(0 ∉ [5; 6; 7])
  ∧ reschedule (reporting optimal charging_point) 300 [5; 6; 7]
      (limits_at [5; 6] 22) (limits_at [5; 6] 0) 0
      ∅ ∅ ∅ ∅ ∅ ∅ ∅ ∅ ∅ ∅ 1 1 = Ok (∅, ∅).
Proof.
  split.
  - intros Hin.
    repeat (apply elem_of_cons in Hin as [Hin|Hin]; [discriminate Hin|]).
    by apply elem_of_nil in Hin.
  - vm_compute. reflexivity.
Qed.

(** ** Further runs *)

(** The terminal SOC is free to exceed the maximum SOC: with the maximum at
    31/60 the charging valuation is feasible and ends at 32/60. *)
Example terminal_soc_above_maximum :
  ∃ m,
    build_model 300 [0; 1; 2] (limits_at [0; 1] 22) (limits_at [0; 1] 0) 0
      (fleet_of 198000) (fleet_of (1 # 2)) (fleet_of (8 # 15))
      (fleet_of (1 # 5)) (fleet_of (31 # 60)) (fleet_of 1) (fleet_of 1)
      (fleet_of 11) (fleet_of 11) (fleet_of 12) 1 1 = Ok m
    ∧ feasible m charging_point = true
    ∧ ∃ q : Q, charging_point (s ev1 2) = Some q ∧ (31 # 60 < q)%Q.
Proof.
  eexists. split; [vm_compute; reflexivity|].
  split; [vm_compute; reflexivity|]. eexists. split; [reflexivity|].
  reflexivity.
Qed.

(** The tolerance bounds each step on its own: with limit 10 kW and
    tolerance 1 kW, drawing 11 kW at both steps is feasible although the
    excesses add up to 2 kW. *)
Example tolerance_is_per_step :
  ∃ m,
    build_model 300 [0; 1; 2] (limits_at [0; 1] 10) (limits_at [0; 1] 0) 1
      (fleet_of 198000) (fleet_of (1 # 2)) (fleet_of (8 # 15))
      (fleet_of (1 # 5)) (fleet_of 1) (fleet_of 1) (fleet_of 1)
      (fleet_of 11) (fleet_of 11) (fleet_of 12) 1 1 = Ok m
    ∧ feasible m (assign charging_point eps 1) = true
    ∧ (1 < (11 - 10) + (11 - 10))%Q.
Proof.
  eexists. split; [vm_compute; reflexivity|].
  split; [vm_compute; reflexivity|]. reflexivity.
Qed.

(** A horizon that contains 0 without starting there builds. *)
Example horizon_may_start_below_0 :
  ∃ m,
    build_model 300 [-1; 0; 1] (limits_at [-1; 0] 22) (limits_at [-1; 0] 0) 0
      (fleet_of 198000) (fleet_of (1 # 2)) (fleet_of (1 # 2))
      (fleet_of (1 # 5)) (fleet_of 1) (fleet_of 1) (fleet_of 1)
      (fleet_of 11) (fleet_of 11) (fleet_of 0) 1 1 = Ok m
    ∧ T m = [-1; 0].
Proof. eexists. split; vm_compute; reflexivity. Qed.

(** * Inputs as the callers build them *)

(** Extra X11. The script builds the horizon as [range(H + 1)] and each
    limit dictionary as [dict(enumerate(values))] from [H] values: the keys
    of such a dictionary are exactly the flow steps of such a horizon, and
    the entry at step [t] is the [t]-th value. *)
Theorem enumerate_covers_flow_steps (limits : list Q) (t : Z) :
  model_T (py_range (Z.of_nat (length limits) + 1))
  = py_range (Z.of_nat (length limits))
  ∧ (is_Some (dict_enumerate limits !! t)
     ↔ t ∈ model_T (py_range (Z.of_nat (length limits) + 1)))
  ∧ (0 ≤ t → dict_enumerate limits !! t = limits !! Z.to_nat t).
Proof.
  destruct (range_flow_steps _ (length limits) eq_refl) as [HT _].
  split; [done|]. split.
  - rewrite HT. unfold dict_enumerate, py_range.
    rewrite lookup_map_seqZ_is_Some, elem_of_seqZ. lia.
  - intros Ht. unfold dict_enumerate. rewrite lookup_map_seqZ_0 by done. done.
Qed.

(** * Runs of the further properties *)

Lemma fleet_of_lookup (q x : Q) (v : string) :
  fleet_of q !! v = Some x → v = ev1 ∧ x = q.
Proof.
  unfold fleet_of. intros Hl. apply lookup_singleton_Some in Hl.
  destruct Hl as [Hv Hx]. by split.
Qed.

Lemma returned_initial_soc_witness :
  ∃ p_schedule s_schedule,
    charging_scenario (reschedule (reporting optimal charging_point))
    = Ok (p_schedule, s_schedule)
    ∧ ∃ q : Q, entry s_schedule ev1 0 = Some (Some q) ∧ (q == 1 # 2)%Q.
Proof.
  edestruct (charging_scenario (returned_initial_soc (reporting optimal charging_point)))
    as (ps & ss & Hret & Hall).
  - vm_compute. reflexivity.
  - reflexivity.
  - vm_compute. reflexivity.
  - exists ps, ss. split; [exact Hret|].
    destruct (Hall ev1) as (ini & q & Hini & Hq & Heq); [vm_compute; left|].
    vm_compute in Hini. injection Hini as <-. exists q. auto.
Defined.

Lemma returned_schedule_keys_witness :
  ∃ p_schedule s_schedule,
    charging_scenario (reschedule (reporting infeasible no_values))
    = Ok (p_schedule, s_schedule)
    ∧ is_Some (entry s_schedule ev1 2)
    ∧ entry p_schedule ev1 2 = None.
Proof.
  do 2 eexists. split; [vm_compute; reflexivity|].
  edestruct (charging_scenario (returned_schedule_keys (reporting infeasible no_values)))
    as (Hs & _ & Hterm).
  - vm_compute. reflexivity.
  - split.
    + apply Hs. split; [by eexists | right; right; left].
    + apply Hterm. reflexivity.
Defined.

Lemma built_horizon_shape_witness :
  ∃ m tmax,
    charging_scenario build_model = Ok m
    ∧ py_max [0; 1; 2] = Ok tmax
    ∧ List.last [0; 1; 2] 0 = tmax
    ∧ (1 ∈ T m ↔ 1 ∈ [0; 1; 2] ∧ 1 < tmax).
Proof.
  eexists.
  edestruct (charging_scenario built_horizon_shape)
    as (tmax & Hmax & _ & Hlast & Hflow & _).
  - vm_compute. reflexivity.
  - intros Hempty.
    assert (fleet_of 198000 !! ev1 = (∅ : gmap string Q) !! ev1) as Hlook
      by (by rewrite Hempty).
    discriminate Hlook.
  - exists tmax. split; [reflexivity|]. split; [exact Hmax|].
    split; [exact Hlast|]. apply Hflow.
Defined.

Lemma returned_power_within_limits_witness :
  ∃ p_schedule s_schedule,
    charging_scenario (reschedule (reporting optimal charging_point))
    = Ok (p_schedule, s_schedule)
    ∧ ∃ p : Q, entry p_schedule ev1 0 = Some (Some p)
        ∧ (((0 <= p)%Q ∧ (p <= 11)%Q) ∨ ((- (11) <= p)%Q ∧ (p <= 0)%Q)).
Proof.
  edestruct (charging_scenario (returned_power_within_limits (reporting optimal charging_point)))
    as (ps & ss & Hret & Hall).
  - vm_compute. reflexivity.
  - reflexivity.
  - vm_compute. reflexivity.
  - exists ps, ss. split; [exact Hret|].
    destruct (Hall ev1 0) as (dep & p & Hdep & Hp & _ & Hbefore).
    + vm_compute. left.
    + vm_compute. left.
    + vm_compute in Hdep. injection Hdep as <-.
      destruct Hbefore as (Pc & Pd & HPc & HPd & Hlim); [reflexivity|].
      vm_compute in HPc, HPd. injection HPc as <-. injection HPd as <-.
      exists p. auto.
Defined.

Lemma returned_soc_frozen_after_departure_witness :
  ∃ p_schedule s_schedule,
    departed_scenario (reschedule (reporting optimal idle_point))
    = Ok (p_schedule, s_schedule)
    ∧ ∃ s0 s1 : Q,
        entry s_schedule ev1 1 = Some (Some s0)
        ∧ entry s_schedule ev1 2 = Some (Some s1)
        ∧ (s1 == s0)%Q.
Proof.
  edestruct (departed_scenario (returned_soc_frozen_after_departure (reporting optimal idle_point)))
    as (ps & ss & Hret & Hall).
  - vm_compute. reflexivity.
  - reflexivity.
  - vm_compute. reflexivity.
  - exists ps, ss. split; [exact Hret|].
    apply (Hall ev1 1 0%Q).
    + vm_compute. left.
    + vm_compute. right. left.
    + reflexivity.
    + discriminate.
Defined.

Lemma returned_energy_balance_witness :
  ∃ p_schedule s_schedule,
    charging_scenario (reschedule (reporting optimal charging_point))
    = Ok (p_schedule, s_schedule)
    ∧ ∃ q : Q, entry s_schedule ev1 2 = Some (Some q)
        ∧ (q == (1 # 2) + step_sum (entry_value p_schedule ev1) 2
                          / 198000 * 300)%Q.
Proof.
  edestruct (charging_scenario (returned_energy_balance (reporting optimal charging_point)))
    as (ps & ss & Hret & Hall).
  - vm_compute. reflexivity.
  - reflexivity.
  - vm_compute. reflexivity.
  - exists ps, ss. split; [exact Hret|].
    destruct (Hall ev1 2%nat) as (ini & E & q & Hini & HE & Hq & Heq).
    + vm_compute. left.
    + vm_compute. right. right. left.
    + vm_compute in Hini, HE. injection Hini as <-. injection HE as <-.
      exists q. auto.
Defined.

Lemma feasibility_requirements_witness :
  (0 <= 0)%Q
  ∧ ∃ up low : Q, limits_at [0; 1] 22 !! 1 = Some up
      ∧ limits_at [0; 1] 0 !! 1 = Some low ∧ (low - 0 <= up + 0)%Q.
Proof.
  edestruct (charging_scenario feasibility_requirements) with (a := charging_point)
    as (Htol & Hlim & _).
  - vm_compute. reflexivity.
  - vm_compute. reflexivity.
  - split; [exact Htol|]. apply Hlim. vm_compute. right. left.
Defined.

Lemma zero_divisor_raises_witness :
  ∃ e, builtin_lookup_error e
    ∧ reschedule (reporting optimal charging_point) 300 [0; 1; 2]
        (limits_at [0; 1] 22) (limits_at [0; 1] 0) 0
        (fleet_of 0) (fleet_of (1 # 2)) (fleet_of (8 # 15))
        (fleet_of (1 # 5)) (fleet_of 1) (fleet_of 1) (fleet_of 1)
        (fleet_of 11) (fleet_of 11) (fleet_of 12) 1 1 = Raise e.
Proof.
  destruct (zero_divisor_raises (reporting optimal charging_point) 300 [0; 1; 2]
              (limits_at [0; 1] 22) (limits_at [0; 1] 0) 0
              (fleet_of 0) (fleet_of (1 # 2)) (fleet_of (8 # 15))
              (fleet_of (1 # 5)) (fleet_of 1) (fleet_of 1) (fleet_of 1)
              (fleet_of 11) (fleet_of 11) (fleet_of 12) 1 1 ev1 0 0%Q)
    as (e & Hkind & _ & Hcall).
  - vm_compute. left.
  - vm_compute. left.
  - left. reflexivity.
  - reflexivity.
  - exists e. auto.
Defined.

Lemma charging_scenario_capacities (v : string) (E : Q) :
  fleet_of 198000 !! v = Some E → (0 <= E)%Q.
Proof. intros [_ ->]%fleet_of_lookup. discriminate. Qed.

Lemma objective_never_negative_witness :
  ∃ O : Q, (0 <= O)%Q
    ∧ ∃ m, charging_scenario build_model = Ok m
        ∧ eval charging_point (obj m) = Some O.
Proof.
  edestruct (charging_scenario objective_never_negative) with (a := charging_point)
    as (O & HO & Hnn).
  - vm_compute. reflexivity.
  - vm_compute. reflexivity.
  - discriminate.
  - discriminate.
  - apply charging_scenario_capacities.
  - exists O. split; [exact Hnn|]. eexists. split; [vm_compute; reflexivity|].
    exact HO.
Defined.

(** The charging valuation costs nothing, so it is a minimiser. *)
Lemma charging_point_minimiser (m : ConcreteModel) :
  charging_scenario build_model = Ok m → minimiser m charging_point.
Proof.
  intros Hbuild. split.
  - assert (Ok m = charging_scenario build_model) as Hm by done.
    vm_compute in Hm. injection Hm as ->. vm_compute. reflexivity.
  - intros a' O O' Hfeas' HO HO'.
    assert (0 <= O')%Q as Hnn.
    { apply (charging_scenario objective_nonneg m a' O' Hbuild Hfeas');
        [discriminate | discriminate | apply charging_scenario_capacities
        | exact HO']. }
    assert (Ok m = charging_scenario build_model) as Hm by done.
    vm_compute in Hm. injection Hm as ->.
    vm_compute in HO. injection HO as <-.
    assert (0 # 3600 == 0)%Q as -> by reflexivity. exact Hnn.
Qed.

Lemma optimal_slack_is_absolute_deviation_witness :
  ∃ (sl yv : Q),
    charging_point (s ev1 2) = Some sl ∧ charging_point (y ev1) = Some yv
    ∧ (yv == Qabs ((8 # 15) - sl))%Q.
Proof.
  assert (∃ m, charging_scenario build_model = Ok m) as [m Hbuild]
    by (eexists; vm_compute; reflexivity).
  destruct (charging_scenario optimal_slack_is_absolute_deviation
              m charging_point ev1 198000%Q)
    as (tmax & tar & sl & yv & Hmax & Htar & Hsl & Hyv & Heq).
  - exact Hbuild.
  - by apply charging_point_minimiser.
  - reflexivity.
  - reflexivity.
  - reflexivity.
  - vm_compute in Hmax, Htar. injection Hmax as <-. injection Htar as <-.
    exists sl, yv. auto.
Defined.

Lemma departed_vehicle_idle_on_range_witness :
  ∃ p_schedule s_schedule,
    departed_scenario (reschedule (reporting optimal idle_point))
    = Ok (p_schedule, s_schedule)
    ∧ (∃ p : Q, entry p_schedule ev1 0 = Some (Some p) ∧ (p == 0)%Q)
    ∧ (∃ q : Q, entry s_schedule ev1 2 = Some (Some q) ∧ (q == 1 # 2)%Q).
Proof.
  edestruct (departed_scenario (departed_vehicle_idle_on_range (reporting optimal idle_point)))
    with (n := 3) as (ps & ss & Hret & Hall).
  - reflexivity.
  - vm_compute. reflexivity.
  - reflexivity.
  - vm_compute. reflexivity.
  - exists ps, ss. split; [exact Hret|].
    destruct (Hall ev1 0%Q) as (ini & Hini & Hp & Hs).
    + vm_compute. left.
    + reflexivity.
    + discriminate.
    + vm_compute in Hini. injection Hini as <-. split.
      * apply Hp. vm_compute. left.
      * apply Hs. vm_compute. right. right. left.
Defined.

Lemma charging_scenario_well_formed :
  well_formed_inputs [0; 1; 2] (limits_at [0; 1] 22) (limits_at [0; 1] 0)
    (fleet_of 198000) (fleet_of (1 # 2)) (fleet_of (8 # 15))
    (fleet_of (1 # 5)) (fleet_of 1) (fleet_of 1) (fleet_of 1)
    (fleet_of 11) (fleet_of 11) (fleet_of 12) 2.
Proof.
  split.
  - reflexivity.
  - intros v [E [-> _]%fleet_of_lookup]. repeat split; by eexists.
  - intros t Ht. assert (t = 0 ∨ t = 1) as [-> | ->] by lia;
      split; by eexists.
  - intros v E [_ ->]%fleet_of_lookup. discriminate.
  - intros v c [_ ->]%fleet_of_lookup. discriminate.
Qed.

Lemma well_formed_inputs_build_witness :
  ∃ m, charging_scenario build_model = Ok m
    ∧ T m = py_range 2
    ∧ ∃ p_schedule s_schedule,
        charging_scenario (reschedule (reporting unbounded no_values))
        = Ok (p_schedule, s_schedule).
Proof.
  destruct (charging_scenario (well_formed_inputs_build (reporting unbounded no_values)) 2%nat)
    as (m & Hbuild & HT & _ & Hret).
  - exact charging_scenario_well_formed.
  - exists m. split; [exact Hbuild|]. split; [exact HT|].
    by eapply Hret.
Defined.

Lemma charging_scenario_idle_admissible :
  idle_admissible [0; 1; 2] (limits_at [0; 1] 22) (limits_at [0; 1] 0) 0
    (fleet_of (1 # 2)) (fleet_of (1 # 5)) (fleet_of 1) (fleet_of 11).
Proof.
  split.
  - discriminate.
  - intros t up Ht Hup. vm_compute in Ht.
    apply elem_of_cons in Ht as [->|Ht];
      [|apply elem_of_cons in Ht as [->|Ht]; [|by apply elem_of_nil in Ht]];
      vm_compute in Hup; injection Hup as <-; discriminate.
  - intros t low Ht Hlow. vm_compute in Ht.
    apply elem_of_cons in Ht as [->|Ht];
      [|apply elem_of_cons in Ht as [->|Ht]; [|by apply elem_of_nil in Ht]];
      vm_compute in Hlow; injection Hlow as <-; discriminate.
  - intros v ini [_ ->]%fleet_of_lookup. discriminate.
  - intros v ini lo [_ ->]%fleet_of_lookup [_ ->]%fleet_of_lookup. discriminate.
  - intros v ini hi [_ ->]%fleet_of_lookup [_ ->]%fleet_of_lookup. discriminate.
  - intros v Pd [_ ->]%fleet_of_lookup. discriminate.
Qed.

Lemma idle_is_feasible_witness :
  ∃ m, charging_scenario build_model = Ok m
    ∧ feasible m
        (idle_valuation 0 (fleet_of (1 # 2)) (fleet_of (8 # 15))) = true.
Proof.
  assert (∃ m, charging_scenario build_model = Ok m) as [m Hbuild]
    by (eexists; vm_compute; reflexivity).
  exists m. split; [exact Hbuild|].
  apply (charging_scenario idle_is_feasible m Hbuild).
  exact charging_scenario_idle_admissible.
Defined.

(** * Scenario generation: lists of datetimes *)

Section DatetimeListFacts.

Variable int_of_quotient : Z → Z → Z.
Hypothesis Hexact : exact_below_2_53 int_of_quotient.

Lemma datetime_steps (m : Z) (l0 : list Z) (d0 : Z) (n : nat) :
  foldl (datetime_step m) (l0, d0) (seqZ 0 (Z.of_nat n))
  = (l0 ++ ((λ i, d0 + i * timedelta_minutes m) <$> seqZ 0 (Z.of_nat n)),
     d0 + Z.of_nat n * timedelta_minutes m).
Proof.
  induction n as [|n IH].
  - simpl. rewrite app_nil_r. f_equal. lia.
  - rewrite seqZ_S, foldl_snoc, IH, fmap_app. unfold datetime_step. simpl.
    rewrite <- app_assoc. simpl.
    replace (0 + Z.of_nat n) with (Z.of_nat n) by lia.
    replace (Z.of_nat (S n)) with (Z.of_nat n + 1) by lia.
    f_equal. ring.
Qed.

Lemma generate_datetime_list_closed (sdate edate m : Z) :
  timedelta_minutes m ≠ 0 →
  Z.abs (edate - sdate) + Z.abs (timedelta_minutes m) < 2 ^ 53 →
  generate_datetime_list int_of_quotient sdate edate m
  = Ok ((λ i, sdate + i * timedelta_minutes m)
        <$> seqZ 0 (Z.quot (edate - sdate) (timedelta_minutes m))).
Proof.
  intros Hm Hspan. unfold generate_datetime_list.
  rewrite decide_False by done. rewrite Hexact by done. f_equal.
  destruct (Z_le_gt_dec (Z.quot (edate - sdate) (timedelta_minutes m)) 0)
    as [Hle|Hgt].
  - by rewrite seqZ_nil.
  - rewrite <- (Z2Nat.id (Z.quot _ _)) by lia. by rewrite datetime_steps.
Qed.

Lemma quot_positive_divisor (a d : Z) :
  0 < d → Z.to_nat (Z.quot a d) = Z.to_nat (a `div` d).
Proof.
  intros Hd. destruct (Z_le_gt_dec 0 a) as [Hpos|Hneg].
  - by rewrite Z.quot_div_nonneg by lia.
  - assert (Z.quot a d ≤ 0).
    { rewrite <- (Z.opp_involutive a), Z.quot_opp_l by lia.
      pose proof (Z.quot_pos (- a) d). lia. }
    assert (a `div` d < 0) by (apply Z.div_lt_upper_bound; lia).
    lia.
Qed.

Lemma generate_datetime_list_shape (sdate edate m : Z) :
  0 < m →
  Z.abs (edate - sdate) + Z.abs (timedelta_minutes m) < 2 ^ 53 →
  ∃ l,
    generate_datetime_list int_of_quotient sdate edate m = Ok l
    ∧ length l = Z.to_nat ((edate - sdate) `div` timedelta_minutes m)
    ∧ (∀ i : nat, (i < length l)%nat →
         l !! i = Some (sdate + Z.of_nat i * timedelta_minutes m))
    ∧ (∀ x, x ∈ l → sdate ≤ x ∧ x + timedelta_minutes m ≤ edate).
Proof.
  intros Hm Hspan. set (d := timedelta_minutes m) in *.
  assert (0 < d) as Hd by (unfold d, timedelta_minutes; lia).
  eexists. split; [apply generate_datetime_list_closed; [lia | done]|].
  fold d. pose proof (quot_positive_divisor (edate - sdate) d Hd) as Hn.
  split; [|split].
  - by rewrite length_fmap, length_seqZ.
  - intros i Hi. rewrite length_fmap, length_seqZ in Hi.
    rewrite list_lookup_fmap, lookup_seqZ_lt by lia. done.
  - intros x (i & -> & Hi)%list_elem_of_fmap. apply elem_of_seqZ in Hi.
    assert (Z.of_nat (Z.to_nat (Z.quot (edate - sdate) d)) = Z.quot (edate - sdate) d)
      as Hq by lia.
    rewrite Hn in Hq.
    assert (0 ≤ (edate - sdate) `div` d) by lia.
    pose proof (Z.mul_div_le (edate - sdate) d Hd). nia.
Qed.

(** Extra X15. With a positive resolution, [generate_datetime_list] returns
    the datetimes [sdate], [sdate + step], ... as long as a whole step
    still fits before [edate]: their number is the span divided by the
    step, rounded down, each lies at or after [sdate], and each is followed
    by a whole step that ends at or before [edate]. *)
Theorem generate_datetime_list_positive_step (sdate edate m : Z) :
  0 < m →
  Z.abs (edate - sdate) + Z.abs (timedelta_minutes m) < 2 ^ 53 →
  ∃ l,
    generate_datetime_list int_of_quotient sdate edate m = Ok l
    ∧ length l = Z.to_nat ((edate - sdate) `div` timedelta_minutes m)
    ∧ (∀ i : nat, (i < length l)%nat →
         l !! i = Some (sdate + Z.of_nat i * timedelta_minutes m))
    ∧ (∀ x, x ∈ l → sdate ≤ x ∧ x + timedelta_minutes m ≤ edate).
Proof. apply generate_datetime_list_shape. Qed.

(** Extra X16. Edge cases of [generate_datetime_list]: a resolution of 0
    minutes raises [ZeroDivisionError]; with a positive resolution the list
    is empty exactly when less than one whole step separates [sdate] from
    [edate] (in particular when [edate] is not after [sdate]), and
    otherwise it starts with [sdate]. *)
Theorem generate_datetime_list_edges (sdate edate m : Z) :
  (m = 0 →
   generate_datetime_list int_of_quotient sdate edate m
   = Raise ZeroDivisionError)
  ∧ (0 < m →
     Z.abs (edate - sdate) + Z.abs (timedelta_minutes m) < 2 ^ 53 →
     ∃ l,
       generate_datetime_list int_of_quotient sdate edate m = Ok l
       ∧ (l = [] ↔ edate - sdate < timedelta_minutes m)
       ∧ (timedelta_minutes m ≤ edate - sdate → head l = Some sdate)).
Proof.
  split.
  - intros ->. reflexivity.
  - intros Hm Hspan.
    destruct (generate_datetime_list_shape sdate edate m Hm Hspan)
      as (l & Hl & Hlen & Hnth & _).
    exists l. split; [done|]. set (d := timedelta_minutes m) in *.
    assert (0 < d) as Hd by (unfold d, timedelta_minutes; lia).
    assert ((edate - sdate) `div` d ≤ 0 ↔ edate - sdate < d) as Hsmall.
    { split.
      - intros Hle. destruct (Z_lt_ge_dec (edate - sdate) d) as [?|Hge]; [done|].
        pose proof (Z.div_le_mono d (edate - sdate) d Hd). 
        rewrite Z.div_same in * by lia. lia.
      - intros Hlt. destruct (Z_le_gt_dec 0 (edate - sdate)).
        + rewrite Z.div_small; lia.
        + assert ((edate - sdate) `div` d < 0)
            by (apply Z.div_lt_upper_bound; lia). lia. }
    split.
    + rewrite <- Hsmall. split.
      * intros ->. simpl in Hlen. lia.
      * intros Hle. apply length_zero_iff_nil. lia.
    + intros Hge. rewrite head_lookup. rewrite Hnth; [f_equal; lia|].
      assert (0 < (edate - sdate) `div` d); [|lia].
      destruct (Z_le_gt_dec ((edate - sdate) `div` d) 0) as [Hle|?]; [|lia].
      apply Hsmall in Hle. lia.
Qed.

End DatetimeListFacts.

Lemma quot_exact_below_2_53 : exact_below_2_53 Z.quot.
Proof. by intros a b _ _. Qed.

Lemma generate_datetime_list_positive_step_witness :
  generate_datetime_list Z.quot 0 2700000000 15
  = Ok [0; 900000000; 1800000000].
Proof.
  destruct (generate_datetime_list_positive_step Z.quot quot_exact_below_2_53
              0 2700000000 15) as (l & Hl & _); [done|done|].
  reflexivity.
Defined.

Lemma generate_datetime_list_edges_witness :
  generate_datetime_list Z.quot 0 2700000000 0 = Raise ZeroDivisionError
  ∧ ∃ l, generate_datetime_list Z.quot 0 600000000 15 = Ok l ∧ l = [].
Proof.
  split.
  - apply (generate_datetime_list_edges Z.quot quot_exact_below_2_53). reflexivity.
  - destruct (proj2 (generate_datetime_list_edges Z.quot quot_exact_below_2_53
                       0 600000000 15)) as (l & Hl & Hempty & _); [done|done|].
    exists l. split; [exact Hl|]. apply Hempty. reflexivity.
Defined.

(** ** Fleet bookkeeping *)

Lemma foldl_insert_lookup `{Countable K} {A V : Type} (key : A → K)
    (val : K → V) (h : list A) (d0 : gmap K V) (k : K) :
  foldl (λ d t, <[key t := val (key t)]> d) d0 h !! k
  = if decide (k ∈ key <$> h) then Some (val k) else d0 !! k.
Proof.
  revert d0. induction h as [|t h IH]; intros d0.
  - rewrite decide_False by apply not_elem_of_nil. reflexivity.
  - cbn [foldl]. rewrite IH, fmap_cons.
    destruct (decide (k ∈ key <$> h)) as [Hin|Hout].
    + rewrite decide_True by (right; exact Hin). reflexivity.
    + destruct (decide (k = key t)) as [->|Hne].
      * rewrite decide_True by left. apply lookup_insert_eq.
      * rewrite decide_False by (rewrite elem_of_cons; tauto).
        apply lookup_insert_ne. congruence.
Qed.

Lemma empty_slots_lookup (h : list Z) (ts : Z) :
  empty_slots h !! ts = if decide (ts ∈ h) then Some [] else None.
Proof.
  unfold empty_slots.
  rewrite (foldl_insert_lookup (λ t : Z, t) (λ _, [])), list_fmap_id.
  destruct (decide (ts ∈ h)); [reflexivity | apply lookup_empty].
Qed.

Lemma empty_outgoing_lookup (h : list Z) (k : option Z) :
  empty_outgoing h !! k
  = match k with
    | None => Some []
    | Some ts => if decide (ts ∈ h) then Some [] else None
    end.
Proof.
  unfold empty_outgoing. destruct k as [ts|].
  - rewrite lookup_insert_ne by discriminate.
    rewrite (foldl_insert_lookup Some (λ _, [])).
    destruct (decide (ts ∈ h)) as [Hin|Hout].
    + rewrite decide_True by (apply list_elem_of_fmap; eauto). reflexivity.
    + rewrite decide_False; [apply lookup_empty|].
      intros (t & [= ->] & Ht)%list_elem_of_fmap. contradiction.
  - apply lookup_insert_eq.
Qed.

Lemma count_presence_lookup (rows : list behavior_row) (h : list Z) (t : Z) :
  count_presence rows h !! t
  = if decide (t ∈ h) then Some (length (filter (present_at t) rows))
    else None.
Proof.
  unfold count_presence.
  rewrite (foldl_insert_lookup (λ t : Z, t)
             (λ t, length (filter (present_at t) rows))), list_fmap_id.
  destruct (decide (t ∈ h)); [reflexivity | apply lookup_empty].
Qed.

Lemma append_at_cases `{Countable K} (d : gmap K (list ElectricVehicle))
    (k : K) (ev : ElectricVehicle) :
  (is_Some (d !! k) ∧ ∃ d', append_at d k ev = Ok d'
     ∧ ∀ k', d' !! k'
         = (λ l, l ++ (if decide (k = k') then [ev] else [])) <$> d !! k')
  ∨ (d !! k = None ∧ append_at d k ev = Raise KeyError).
Proof.
  unfold append_at. destruct (d !! k) as [l|] eqn:Hk; [left | right; done].
  split; [eauto|]. eexists. split; [reflexivity|]. intros k'.
  destruct (decide (k = k')) as [<-|Hne].
  - rewrite lookup_insert_eq, Hk. reflexivity.
  - rewrite lookup_insert_ne by exact Hne.
    destruct (d !! k') as [l'|]; simpl; [rewrite app_nil_r|]; reflexivity.
Qed.

Section FleetFacts.

Variable fresh_soc : string → Q → Q → Q → gmap Z Q.

Lemma add_vehicle_cases (fl : EVFleet) (i : behavior_row) :
  (filed fl i ∧ ∃ fl', add_vehicle fresh_soc fl i = Ok fl'
     ∧ fleet_id fl' = fleet_id fl
     ∧ presence_distribution fl' = presence_distribution fl
     ∧ objects fl' = <[row_ev_id i := make_vehicle fresh_soc i]> (objects fl)
     ∧ (∀ ts, reserving_at fl' !! ts
          = (λ l, l ++ (if decide (row_reservation_time i = ts)
                        then [make_vehicle fresh_soc i] else []))
            <$> reserving_at fl !! ts)
     ∧ (∀ ts, incoming_at fl' !! ts
          = (λ l, l ++ (if decide (row_real_arrival_time i = ts)
                        then [make_vehicle fresh_soc i] else []))
            <$> incoming_at fl !! ts)
     ∧ (∀ k, outgoing_at fl' !! k
          = (λ l, l ++ (if decide (row_real_departure_time i = k)
                        then [make_vehicle fresh_soc i] else []))
            <$> outgoing_at fl !! k))
  ∨ (¬ filed fl i ∧ add_vehicle fresh_soc fl i = Raise KeyError).
Proof.
  unfold add_vehicle, filed. cbn [t_res t_arr_real t_dep_real make_vehicle].
  set (ev := make_vehicle fresh_soc i).
  assert (∀ d : gmap (option Z) (list ElectricVehicle),
            match row_real_departure_time i with
            | Some t => append_at d (Some t) ev
            | None => append_at d None ev
            end = append_at d (row_real_departure_time i) ev) as ->
    by (intros d; destruct (row_real_departure_time i); reflexivity).
  destruct (append_at_cases (reserving_at fl) (row_reservation_time i) ev)
    as [(Hr & r & -> & Hr') | (Hr & ->)];
    [| right; split; [rewrite Hr; intros ([? [=]] & _) | reflexivity]].
  destruct (append_at_cases (incoming_at fl) (row_real_arrival_time i) ev)
    as [(Hi & n & -> & Hi') | (Hi & ->)];
    [| right; split; [rewrite Hi; intros (_ & [? [=]] & _) | reflexivity]].
  destruct (append_at_cases (outgoing_at fl) (row_real_departure_time i) ev)
    as [(Ho & o & -> & Ho') | (Ho & ->)];
    [| right; split; [rewrite Ho; intros (_ & _ & [? [=]]) | reflexivity]].
  left. split; [done|]. eexists. split; [reflexivity|]. done.
Qed.

Lemma filed_same_keys (fl fl' : EVFleet) (i : behavior_row) :
  (∀ ts, is_Some (reserving_at fl' !! ts) ↔ is_Some (reserving_at fl !! ts)) →
  (∀ ts, is_Some (incoming_at fl' !! ts) ↔ is_Some (incoming_at fl !! ts)) →
  (∀ k, is_Some (outgoing_at fl' !! k) ↔ is_Some (outgoing_at fl !! k)) →
  filed fl' i ↔ filed fl i.
Proof. intros Hr Hi Ho. unfold filed. rewrite Hr, Hi, Ho. reflexivity. Qed.

(** The loop over the rows: either every row finds its three keys, and
    then each table has grown by the vehicles of the rows with that key, in
    row order; or some row does not, and the loop raises [KeyError]. *)
Lemma add_vehicles_cases (rows : list behavior_row) : ∀ fl : EVFleet,
  (Forall (filed fl) rows ∧ ∃ fl', foldM (add_vehicle fresh_soc) fl rows = Ok fl'
     ∧ fleet_id fl' = fleet_id fl
     ∧ objects fl'
       = foldl (λ o i, <[row_ev_id i := make_vehicle fresh_soc i]> o)
               (objects fl) rows
     ∧ (∀ ts, reserving_at fl' !! ts
          = (λ l, l ++ (make_vehicle fresh_soc
                          <$> filter (λ i, row_reservation_time i = ts) rows))
            <$> reserving_at fl !! ts)
     ∧ (∀ ts, incoming_at fl' !! ts
          = (λ l, l ++ (make_vehicle fresh_soc
                          <$> filter (λ i, row_real_arrival_time i = ts) rows))
            <$> incoming_at fl !! ts)
     ∧ (∀ k, outgoing_at fl' !! k
          = (λ l, l ++ (make_vehicle fresh_soc
                          <$> filter (λ i, row_real_departure_time i = k) rows))
            <$> outgoing_at fl !! k))
  ∨ (¬ Forall (filed fl) rows
     ∧ foldM (add_vehicle fresh_soc) fl rows = Raise KeyError).
Proof.
  induction rows as [|i rows IH]; intros fl.
  - left. split; [constructor|]. exists fl. simpl.
    split; [reflexivity|]. split; [reflexivity|]. split; [reflexivity|].
    split; [|split]; intros k; destruct (_ !! k) as [l|]; simpl;
      rewrite ?app_nil_r; reflexivity.
  - cbn [foldM].
    destruct (add_vehicle_cases fl i)
      as [(Hf & fl1 & -> & Hid & _ & Hobj & Hr & Hi & Ho) | (Hf & ->)];
      [| right; split; [rewrite Forall_cons; tauto | reflexivity]].
    cbn [mbind result_bind].
    assert (∀ j, filed fl1 j ↔ filed fl j) as Hsame.
    { intros j. apply filed_same_keys; intros k;
        rewrite ?Hr, ?Hi, ?Ho, fmap_is_Some; reflexivity. }
    destruct (IH fl1)
      as [(Hall & fl' & -> & Hid' & Hobj' & Hr' & Hi' & Ho') | (Hall & ->)].
    + left. split.
      { constructor; [exact Hf|]. eapply Forall_impl; [exact Hall|].
        intros j. apply Hsame. }
      exists fl'. split; [reflexivity|]. split; [congruence|].
      split; [rewrite Hobj', Hobj; reflexivity|].
      split; [|split]; intros k;
        rewrite ?Hr', ?Hi', ?Ho', ?Hr, ?Hi, ?Ho, <- option_fmap_compose;
        apply option_fmap_ext; intros l; simpl; rewrite <- app_assoc;
        f_equal; rewrite filter_cons; destruct (decide _); reflexivity.
    + right. split; [|reflexivity]. rewrite Forall_cons.
      intros [_ Hall']. apply Hall. eapply Forall_impl; [exact Hall'|].
      intros j. apply Hsame.
Qed.

Lemma filed_initially (id : string) (h : list Z) (i : behavior_row) :
  filed {| fleet_id := id; objects := ∅;
           reserving_at := empty_slots h; incoming_at := empty_slots h;
           outgoing_at := empty_outgoing h; presence_distribution := ∅ |} i
  ↔ row_in_horizon h i.
Proof.
  unfold filed, row_in_horizon. simpl.
  rewrite !empty_slots_lookup, empty_outgoing_lookup.
  destruct (decide (row_reservation_time i ∈ h)) as [Hr|Hr];
    [| split; [intros ([? [=]] & _) | tauto]].
  destruct (decide (row_real_arrival_time i ∈ h)) as [Ha|Ha];
    [| split; [intros (_ & [? [=]] & _) | tauto]].
  destruct (row_real_departure_time i) as [d|].
  - destruct (decide (d ∈ h)) as [Hd|Hd].
    + split; [intros _ | eauto]. split; [|split]; [done..|].
      intros ? [= <-]. exact Hd.
    + split; [intros (_ & _ & [? [=]]) | intros (_ & _ & Hd')].
      exfalso. eauto.
  - split; [intros _ | eauto]. split; [|split]; [done..|]. intros ? [=].
Qed.

(** What [EVFleet.__init__] does, in one statement. *)
Lemma EVFleet_init_cases (id : string) (rows : list behavior_row)
    (h : list Z) :
  (Forall (row_in_horizon h) rows
   ∧ ∃ fl, EVFleet_init fresh_soc id rows h = Ok fl
     ∧ fleet_id fl = id
     ∧ objects fl
       = foldl (λ o i, <[row_ev_id i := make_vehicle fresh_soc i]> o) ∅ rows
     ∧ (∀ ts, reserving_at fl !! ts
          = if decide (ts ∈ h)
            then Some (make_vehicle fresh_soc
                         <$> filter (λ i, row_reservation_time i = ts) rows)
            else None)
     ∧ (∀ ts, incoming_at fl !! ts
          = if decide (ts ∈ h)
            then Some (make_vehicle fresh_soc
                         <$> filter (λ i, row_real_arrival_time i = ts) rows)
            else None)
     ∧ (∀ ts, outgoing_at fl !! Some ts
          = if decide (ts ∈ h)
            then Some (make_vehicle fresh_soc
                         <$> filter (λ i, row_real_departure_time i = Some ts)
                               rows)
            else None)
     ∧ outgoing_at fl !! None
       = Some (make_vehicle fresh_soc
                 <$> filter (λ i, row_real_departure_time i = None) rows)
     ∧ presence_distribution fl = count_presence rows h)
  ∨ (¬ Forall (row_in_horizon h) rows
     ∧ EVFleet_init fresh_soc id rows h = Raise KeyError).
Proof.
  unfold EVFleet_init.
  set (fl0 := {| fleet_id := id; objects := ∅;
                 reserving_at := empty_slots h; incoming_at := empty_slots h;
                 outgoing_at := empty_outgoing h;
                 presence_distribution := ∅ |}).
  assert (Forall (filed fl0) rows ↔ Forall (row_in_horizon h) rows) as Hiff.
  { apply Forall_iff. intros i. apply filed_initially. }
  destruct (add_vehicles_cases rows fl0)
    as [(Hall & fl & -> & Hid & Hobj & Hr & Hi & Ho) | (Hall & ->)];
    [left | right; split; [rewrite <- Hiff; exact Hall | reflexivity]].
  split; [apply Hiff, Hall|]. eexists. split; [reflexivity|]. simpl.
  split; [exact Hid|]. split; [exact Hobj|].
  split; [|split; [|split; [|split]]]; try reflexivity.
  - intros ts. rewrite Hr. simpl. rewrite empty_slots_lookup.
    destruct (decide (ts ∈ h)); reflexivity.
  - intros ts. rewrite Hi. simpl. rewrite empty_slots_lookup.
    destruct (decide (ts ∈ h)); reflexivity.
  - intros ts. rewrite Ho. simpl. rewrite empty_outgoing_lookup.
    destruct (decide (ts ∈ h)); reflexivity.
  - rewrite Ho. simpl. rewrite empty_outgoing_lookup. simpl.
    do 2 f_equal. apply list_filter_iff. reflexivity.
Qed.

Lemma foldl_insert_last `{Countable K} {A V : Type} (key : A → K)
    (val : A → V) (l : list A) (d0 : gmap K V) (k : K) :
  foldl (λ d i, <[key i := val i]> d) d0 l !! k
  = match last (filter (λ i, key i = k) l) with
    | Some i => Some (val i)
    | None => d0 !! k
    end.
Proof.
  induction l as [|i l IH] using rev_ind; [reflexivity|].
  rewrite foldl_app, filter_app. simpl. rewrite filter_cons, filter_nil.
  destruct (decide (key i = k)) as [<-|Hne].
  - rewrite last_snoc. apply lookup_insert_eq.
  - rewrite app_nil_r, lookup_insert_ne by exact Hne. exact IH.
Qed.

(** X17: Building a fleet succeeds exactly when every row's reservation
    time, real arrival time and (if it has one) real departure time is one
    of the time stamps of the simulated horizon; when some row has a time
    outside the horizon the constructor raises [KeyError]. *)
Theorem fleet_init_needs_rows_in_horizon (id : string)
    (rows : list behavior_row) (h : list Z) :
  (Forall (row_in_horizon h) rows
   ↔ ∃ fl, EVFleet_init fresh_soc id rows h = Ok fl)
  ∧ (¬ Forall (row_in_horizon h) rows
     ↔ EVFleet_init fresh_soc id rows h = Raise KeyError).
Proof.
  destruct (EVFleet_init_cases id rows h) as [(Hall & fl & Hfl & _) | (Hall & Hfl)].
  - split; split; [eauto | tauto | tauto |]. rewrite Hfl. discriminate.
  - split; split; [tauto | | tauto | tauto]. rewrite Hfl. intros (? & [=]).
Qed.

(** X18: In a fleet that was built, the three accessors return, for a time
    stamp of the horizon, the vehicles of exactly the rows with that
    reservation time, real arrival time or real departure time, in the
    order of the rows. *)
Theorem fleet_vehicles_filed_by_time (id : string) (rows : list behavior_row)
    (h : list Z) (fl : EVFleet) (ts : Z) :
  EVFleet_init fresh_soc id rows h = Ok fl →
  ts ∈ h →
  reserving_vehicles_at fl ts
    = Ok (make_vehicle fresh_soc
            <$> filter (λ i, row_reservation_time i = ts) rows)
  ∧ incoming_vehicles_at fl ts
    = Ok (make_vehicle fresh_soc
            <$> filter (λ i, row_real_arrival_time i = ts) rows)
  ∧ outgoing_vehicles_at fl (Some ts)
    = Ok (make_vehicle fresh_soc
            <$> filter (λ i, row_real_departure_time i = Some ts) rows).
Proof.
  intros Hinit Hts.
  destruct (EVFleet_init_cases id rows h)
    as [(_ & fl' & Hfl & _ & _ & Hr & Hi & Ho & _) | (_ & Hfl)];
    [| congruence].
  assert (fl' = fl) as -> by congruence.
  unfold reserving_vehicles_at, incoming_vehicles_at, outgoing_vehicles_at,
    vehicles_at.
  rewrite Hr, Hi, Ho, !decide_True by exact Hts. done.
Qed.

(** X19: In a fleet that was built, asking any of the three accessors for a
    time stamp outside the simulated horizon raises [KeyError]. *)
Theorem fleet_accessors_outside_horizon (id : string)
    (rows : list behavior_row) (h : list Z) (fl : EVFleet) (ts : Z) :
  EVFleet_init fresh_soc id rows h = Ok fl →
  ts ∉ h →
  reserving_vehicles_at fl ts = Raise KeyError
  ∧ incoming_vehicles_at fl ts = Raise KeyError
  ∧ outgoing_vehicles_at fl (Some ts) = Raise KeyError.
Proof.
  intros Hinit Hts.
  destruct (EVFleet_init_cases id rows h)
    as [(_ & fl' & Hfl & _ & _ & Hr & Hi & Ho & _) | (_ & Hfl)];
    [| congruence].
  assert (fl' = fl) as -> by congruence.
  unfold reserving_vehicles_at, incoming_vehicles_at, outgoing_vehicles_at,
    vehicles_at.
  rewrite Hr, Hi, Ho, !decide_False by exact Hts. done.
Qed.

(** X20: The vehicles of the rows without a real departure time are listed,
    in row order, under the key [None] of the outgoing table, whatever the
    horizon; and they are never counted as present: at no time stamp does
    the presence count exceed the number of rows that have a real departure
    time. *)
Theorem fleet_undeparted_vehicles (id : string) (rows : list behavior_row)
    (h : list Z) (fl : EVFleet) :
  EVFleet_init fresh_soc id rows h = Ok fl →
  outgoing_vehicles_at fl None
    = Ok (make_vehicle fresh_soc
            <$> filter (λ i, row_real_departure_time i = None) rows)
  ∧ ∀ t n, presence_distribution fl !! t = Some n →
      (n + length (filter (λ i, row_real_departure_time i = None) rows)
       ≤ length rows)%nat.
Proof.
  intros Hinit.
  destruct (EVFleet_init_cases id rows h)
    as [(_ & fl' & Hfl & _ & _ & _ & _ & _ & Ho & Hp) | (_ & Hfl)];
    [| congruence].
  assert (fl' = fl) as -> by congruence.
  split; [unfold outgoing_vehicles_at, vehicles_at; rewrite Ho; done|].
  intros t n. rewrite Hp, count_presence_lookup.
  destruct (decide (t ∈ h)); [intros [= <-] | discriminate].
  clear. induction rows as [|i rows IH]; [simpl; lia|].
  rewrite !filter_cons.
  destruct (decide (present_at t i)) as [(_ & d & Hd & _)|_];
    destruct (decide (row_real_departure_time i = None)) as [Hn|_];
    simpl; try lia.
  congruence.
Qed.

(** X21: The presence table has one entry per time stamp of the horizon.
    When no row leaves before it arrives, the vehicles counted present at
    [t], those that have left by [t], and those that have arrived by [t]
    and never leave, together make up the vehicles that have arrived by
    [t]. *)
Theorem fleet_presence_balance (id : string) (rows : list behavior_row)
    (h : list Z) (fl : EVFleet) (t : Z) :
  EVFleet_init fresh_soc id rows h = Ok fl →
  t ∈ h →
  Forall (λ i, ∀ d, row_real_departure_time i = Some d →
                 row_real_arrival_time i ≤ d) rows →
  ∃ n, presence_distribution fl !! t = Some n
    ∧ (n + length (filter (departed_by t) rows)
         + length (filter (staying_since t) rows)
       = length (filter (λ i, (row_real_arrival_time i ≤ t)%Z) rows))%nat.
Proof.
  intros Hinit Ht Hrows.
  destruct (EVFleet_init_cases id rows h)
    as [(_ & fl' & Hfl & _ & _ & _ & _ & _ & _ & Hp) | (_ & Hfl)];
    [| congruence].
  assert (fl' = fl) as -> by congruence.
  eexists. split.
  { rewrite Hp, count_presence_lookup, decide_True by exact Ht. reflexivity. }
  clear -Hrows. induction Hrows as [|i rows Hi _ IH]; [reflexivity|].
  rewrite !filter_cons.
  destruct (decide (present_at t i)) as [(Ha & d & Hd & Hlt)|Hnp];
    destruct (decide (departed_by t i)) as [(d' & Hd' & Hle)|Hnd];
    destruct (decide (staying_since t i)) as [(Ha' & Hn)|Hns];
    destruct (decide (row_real_arrival_time i ≤ t)) as [Hat|Hnat];
    simpl; try lia; exfalso; try congruence.
  - assert (d' = d) by congruence. lia.
  - specialize (Hi d' Hd'). lia.
  - destruct (row_real_departure_time i) as [d|] eqn:Hd.
    + destruct (decide (d ≤ t)) as [Hle|Hgt].
      * apply Hnd. exists d. done.
      * apply Hnp. split; [exact Hat|]. exists d. split; [done | lia].
    + apply Hns. done.
Qed.

(** X22: The table of objects of a fleet that was built holds, for each
    vehicle identifier, the vehicle of the last row with that identifier:
    an earlier row with the same identifier is replaced there, although its
    vehicle stays in the tables by time. *)
Theorem fleet_objects_last_row (id : string) (rows : list behavior_row)
    (h : list Z) (fl : EVFleet) (ev_id : string) :
  EVFleet_init fresh_soc id rows h = Ok fl →
  objects fl !! ev_id
  = make_vehicle fresh_soc <$> last (filter (λ i, row_ev_id i = ev_id) rows).
Proof.
  intros Hinit.
  destruct (EVFleet_init_cases id rows h)
    as [(_ & fl' & Hfl & _ & Hobj & _) | (_ & Hfl)]; [| congruence].
  assert (fl' = fl) as -> by congruence.
  rewrite Hobj, foldl_insert_last.
  destruct (last _); [reflexivity | apply lookup_empty].
Qed.

End FleetFacts.

(** ** Runs of the fleet bookkeeping *)

Lemma example_fleet_built :
  ∃ fl, EVFleet_init no_soc "fleet" example_rows [0; 1; 2; 3; 4] = Ok fl.
Proof. eexists. vm_compute. reflexivity. Defined.

Lemma fleet_vehicles_filed_by_time_witness :
  ∃ fl, EVFleet_init no_soc "fleet" example_rows [0; 1; 2; 3; 4] = Ok fl
    ∧ incoming_vehicles_at fl 1
      = Ok [make_vehicle no_soc (example_row "ev1" 0 1 (Some 3));
            make_vehicle no_soc (example_row "ev2" 0 1 None)].
Proof.
  destruct example_fleet_built as [fl Hfl]. exists fl. split; [exact Hfl|].
  destruct (fleet_vehicles_filed_by_time no_soc "fleet" example_rows
              [0; 1; 2; 3; 4] fl 1 Hfl) as (_ & Hi & _); [repeat constructor|].
  exact Hi.
Defined.

Lemma fleet_accessors_outside_horizon_witness :
  ∃ fl, EVFleet_init no_soc "fleet" example_rows [0; 1; 2; 3; 4] = Ok fl
    ∧ outgoing_vehicles_at fl (Some 7) = Raise KeyError.
Proof.
  destruct example_fleet_built as [fl Hfl]. exists fl. split; [exact Hfl|].
  destruct (fleet_accessors_outside_horizon no_soc "fleet" example_rows
              [0; 1; 2; 3; 4] fl 7 Hfl) as (_ & _ & Ho);
    [rewrite !elem_of_cons, elem_of_nil; lia|].
  exact Ho.
Defined.

Lemma fleet_undeparted_vehicles_witness :
  ∃ fl, EVFleet_init no_soc "fleet" example_rows [0; 1; 2; 3; 4] = Ok fl
    ∧ outgoing_vehicles_at fl None
      = Ok [make_vehicle no_soc (example_row "ev2" 0 1 None)].
Proof.
  destruct example_fleet_built as [fl Hfl]. exists fl. split; [exact Hfl|].
  exact (proj1 (fleet_undeparted_vehicles no_soc "fleet" example_rows
                  [0; 1; 2; 3; 4] fl Hfl)).
Defined.

Lemma fleet_presence_balance_witness :
  ∃ fl, EVFleet_init no_soc "fleet" example_rows [0; 1; 2; 3; 4] = Ok fl
    ∧ presence_distribution fl !! 2 = Some 2%nat.
Proof.
  destruct example_fleet_built as [fl Hfl]. exists fl. split; [exact Hfl|].
  destruct (fleet_presence_balance no_soc "fleet" example_rows
              [0; 1; 2; 3; 4] fl 2 Hfl) as (n & Hn & Hbal).
  - repeat constructor.
  - unfold example_rows.
    repeat (apply Forall_cons; split;
              [intros d Hd; simpl in Hd;
               first [discriminate Hd | injection Hd as <-; simpl; lia]|]).
    apply Forall_nil_2.
  - assert (length (filter (departed_by 2) example_rows) = 0%nat) as Hd
      by (vm_compute; reflexivity).
    assert (length (filter (staying_since 2) example_rows) = 1%nat) as Hs
      by (vm_compute; reflexivity).
    assert (length (filter (λ i, row_real_arrival_time i ≤ 2) example_rows)
            = 3%nat) as Ha by (vm_compute; reflexivity).
    rewrite Hd, Hs, Ha in Hbal. rewrite Hn. f_equal. lia.
Defined.

Lemma fleet_objects_last_row_witness :
  ∃ fl, EVFleet_init no_soc "fleet" example_rows [0; 1; 2; 3; 4] = Ok fl
    ∧ objects fl !! "ev1"
      = Some (make_vehicle no_soc (example_row "ev1" 2 3 (Some 4))).
Proof.
  destruct example_fleet_built as [fl Hfl]. exists fl. split; [exact Hfl|].
  exact (fleet_objects_last_row no_soc "fleet" example_rows
           [0; 1; 2; 3; 4] fl "ev1" Hfl).
Defined.
